(** * BaseballStats: the indexed max-heaps of [baseball.py] and the tracker
    built on them.

    The development embeds [Heap], [PlayerRecord] and [Problem] of
    [src/baseball.py] (a Python 2 program) and states the properties of the
    specification over that embedding.

    Modelling decisions, all read off the source:
    - Python integers are [Z]; [/] on two integers is Python 2 floor
      division, which is [Z.div] for the positive divisor 2.
    - A Python list indexed by an integer accepts negative indices
      ([heap[-1]] is the last element) and raises [IndexError] out of range.
    - [PlayerRecord] instances are shared, mutable objects: they live in an
      object store and the record map and the four heaps hold references
      (store locations) to them.
    - [avg] is [float(hits) / float(ab)]; it is held here as the exact
      rational quotient, the rounding of the binary64 quotient is not
      modelled.
    - [while] loops are written with fuel; the fuel given by the entry points
      is shown to be enough for every input. *)

From Stdlib Require Import ZArith QArith Lia.
From stdpp Require Import base option list gmap strings sorting.

Local Open Scope Z_scope.

(** ** Outcomes of a call *)

Inductive exn : Type :=
  | IndexError
  | TypeError
  | AttributeError
  | KeyError
  | ZeroDivisionError.

(** [Ok a] is a normal return, [Raise e] an uncaught exception, [OutOfFuel]
    a loop that was cut off by the model (never produced by the entry
    points below, see [heapify_up_total], [heapify_down_total] and
    [validate_heap_spec]). *)
Inductive result (A : Type) : Type :=
  | Ok (a : A)
  | Raise (e : exn)
  | OutOfFuel.
Arguments Ok {A} a.
Arguments Raise {A} e.
Arguments OutOfFuel {A}.

Definition bind {A B : Type} (m : result A) (f : A -> result B) : result B :=
  match m with
  | Ok a => f a
  | Raise e => Raise e
  | OutOfFuel => OutOfFuel
  end.

Notation "'do' x <- m 'in' k" := (bind m (fun x => k))
  (at level 10, x name, m at level 100, k at level 200).

(** ** Python lists *)

Module PyList.
Section PyList.
Context {A : Type}.

Definition len (l : list A) : Z := Z.of_nat (length l).

(** The slot an index denotes: negative indices count from the end. *)
Definition norm (l : list A) (i : Z) : Z :=
if i <? 0 then i + len l else i.

Definition in_range (l : list A) (i : Z) : bool :=
(0 <=? norm l i) && (norm l i <? len l).

(** [l[i]] *)
Definition getitem (l : list A) (i : Z) : result A :=
if in_range l i then
  match l !! Z.to_nat (norm l i) with
  | Some x => Ok x
  | None => Raise IndexError
  end
else Raise IndexError.

(** [l[i] = x] *)
Definition setitem (l : list A) (i : Z) (x : A) : result (list A) :=
if in_range l i then Ok (<[Z.to_nat (norm l i) := x]> l)
else Raise IndexError.

(** [l.append(x)] *)
Definition append (l : list A) (x : A) : list A := l ++ [x].

(** [l.pop(i)]: the element and the list without it. *)
Definition pop (l : list A) (i : Z) : result (A * list A) :=
if in_range l i then
  match l !! Z.to_nat (norm l i) with
  | Some x => Ok (x, take (Z.to_nat (norm l i)) l
                       ++ drop (S (Z.to_nat (norm l i))) l)
  | None => Raise IndexError
  end
else Raise IndexError.
End PyList.
End PyList.

(** ** PlayerRecord *)

(** The attributes a heap can be sorted on: the strings ['ab'], ['hits'],
    ['rbi'] and ['avg'] passed to [Heap(...)] by [Problem.__init__]. *)
Inductive attr : Type := Ab | Hits | Rbi | Avg.

Global Instance attr_eq_dec : EqDecision attr.
Proof. solve_decision. Defined.

Record PlayerRecord : Type := mkPlayerRecord {
  player : option string;   (* [None] is Python's None *)
  ab : Z;
  hits : Z;
  avg : Q;
  rbi : Z
}.

(** [float(h) / float(a)] for [a <> 0]. *)
Definition float_div (h a : Z) : Q := (inject_Z h / inject_Z a)%Q.

(** [PlayerRecord.__init__] *)
Definition PlayerRecord_init (p : option string) (a h r : Z) : PlayerRecord :=
  {| player := p;
     ab := a;
     hits := h;
     avg := if a =? 0 then 0%Q else float_div h a;
     rbi := r |}.

(** [getattr(record, sorting_key)]: integers and floats are compared as
    numbers, so every key is read as a rational. *)
Definition getattr (r : PlayerRecord) (k : attr) : Q :=
  match k with
  | Ab => inject_Z (ab r)
  | Hits => inject_Z (hits r)
  | Rbi => inject_Z (rbi r)
  | Avg => avg r
  end.

(** [a < b] on keys. *)
Definition key_lt (a b : Q) : bool := negb (Qle_bool b a).

(** ** The object store *)

Definition loc : Type := nat.

Global Instance PlayerRecord_inhabited : Inhabited PlayerRecord :=
  populate (PlayerRecord_init None 0 0 0).

(** References never dangle in Python: a location reads as the object
    stored there. *)
Definition deref (st : list PlayerRecord) (l : loc) : PlayerRecord := st !!! l.

(** ** Heap *)

Record Heap : Type := mkHeap {
  heap : list loc;
  mapping : gmap (option string) Z;
  sorting_key : attr
}.

(** [Heap.__init__] *)
Definition Heap_init (k : attr) : Heap :=
  {| heap := []; mapping := ∅; sorting_key := k |}.

Definition key_of (st : list PlayerRecord) (h : Heap) (l : loc) : Q :=
  getattr (deref st l) (sorting_key h).

(** The body shared by the two sift loops (lines 48-54 and 88-94): the two
    mapping entries are exchanged, then the two array slots. *)
Definition swap_step (st : list PlayerRecord) (h : Heap) (parent child : Z)
  : result Heap :=
  do p <- PyList.getitem (heap h) parent in
  let m1 := <[player (deref st p) := child]> (mapping h) in
  do c <- PyList.getitem (heap h) child in
  let m2 := <[player (deref st c) := parent]> m1 in
  do temp <- PyList.getitem (heap h) parent in
  do c' <- PyList.getitem (heap h) child in
  do a1 <- PyList.setitem (heap h) parent c' in
  do a2 <- PyList.setitem a1 child temp in
  Ok {| heap := a2; mapping := m2; sorting_key := sorting_key h |}.

(** The [while] loop of [heapify_up] (lines 38-58). *)
Fixpoint heapify_up_loop (fuel : nat) (st : list PlayerRecord) (h : Heap)
    (parent child : Z) : result Heap :=
  match fuel with
  | O => OutOfFuel
  | S fuel' =>
      do p <- PyList.getitem (heap h) parent in
      do c <- PyList.getitem (heap h) child in
      if key_lt (key_of st h p) (key_of st h c) then
        if parent =? -1 then Ok h
        else
          do h' <- swap_step st h parent child in
          heapify_up_loop fuel' st h' ((parent - 1) / 2) parent
      else Ok h
  end.

(** [Heap.heapify_up] *)
Definition heapify_up (st : list PlayerRecord) (h : Heap) (child : Z)
  : result Heap :=
  heapify_up_loop (S (Z.abs_nat child)) st h ((child - 1) / 2) child.

(** The child selection of [heapify_down] (lines 69-78 and 98-107): [None]
    when [parent] has no child in the array. *)
Definition pick_child (st : list PlayerRecord) (h : Heap) (parent : Z)
  : result (option Z) :=
  let left := parent * 2 + 1 in
  let right := parent * 2 + 2 in
  if PyList.len (heap h) <=? left then Ok None
  else if PyList.len (heap h) <=? right then Ok (Some left)
  else
    do l <- PyList.getitem (heap h) left in
    do r <- PyList.getitem (heap h) right in
    if key_lt (key_of st h r) (key_of st h l) then Ok (Some left)
    else Ok (Some right).

(** The [while] loop of [heapify_down] (lines 79-107). *)
Fixpoint heapify_down_loop (fuel : nat) (st : list PlayerRecord) (h : Heap)
    (parent child : Z) : result Heap :=
  match fuel with
  | O => OutOfFuel
  | S fuel' =>
      do p <- PyList.getitem (heap h) parent in
      do c <- PyList.getitem (heap h) child in
      if key_lt (key_of st h p) (key_of st h c) then
        if PyList.len (heap h) <=? child then Ok h
        else
          do h' <- swap_step st h parent child in
          do next <- pick_child st h' child in
          match next with
          | None => Ok h'
          | Some child' => heapify_down_loop fuel' st h' child child'
          end
      else Ok h
  end.

(** [Heap.heapify_down] *)
Definition heapify_down (st : list PlayerRecord) (h : Heap) (parent : Z)
  : result Heap :=
  do first <- pick_child st h parent in
  match first with
  | None => Ok h
  | Some child =>
      heapify_down_loop (S (S (length (heap h)))) st h parent child
  end.

(** [Heap.extract_max]: [None] is the bare [return] on an empty heap. *)
Definition extract_max (st : list PlayerRecord) (h : Heap)
  : result (option loc * Heap) :=
  if PyList.len (heap h) <? 1 then Ok (None, h)
  else
    do temp <- PyList.getitem (heap h) 0 in
    do last <- PyList.getitem (heap h) (PyList.len (heap h) - 1) in
    do a1 <- PyList.setitem (heap h) 0 last in
    do a2 <- PyList.setitem a1 (PyList.len a1 - 1) temp in
    do popped <- PyList.pop a2 (PyList.len a2 - 1) in
    do h' <- heapify_down st
            {| heap := snd popped; mapping := mapping h;
               sorting_key := sorting_key h |} 0 in
    Ok (Some (fst popped), h').

(** [Heap.insert] *)
Definition insert (st : list PlayerRecord) (h : Heap) (element : loc)
  : result Heap :=
  let a := PyList.append (heap h) element in
  let child := PyList.len a - 1 in
  let m := <[player (deref st element) := child]> (mapping h) in
  heapify_up st {| heap := a; mapping := m; sorting_key := sorting_key h |}
    child.

(** [Heap.get_index]: [None] when the player is not a key of the mapping. *)
Definition get_index (st : list PlayerRecord) (h : Heap) (element : loc)
  : option Z :=
  mapping h !! player (deref st element).

(** The [while] loop of [validate_heap] (lines 172-184); [remaining] is the
    work list with its last element first. *)
Fixpoint validate_loop (fuel : nat) (ks : list Q) (remaining : list Z)
  : result bool :=
  match fuel with
  | O => OutOfFuel
  | S fuel' =>
      match remaining with
      | [] => Ok true
      | parent :: rest =>
          let child1 := 2 * parent + 1 in
          let child2 := 2 * parent + 2 in
          let n := PyList.len ks in
          let visit (child : Z) (rem : list Z) : result (option (list Z)) :=
            if child <? n then
              do kc <- PyList.getitem ks child in
              do kp <- PyList.getitem ks parent in
              if key_lt kp kc then Ok None else Ok (Some (child :: rem))
            else Ok (Some rem) in
          do r1 <- visit child1 rest in
          match r1 with
          | None => Ok false
          | Some rem1 =>
              do r2 <- visit child2 rem1 in
              match r2 with
              | None => Ok false
              | Some rem2 => validate_loop fuel' ks rem2
              end
          end
      end
  end.

(** [Heap.validate_heap] *)
Definition validate_heap (st : list PlayerRecord) (h : Heap) : result bool :=
  validate_loop (S (S (2 * length (heap h)))) (key_of st h <$> heap h) [0].

(** ** Problem *)

(** [objects] is the object store holding the [PlayerRecord] instances that
    the record map and the heaps refer to; [stdout] collects what [print]
    writes. The other fields are the attributes set by [Problem.__init__]. *)
Record Problem : Type := mkProblem {
  objects : list PlayerRecord;
  player_record_mapping : gmap string loc;
  abHeap : Heap;
  hitsHeap : Heap;
  rbiHeap : Heap;
  avgHeap : Heap;
  stdout : list string
}.

(** [Problem.__init__] *)
Definition Problem_init : Problem :=
  {| objects := [];
     player_record_mapping := ∅;
     abHeap := Heap_init Ab;
     hitsHeap := Heap_init Hits;
     rbiHeap := Heap_init Rbi;
     avgHeap := Heap_init Avg;
     stdout := [] |}.

(** [key in d] and [d[key]] on a dict. *)
Definition dict_contains {V : Type} (d : gmap string V) (key : string) : bool :=
  bool_decide (is_Some (d !! key)).

Definition dict_getitem {V : Type} (d : gmap string V) (key : string)
  : result V :=
  match d !! key with
  | Some v => Ok v
  | None => Raise KeyError
  end.

(** [h.heapify_up(h.get_index(rec))] and [h.heapify_down(h.get_index(rec))]:
    when [get_index] answers [None], [None - 1] and [None * 2] raise
    [TypeError]. *)
Definition sift_at (sift : list PlayerRecord -> Heap -> Z -> result Heap)
    (st : list PlayerRecord) (h : Heap) (rec : loc) : result Heap :=
  match get_index st h rec with
  | Some i => sift st h i
  | None => Raise TypeError
  end.

(** [Problem.new_at_bat] *)
Definition new_at_bat (p : Problem) (name : string) (h r : Z)
  : result Problem :=
  if dict_contains (player_record_mapping p) name then
    do currentRecord <- dict_getitem (player_record_mapping p) name in
    let old := deref (objects p) currentRecord in
    let ab' := ab old + 1 in
    let hits' := hits old + h in
    let rbi' := rbi old + r in
    if ab' =? 0 then Raise ZeroDivisionError
    else
      let st := <[currentRecord :=
                    {| player := player old; ab := ab'; hits := hits';
                       avg := float_div hits' ab'; rbi := rbi' |}]>
                  (objects p) in
      let prm := <[name := currentRecord]> (player_record_mapping p) in
      do a <- sift_at heapify_up st (abHeap p) currentRecord in
      do hi <- sift_at heapify_up st (hitsHeap p) currentRecord in
      do rb <- sift_at heapify_up st (rbiHeap p) currentRecord in
      do av <- (if h =? 0
                then sift_at heapify_down st (avgHeap p) currentRecord
                else sift_at heapify_up st (avgHeap p) currentRecord) in
      Ok {| objects := st; player_record_mapping := prm;
            abHeap := a; hitsHeap := hi; rbiHeap := rb; avgHeap := av;
            stdout := stdout p |}
  else
    let playerRecord := length (objects p) in
    let st := objects p ++ [PlayerRecord_init (Some name) 1 h r] in
    do a <- insert st (abHeap p) playerRecord in
    do hi <- insert st (hitsHeap p) playerRecord in
    do rb <- insert st (rbiHeap p) playerRecord in
    do av <- insert st (avgHeap p) playerRecord in
    Ok {| objects := st;
          player_record_mapping :=
            <[name := playerRecord]> (player_record_mapping p);
          abHeap := a; hitsHeap := hi; rbiHeap := rb; avgHeap := av;
          stdout := stdout p |}.

(** [Problem.current_stats]: the reference it returns is either the shared
    record of the map or a newly built [PlayerRecord(None, 1, 0, 0)]. *)
Definition current_stats (p : Problem) (name : string)
  : result (Problem * loc) :=
  if dict_contains (player_record_mapping p) name then
    do l <- dict_getitem (player_record_mapping p) name in
    Ok (p, l)
  else
    Ok ({| objects := objects p ++ [PlayerRecord_init None 1 0 0];
           player_record_mapping := player_record_mapping p;
           abHeap := abHeap p; hitsHeap := hitsHeap p;
           rbiHeap := rbiHeap p; avgHeap := avgHeap p;
           stdout := stdout p |},
        length (objects p)).

(** The heap chosen by the string comparisons of [current_best]
    (lines 317-327). *)
Definition select_stat (stat : string) : option attr :=
  if String.eqb stat "ab" then Some Ab
  else if String.eqb stat "hits" then Some Hits
  else if String.eqb stat "rbi" then Some Rbi
  else if String.eqb stat "avg" then Some Avg
  else None.

Definition get_heap (p : Problem) (a : attr) : Heap :=
  match a with
  | Ab => abHeap p
  | Hits => hitsHeap p
  | Rbi => rbiHeap p
  | Avg => avgHeap p
  end.

Definition set_heap (p : Problem) (a : attr) (h : Heap) : Problem :=
  {| objects := objects p;
     player_record_mapping := player_record_mapping p;
     abHeap := match a with Ab => h | _ => abHeap p end;
     hitsHeap := match a with Hits => h | _ => hitsHeap p end;
     rbiHeap := match a with Rbi => h | _ => rbiHeap p end;
     avgHeap := match a with Avg => h | _ => avgHeap p end;
     stdout := stdout p |}.

(** [for i in range(size): output.append(theHeap.extract_max())] *)
Fixpoint extract_many (n : nat) (st : list PlayerRecord) (h : Heap)
    (output : list (option loc)) : result (list (option loc) * Heap) :=
  match n with
  | O => Ok (output, h)
  | S n' =>
      do r <- extract_max st h in
      extract_many n' st (snd r) (PyList.append output (fst r))
  end.

(** [for i in output: theHeap.insert(i)]; inserting [None] appends it and
    then fails on [element.player]. *)
Fixpoint insert_all (st : list PlayerRecord) (h : Heap)
    (output : list (option loc)) : result Heap :=
  match output with
  | [] => Ok h
  | i :: rest =>
      do h' <- match i with
               | Some l => insert st h l
               | None => Raise AttributeError
               end in
      insert_all st h' rest
  end.

(** [Problem.current_best]: the value is [None] for the bare [return] of
    the [else] branch, the list [output] otherwise. *)
Definition current_best (p : Problem) (stat : string) (k : Z)
  : result (Problem * option (list (option loc))) :=
  match select_stat stat with
  | None =>
      Ok ({| objects := objects p;
             player_record_mapping := player_record_mapping p;
             abHeap := abHeap p; hitsHeap := hitsHeap p;
             rbiHeap := rbiHeap p; avgHeap := avgHeap p;
             stdout := stdout p ++ ["not valid"%string] |}, None)
  | Some a =>
      let theHeap := get_heap p a in
      let size := Z.min k (PyList.len (heap theHeap)) in
      do r <- extract_many (Z.to_nat size) (objects p) theHeap [] in
      do h' <- insert_all (objects p) (snd r) (fst r) in
      Ok (set_heap p a h', Some (fst r))
  end.

(** States of the tracker between calls of its public operations. *)
Inductive reachable : Problem -> Prop :=
  | reach_init : reachable Problem_init
  | reach_new_at_bat p name h r p' :
      reachable p -> new_at_bat p name h r = Ok p' -> reachable p'
  | reach_current_stats p name p' l :
      reachable p -> current_stats p name = Ok (p', l) -> reachable p'
  | reach_current_best p stat k p' out :
      reachable p -> current_best p stat k = Ok (p', out) -> reachable p'.

(** ** Predicates used by the statements *)

(** Every index stored in a mapping lies in [[0, N)]. *)
Definition bounded (N : Z) (m : gmap (option string) Z) : Prop :=
  map_Forall (fun _ i => 0 <= i < N) m.

(** What an operation may do to the bookkeeping of a heap: the sorting key
    stays, no mapping entry disappears, and indices stay below [N]. *)
Definition mapping_le (N : Z) (h h' : Heap) : Prop :=
  sorting_key h' = sorting_key h /\
  (forall k, is_Some (mapping h !! k) -> is_Some (mapping h' !! k)) /\
  (bounded N (mapping h) -> bounded N (mapping h')).

(** What a sift does to a heap: it permutes the array and keeps the
    bookkeeping within the bounds of the array. *)
Definition sifted (h h' : Heap) : Prop :=
  heap h' ≡ₚ heap h /\
  forall N, PyList.len (heap h) <= N -> mapping_le N h h'.

(** The state of one heap of the tracker, relative to the record map
    [prm]: the array holds each record of the map once and nothing else,
    every stored index is an index of the array, and every tracked player
    has a mapping entry. *)
Definition heap_inv (prm : gmap string loc) (h : Heap) : Prop :=
  NoDup (heap h) /\
  (forall l, l ∈ heap h <-> exists name, prm !! name = Some l) /\
  bounded (PyList.len (heap h)) (mapping h) /\
  (forall name l, prm !! name = Some l -> is_Some (mapping h !! Some name)).

(** The record map refers to allocated records, filed under their own
    name, with at least one at-bat. *)
Definition records_inv (st : list PlayerRecord) (prm : gmap string loc)
  : Prop :=
  forall name l, prm !! name = Some l ->
    (l < length st)%nat /\
    player (deref st l) = Some name /\
    1 <= ab (deref st l).

Definition Inv (p : Problem) : Prop :=
  records_inv (objects p) (player_record_mapping p) /\
  forall a, heap_inv (player_record_mapping p) (get_heap p a) /\
            sorting_key (get_heap p a) = a.

(** The identities held by an array of record references. *)
Definition identities (st : list PlayerRecord) (l : list loc)
  : list (option string) :=
  (fun x => player (deref st x)) <$> l.

(** A driver session used in the examples: two players with one hit each,
    a top-1 query on the average, then a hitless at-bat of the second
    player. *)
Definition session_two_players : result Problem :=
  do p1 <- new_at_bat Problem_init "A" 1 0 in
  new_at_bat p1 "B" 1 0.

Definition session_after_query : result Problem :=
  do p2 <- session_two_players in
  do r <- current_best p2 "avg" 1 in
  Ok (fst r).

Definition session_after_update : result Problem :=
  do p3 <- session_after_query in
  new_at_bat p3 "B" 0 0.


(** The state a session ends in ([Problem_init] stands in for a session
    that raised, which none of the sessions above does). *)
Definition final_state (session : result Problem) : Problem :=
  match session with
  | Ok p => p
  | _ => Problem_init
  end.

(** The key held at slot [i] of the array. *)
Definition key_at (st : list PlayerRecord) (h : Heap) (i : Z) : Q :=
  key_of st h (heap h !!! Z.to_nat i).

(** The max-heap invariant: the key at every index other than the root is
    at most the key at its parent [(i - 1) / 2]. It is what [validate_heap]
    decides, see [validate_heap_spec]. *)
Definition heap_ordered (st : list PlayerRecord) (h : Heap) : Prop :=
  forall i, 1 <= i < PyList.len (heap h) ->
    (key_at st h i <= key_at st h ((i - 1) / 2))%Q.

(** The invariant with a hole at [p]: the children of [p] are not compared
    with [p] but with the parent of [p]. This is what holds while the
    element at [p] is being sifted down. *)
Definition ordered_but (st : list PlayerRecord) (h : Heap) (p : Z) : Prop :=
  (forall i, 1 <= i < PyList.len (heap h) -> (i - 1) / 2 <> p ->
     (key_at st h i <= key_at st h ((i - 1) / 2))%Q) /\
  (1 <= p -> forall i, 1 <= i < PyList.len (heap h) -> (i - 1) / 2 = p ->
     (key_at st h i <= key_at st h ((p - 1) / 2))%Q).

(** [c] holds a largest key among the children of [p]. *)
Definition largest_child (st : list PlayerRecord) (h : Heap) (p c : Z)
  : Prop :=
  (c = 2 * p + 1 \/ c = 2 * p + 2) /\ c < PyList.len (heap h) /\
  forall i, 1 <= i < PyList.len (heap h) -> (i - 1) / 2 = p ->
    (key_at st h i <= key_at st h c)%Q.

(** Records listed in non-increasing order of the key of heap [h]. *)
Definition descending (st : list PlayerRecord) (h : Heap) (xs : list loc)
  : Prop :=
  StronglySorted (fun x y => (key_of st h y <= key_of st h x)%Q) xs.

(** Steps the loop of [heapify_down] can still take from index [p] of an
    array of [n] slots. *)
Definition down_measure (n p : Z) : Z :=
  if 0 <=? p then n - p else if p =? -1 then n + 1 else n + p + 1.

Global Instance Q_inhabited : Inhabited Q := populate 0%Q.

(** The number of indices below [n] in the subtree rooted at [p]: the
    iterations [validate_heap] spends on that subtree. [g] bounds the
    depth. *)
Fixpoint subtree_size (g : nat) (n p : Z) : nat :=
  match g with
  | O => O
  | S g' =>
      if p <? n
      then S (subtree_size g' n (2 * p + 1) + subtree_size g' n (2 * p + 2))
      else O
  end.

(** No key in the subtree rooted at [p] exceeds the key of its parent. *)
Fixpoint subtree_ordered (g : nat) (ks : list Q) (p : Z) : bool :=
  match g with
  | O => true
  | S g' =>
      let ok (c : Z) :=
        if c <? PyList.len ks
        then negb (key_lt (ks !!! Z.to_nat p) (ks !!! Z.to_nat c))
             && subtree_ordered g' ks c
        else true in
      ok (2 * p + 1) && ok (2 * p + 2)
  end.

(** The invariant with a hole above [c]: the element at [c] is not
    compared with its parent, and the children of [c] are at most the
    parent of [c]. This is what holds while the element at [c] is being
    sifted up. *)
Definition ordered_up (st : list PlayerRecord) (h : Heap) (c : Z) : Prop :=
  (forall i, 1 <= i < PyList.len (heap h) -> i <> c ->
     (key_at st h i <= key_at st h ((i - 1) / 2))%Q) /\
  (1 <= c -> forall i, 1 <= i < PyList.len (heap h) -> (i - 1) / 2 = c ->
     (key_at st h i <= key_at st h ((c - 1) / 2))%Q).

(** The identity of the record at slot [i] of the array. *)
Definition player_at (st : list PlayerRecord) (h : Heap) (i : Z)
  : option string :=
  player (deref st (heap h !!! Z.to_nat i)).

(** The mapping is right for every slot from [s] on: it sends the identity
    held at slot [i] to [i]. With [s = 0] this is the consistency of the
    whole mapping; with [s = 1] the entry of the root is left open. *)
Definition consistent_from (s : Z) (st : list PlayerRecord) (h : Heap)
  : Prop :=
  forall i, s <= i < PyList.len (heap h) ->
    mapping h !! player_at st h i = Some i.

(** No two slots of the array hold the same identity. *)
Definition distinct_players (st : list PlayerRecord) (h : Heap) : Prop :=
  NoDup (identities st (heap h)).

(** States reached by sessions whose observations satisfy [obs] (on the
    hits and rbi passed to [new_at_bat]) and whose top-k queries satisfy
    [qry] (on the attribute name and [k] passed to [current_best]). *)
Inductive reachable_by (obs : Z -> Z -> Prop) (qry : string -> Z -> Prop)
  : Problem -> Prop :=
  | rb_init : reachable_by obs qry Problem_init
  | rb_new_at_bat p name h r p' :
      reachable_by obs qry p -> obs h r ->
      new_at_bat p name h r = Ok p' -> reachable_by obs qry p'
  | rb_current_stats p name p' l :
      reachable_by obs qry p ->
      current_stats p name = Ok (p', l) -> reachable_by obs qry p'
  | rb_current_best p stat k p' out :
      reachable_by obs qry p -> qry stat k ->
      current_best p stat k = Ok (p', out) -> reachable_by obs qry p'.

(** No query extracts from the heap of attribute [a]. *)
Definition never_queried (a : attr) (qry : string -> Z -> Prop) : Prop :=
  forall stat k, qry stat k -> select_stat stat <> Some a \/ k <= 0.

(** The sessions in which [new_at_bat] sifts the heap of attribute [a] in
    the direction its key moved: at-bats only grow; hits and rbi grow when
    the observed amounts are not negative; the average falls on a hitless
    at-bat and does not fall on a single hit, and its sift down needs the
    mapping entry of the root, which a query on that heap can spoil. *)
Definition sifted_right (a : attr) (obs : Z -> Z -> Prop)
    (qry : string -> Z -> Prop) : Prop :=
  match a with
  | Ab => True
  | Hits => forall h r, obs h r -> 0 <= h
  | Rbi => forall h r, obs h r -> 0 <= r
  | Avg => (forall h r, obs h r -> h = 0 \/ h = 1) /\ never_queried Avg qry
  end.

Definition session_inv (obs : Z -> Z -> Prop) (qry : string -> Z -> Prop)
    (p : Problem) : Prop :=
  Inv p /\
  (forall name l, player_record_mapping p !! name = Some l ->
     avg (deref (objects p) l)
     = float_div (hits (deref (objects p) l)) (ab (deref (objects p) l))) /\
  ((forall h r, obs h r -> h = 0 \/ h = 1) ->
   forall name l, player_record_mapping p !! name = Some l ->
     0 <= hits (deref (objects p) l) <= ab (deref (objects p) l)) /\
  forall a,
    consistent_from 1 (objects p) (get_heap p a) /\
    (never_queried a qry -> consistent_from 0 (objects p) (get_heap p a)) /\
    (sifted_right a obs qry -> heap_ordered (objects p) (get_heap p a)).

(** A call that returned, or raised [IndexError] and nothing else. *)
Definition index_error_only {A : Type} (r : result A) : Prop :=
  match r with
  | Ok _ => True
  | Raise e => e = IndexError
  | OutOfFuel => False
  end.

(** A store of three records and an ordered heap on their at-bats, with a
    consistent mapping, used in the examples. *)
Definition example_store : list PlayerRecord :=
  [PlayerRecord_init (Some "A"%string) 2 1 0;
   PlayerRecord_init (Some "B"%string) 1 1 0;
   PlayerRecord_init (Some "C"%string) 3 0 0;
   PlayerRecord_init (Some "D"%string) 5 2 1].

Definition example_heap : Heap :=
  {| heap := [2%nat; 0%nat; 1%nat];
     mapping := <[Some "C"%string := 0]>
                  (<[Some "A"%string := 1]>
                     (<[Some "B"%string := 2]> ∅));
     sorting_key := Ab |}.

(** ** The driver *)

(** [str.strip()] removes the characters for which C's [isspace] holds;
    without a locale set these are the space and the characters 9 to 13. *)
Definition isspace (c : Ascii.ascii) : bool :=
  let n := Ascii.nat_of_ascii c in
  Nat.eqb n 32 || (Nat.leb 9 n && Nat.leb n 13).

Fixpoint lstrip (s : string) : string :=
  match s with
  | EmptyString => EmptyString
  | String c s' => if isspace c then lstrip s' else s
  end.

Fixpoint rstrip (s : string) : string :=
  match s with
  | EmptyString => EmptyString
  | String c s' =>
      match rstrip s' with
      | EmptyString => if isspace c then EmptyString
                       else String c EmptyString
      | r => String c r
      end
  end.

(** [s.strip()] *)
Definition strip (s : string) : string := rstrip (lstrip s).

(** [s.split(sep)] for a separator of one character. *)
Fixpoint split (sep : Ascii.ascii) (s : string) : list string :=
  match s with
  | EmptyString => [EmptyString]
  | String c s' =>
      if Ascii.eqb c sep then EmptyString :: split sep s'
      else
        match split sep s' with
        | tok :: rest => String c tok :: rest
        | [] => [String c EmptyString]
        end
  end.

(** The tab character, ['\t']. *)
Definition tab : Ascii.ascii := Ascii.ascii_of_nat 9.

(** The tuple [(stat.player, stat.ab, stat.hits, stat.avg, stat.rbi)]. *)
Definition stat_tuple : Type := (option string * Z * Z * Q * Z)%type.

Definition snapshot (st : list PlayerRecord) (l : loc) : stat_tuple :=
  (player (deref st l), ab (deref st l), hits (deref st l),
   avg (deref st l), rbi (deref st l)).

(** What [run_from_list] appends to [results]: [('cs', tuple)] or
    [(('cb', heap_name), list of tuples)]. *)
Inductive result_item : Type :=
  | RCs (val : stat_tuple)
  | RCb (heap_name : string) (val : list stat_tuple).

(** [print s] *)
Definition print (p : Problem) (s : string) : Problem :=
  {| objects := objects p;
     player_record_mapping := player_record_mapping p;
     abHeap := abHeap p; hitsHeap := hitsHeap p;
     rbiHeap := rbiHeap p; avgHeap := avgHeap p;
     stdout := stdout p ++ [s] |}.

(** The comprehension over [cb] (lines 388-390); an element [None] has
    no attribute [player]. *)
Fixpoint transform (st : list PlayerRecord) (cb : list (option loc))
  : result (list stat_tuple) :=
  match cb with
  | [] => Ok []
  | None :: _ => Raise AttributeError
  | Some stat :: rest =>
      do ts <- transform st rest in
      Ok (snapshot st stat :: ts)
  end.

Section Driver.
(** Two builtins are taken as they come: [int] on a string, and the
    formatting [PlayerRecord.__repr__] does with [%]. *)
Variable int : string -> result Z.
Variable repr : PlayerRecord -> string.

(** What [print cb] writes for a list of records. *)
Definition repr_list (st : list PlayerRecord) (cb : list (option loc))
  : string :=
  ("[" ++ String.concat ", "
            (map (fun o => match o with
                           | Some l => repr (deref st l)
                           | None => "None"
                           end) cb) ++ "]")%string.

(** The body of the loop of [run_from_list] (lines 365-393). *)
Definition run_line (debug : bool) (problem : Problem)
    (results : list result_item) (line : string)
  : result (Problem * list result_item) :=
  let line := strip line in
  let tokens := split tab line in
  do operation_type <- PyList.getitem tokens 0 in
  if String.eqb operation_type "n" then
    do player <- PyList.getitem tokens 1 in
    do t2 <- PyList.getitem tokens 2 in
    do hits <- int t2 in
    do t3 <- PyList.getitem tokens 3 in
    do rbi <- int t3 in
    do problem' <- new_at_bat problem player hits rbi in
    Ok (problem', results)
  else if String.eqb operation_type "cs" then
    do player <- PyList.getitem tokens 1 in
    do r <- current_stats problem player in
    let results' :=
      PyList.append results (RCs (snapshot (objects (fst r)) (snd r))) in
    Ok (if debug then print (fst r) (repr (deref (objects (fst r)) (snd r)))
        else fst r,
        results')
  else if String.eqb operation_type "cb" then
    do heap_name <- PyList.getitem tokens 1 in
    do t2 <- PyList.getitem tokens 2 in
    do k <- int t2 in
    do r <- current_best problem heap_name k in
    match snd r with
    | None => Raise TypeError
    | Some cb =>
        do transformed_cb <- transform (objects (fst r)) cb in
        let results' :=
          PyList.append results (RCb heap_name transformed_cb) in
        Ok (if debug then print (fst r) (repr_list (objects (fst r)) cb)
            else fst r,
            results')
    end
  else Ok (problem, results).

(** The loop of [run_from_list]. *)
Fixpoint run_lines (debug : bool) (problem : Problem)
    (results : list result_item) (line_list : list string)
  : result (Problem * list result_item) :=
  match line_list with
  | [] => Ok (problem, results)
  | line :: rest =>
      do r <- run_line debug problem results line in
      run_lines debug (fst r) (snd r) rest
  end.

(** [run_from_list] *)
Definition run_from_list (line_list : list string) (debug : bool)
  : result (list result_item) :=
  do r <- run_lines debug Problem_init [] line_list in
  Ok (snd r).
End Driver.

(** A Python value found in a processed result. *)
Inductive pyvalue : Type :=
  | VNone
  | VStr (s : string)
  | VInt (z : Z)
  | VFloat (q : Q).

Definition tuple_values (t : stat_tuple) : list pyvalue :=
  match t with
  | (pl, a, h, av, r) =>
      [match pl with Some s => VStr s | None => VNone end;
       VInt a; VInt h; VFloat av; VInt r]
  end.

(** The dict [MAPPING] of [process_results]. *)
Definition MAPPING : gmap string Z :=
  <["player"%string := 0]>
    (<["ab"%string := 1]>
       (<["hits"%string := 2]>
          (<["avg"%string := 3]> (<["rbi"%string := 4]> ∅)))).

(** What [process_results] appends: the tuple of a ['cs'] result, or the
    list of one column of a ['cb'] result. *)
Inductive processed : Type :=
  | PTuple (val : stat_tuple)
  | PList (processed_list : list pyvalue).

(** [[element[MAPPING[heap_name]] for element in val]] *)
Fixpoint process_list (heap_name : string) (val : list stat_tuple)
  : result (list pyvalue) :=
  match val with
  | [] => Ok []
  | element :: rest =>
      do idx <- dict_getitem MAPPING heap_name in
      do v <- PyList.getitem (tuple_values element) idx in
      do vs <- process_list heap_name rest in
      Ok (v :: vs)
  end.

(** [process_results] *)
Fixpoint process_results (results : list result_item)
  : result (list processed) :=
  match results with
  | [] => Ok []
  | result :: rest =>
      do item <- match result with
                 | RCs val => Ok (PTuple val)
                 | RCb heap_name val =>
                     do processed_list <- process_list heap_name val in
                     Ok (PList processed_list)
                 end in
      do items <- process_results rest in
      Ok (item :: items)
  end.

(** A stand-in for [int] in the examples: it reads an unsigned decimal
    numeral. The statements below hold for every [int]. *)
Fixpoint digits_value (acc : Z) (s : string) : option Z :=
  match s with
  | EmptyString => Some acc
  | String c s' =>
      let n := Ascii.nat_of_ascii c in
      if Nat.leb 48 n && Nat.leb n 57
      then digits_value (10 * acc + Z.of_nat (n - 48)) s'
      else None
  end.

Definition example_int (s : string) : result Z :=
  match s with
  | EmptyString => Raise TypeError
  | _ => match digits_value 0 s with
         | Some z => Ok z
         | None => Raise TypeError
         end
  end.

Definition example_repr (r : PlayerRecord) : string :=
  match player r with Some s => s | None => "None"%string end.


(** Whether a line is a [cs] or a [cb] line. *)
Definition is_query (line : string) : bool :=
  let operation_type := hd ""%string (split tab (strip line)) in
  String.eqb operation_type "cs" || String.eqb operation_type "cb".

(** The field of a tuple that holds the statistic [a]. *)
Definition column (a : attr) (t : stat_tuple) : pyvalue :=
  match t with
  | (_, ab_, hits_, avg_, rbi_) =>
      match a with
      | Ab => VInt ab_
      | Hits => VInt hits_
      | Rbi => VInt rbi_
      | Avg => VFloat avg_
      end
  end.

(** A processed result beside the result it comes from: the tuple of a
    [cs] result as it is, the column of the statistic asked for of a [cb]
    result. *)
Definition processed_of (r : result_item) (x : processed) : Prop :=
  match r, x with
  | RCs val, PTuple t => t = val
  | RCb heap_name val, PList l =>
      exists a, select_stat heap_name = Some a /\ l = map (column a) val
  | _, _ => False
  end.

(** Every [cb] result is for one of the four statistics. *)
Definition known_stats (results : list result_item) : Prop :=
  Forall (fun r => match r with
                   | RCs _ => True
                   | RCb heap_name _ => is_Some (select_stat heap_name)
                   end) results.

(** The lines of the example of the file's header, then the two queries
    [cs B] and [cb avg 5], as the driver reads them. *)
Definition field (a b : string) : string :=
  (a ++ String tab b)%string.

Definition example_lines : list string :=
  [field "n" (field "A" (field "1" "0"));
   field "n" (field "B" (field "1" "0"));
   field "cb" (field "avg" "1");
   field "n" (field "B" (field "0" "0"));
   ""%string;
   field "cs" "B";
   field "cb" (field "avg" "5")].

(** * Properties *)

Ltac zcases :=
  repeat match goal with
    | |- context [Z.ltb ?a ?b] => destruct (Z.ltb_spec a b)
    | |- context [Z.leb ?a ?b] => destruct (Z.leb_spec a b)
    | |- context [Z.eqb ?a ?b] => destruct (Z.eqb_spec a b)
    end;
  simpl; try lia.

(** ** Python lists *)

Module PyListFacts.
Section facts.
Context {A : Type}.
Implicit Types (l : list A) (i j : Z).

Lemma len_app l x : PyList.len (PyList.append l x) = PyList.len l + 1.
Proof. unfold PyList.len, PyList.append. rewrite length_app. simpl. lia. Qed.

Lemma getitem_nonneg l i x :
0 <= i -> l !! Z.to_nat i = Some x -> PyList.getitem l i = Ok x.
Proof.
intros Hi Hl. pose proof (lookup_lt_Some _ _ _ Hl) as Hlt.
unfold PyList.getitem, PyList.in_range, PyList.norm, PyList.len.
zcases. by rewrite Hl.
Qed.

Lemma getitem_minus_one l x :
last l = Some x -> PyList.getitem l (-1) = Ok x.
Proof.
intros Hl. rewrite last_lookup in Hl.
pose proof (lookup_lt_Some _ _ _ Hl) as Hlt.
unfold PyList.getitem, PyList.in_range, PyList.norm, PyList.len.
zcases.
replace (Z.to_nat (-1 + Z.of_nat (length l))) with (pred (length l))
  by lia.
by rewrite Hl.
Qed.

Lemma getitem_inv l i x :
PyList.getitem l i = Ok x ->
0 <= PyList.norm l i < PyList.len l /\
l !! Z.to_nat (PyList.norm l i) = Some x.
Proof.
unfold PyList.getitem, PyList.in_range.
destruct (Z.leb_spec 0 (PyList.norm l i));
  destruct (Z.ltb_spec (PyList.norm l i) (PyList.len l));
  simpl; try discriminate.
destruct (l !! _) eqn:E; [|discriminate].
intros [= ->]. split; [lia | done].
Qed.

Lemma getitem_same_slot l i j x y :
PyList.getitem l i = Ok x -> PyList.getitem l j = Ok y ->
PyList.norm l i = PyList.norm l j -> x = y.
Proof.
intros [_ Hx]%getitem_inv [_ Hy]%getitem_inv Hn.
rewrite Hn in Hx. congruence.
Qed.

Lemma setitem_nonneg l i x :
0 <= i < PyList.len l ->
PyList.setitem l i x = Ok (<[Z.to_nat i := x]> l).
Proof.
intros Hi. unfold PyList.setitem, PyList.in_range, PyList.norm.
unfold PyList.len in *. zcases. reflexivity.
Qed.

Lemma pop_last l x :
PyList.pop (l ++ [x]) (PyList.len (l ++ [x]) - 1) = Ok (x, l).
Proof.
unfold PyList.pop, PyList.in_range, PyList.norm, PyList.len.
rewrite length_app. simpl. zcases.
replace (Z.to_nat (Z.of_nat (length l + 1) - 1)) with (length l) by lia.
rewrite list_lookup_middle by done.
rewrite take_app_length, drop_ge by (rewrite length_app; simpl; lia).
by rewrite app_nil_r.
Qed.

(** Exchanging two slots permutes the list. *)
Lemma swap_Permutation l (a b : nat) x y :
l !! a = Some x -> l !! b = Some y ->
<[b := x]> (<[a := y]> l) ≡ₚ l.
Proof.
intros Ha Hb.
pose proof (lookup_lt_Some _ _ _ Ha) as Hla.
pose proof (lookup_lt_Some _ _ _ Hb) as Hlb.
apply Permutation_inj. split; [by rewrite !length_insert|].
exists (fun n => if decide (n = a) then b
                 else if decide (n = b) then a else n).
split.
- intros n m. repeat case_decide; lia.
- intros n. simpl.
  destruct (decide (n = a)) as [->|Hna].
  + destruct (decide (a = b)) as [->|Hab].
    * rewrite list_lookup_insert_eq by (rewrite length_insert; lia).
      congruence.
    * rewrite list_lookup_insert_ne by done.
      rewrite list_lookup_insert_eq by lia. by rewrite Hb.
  + destruct (decide (n = b)) as [->|Hnb].
    * rewrite list_lookup_insert_eq by (rewrite length_insert; lia).
      by rewrite Ha.
    * by rewrite !list_lookup_insert_ne.
Qed.
End facts.
End PyListFacts.

(** ** Sifting keeps the array a permutation and the mapping in range *)

Section sift.
Implicit Types (st : list PlayerRecord) (h : Heap).

Lemma mapping_le_refl (N : Z) h : mapping_le N h h.
Proof. unfold mapping_le. auto. Qed.

Lemma mapping_le_trans (N : Z) h1 h2 h3 :
  mapping_le N h1 h2 -> mapping_le N h2 h3 -> mapping_le N h1 h3.
Proof.
  intros (Hk1 & Hd1 & Hb1) (Hk2 & Hd2 & Hb2).
  split; [congruence|]. split; auto.
Qed.

Lemma sifted_refl h : sifted h h.
Proof. split; [done | intros; apply mapping_le_refl]. Qed.

Lemma sifted_len h h' : sifted h h' -> PyList.len (heap h') = PyList.len (heap h).
Proof. intros [Hp _]. unfold PyList.len. by rewrite Hp. Qed.

Lemma sifted_trans h1 h2 h3 : sifted h1 h2 -> sifted h2 h3 -> sifted h1 h3.
Proof.
  intros H12 H23. pose proof (sifted_len _ _ H12) as Hlen.
  destruct H12 as [Hp1 Hm1], H23 as [Hp2 Hm2]. split.
  - by rewrite Hp2.
  - intros N HN. eapply mapping_le_trans; [by apply Hm1|].
    apply Hm2. lia.
Qed.

Lemma bounded_insert (N : Z) (m : gmap (option string) Z) k (i : Z) :
  0 <= i < N -> bounded N m -> bounded N (<[k := i]> m).
Proof. intros Hi Hm. by apply map_Forall_insert_2. Qed.

Lemma is_Some_insert (m : gmap (option string) Z) k k' (i : Z) :
  is_Some (m !! k) -> is_Some (<[k' := i]> m !! k).
Proof. intros Hk. rewrite lookup_insert_is_Some. destruct (decide (k' = k)); auto. Qed.

Lemma parent_bounds c : 1 <= c -> 0 <= (c - 1) / 2 < c.
Proof.
  intros Hc. split; [apply Z.div_pos; lia|].
  apply Z.div_lt_upper_bound; lia.
Qed.

Lemma lookup_index (l : list loc) i :
  0 <= i < PyList.len l -> exists x, l !! Z.to_nat i = Some x.
Proof.
  intros Hi. apply lookup_lt_is_Some_2. unfold PyList.len in Hi. lia.
Qed.

Lemma swap_step_nonneg st h i j x y :
  0 <= i -> 0 <= j ->
  heap h !! Z.to_nat i = Some x -> heap h !! Z.to_nat j = Some y ->
  swap_step st h i j =
    Ok {| heap := <[Z.to_nat j := x]> (<[Z.to_nat i := y]> (heap h));
          mapping := <[player (deref st y) := i]>
                       (<[player (deref st x) := j]> (mapping h));
          sorting_key := sorting_key h |}.
Proof.
  intros Hi Hj Hx Hy. unfold swap_step.
  pose proof (lookup_lt_Some _ _ _ Hx) as Hlx.
  pose proof (lookup_lt_Some _ _ _ Hy) as Hly.
  rewrite !(PyListFacts.getitem_nonneg _ i x) by done. simpl.
  rewrite !(PyListFacts.getitem_nonneg _ j y) by done. simpl.
  rewrite PyListFacts.setitem_nonneg by (unfold PyList.len; lia). simpl.
  rewrite PyListFacts.setitem_nonneg
    by (unfold PyList.len; rewrite length_insert; lia).
  done.
Qed.

Lemma swap_step_sifted st h i j :
  0 <= i < PyList.len (heap h) -> 0 <= j < PyList.len (heap h) ->
  exists h', swap_step st h i j = Ok h' /\ sifted h h'.
Proof.
  intros Hi Hj.
  destruct (lookup_index _ _ Hi) as [x Hx].
  destruct (lookup_index _ _ Hj) as [y Hy].
  eexists. split; [by apply swap_step_nonneg; try lia|].
  split; simpl.
  - by apply PyListFacts.swap_Permutation.
  - intros N HN. split; [done|]. split; simpl.
    + intros k Hk. by do 2 apply is_Some_insert.
    + intros Hb. do 2 (apply bounded_insert; [lia|]). done.
Qed.

Lemma heapify_up_loop_sifted fuel : forall st h c,
  0 <= c < PyList.len (heap h) -> (Z.to_nat c < fuel)%nat ->
  exists h', heapify_up_loop fuel st h ((c - 1) / 2) c = Ok h' /\
             sifted h h'.
Proof.
  induction fuel as [|fuel IH]; intros st h c Hc Hfuel; [lia|].
  simpl. destruct (lookup_index _ _ Hc) as [y Hy].
  destruct (decide (c = 0)) as [->|Hc0].
  - change ((0 - 1) / 2) with (-1).
    destruct (last (heap h)) as [x|] eqn:Hlast.
    2:{ apply last_None in Hlast. rewrite Hlast in Hy. done. }
    rewrite (PyListFacts.getitem_minus_one _ x) by done. simpl.
    rewrite (PyListFacts.getitem_nonneg _ 0 y) by done. simpl.
    exists h. split; [|apply sifted_refl].
    by destruct (key_lt _ _).
  - pose proof (parent_bounds c ltac:(lia)) as Hp.
    assert (0 <= (c - 1) / 2 < PyList.len (heap h)) as Hp' by lia.
    destruct (lookup_index _ _ Hp') as [x Hx].
    rewrite (PyListFacts.getitem_nonneg _ _ x) by (done || lia). simpl.
    rewrite (PyListFacts.getitem_nonneg _ c y) by (done || lia). simpl.
    destruct (key_lt _ _); [|exists h; split; [done|apply sifted_refl]].
    destruct (Z.eqb_spec ((c - 1) / 2) (-1)) as [E|_]; [lia|].
    destruct (swap_step_sifted st h _ c Hp' Hc) as (h1 & -> & Hs1). simpl.
    destruct (IH st h1 ((c - 1) / 2)) as (h2 & Hh2 & Hs2).
    { rewrite (sifted_len _ _ Hs1). lia. }
    { lia. }
    exists h2. split; [done|]. by eapply sifted_trans.
Qed.

(** [heapify_up] on an index of the array returns, whatever the keys. *)
Lemma heapify_up_sifted st h c :
  0 <= c < PyList.len (heap h) ->
  exists h', heapify_up st h c = Ok h' /\ sifted h h'.
Proof. intros Hc. apply heapify_up_loop_sifted; [done | lia]. Qed.

Lemma pick_child_nonneg st h p :
  0 <= p ->
  (pick_child st h p = Ok None /\ PyList.len (heap h) <= 2 * p + 1) \/
  (exists c, pick_child st h p = Ok (Some c) /\
             (c = 2 * p + 1 \/ c = 2 * p + 2) /\
             c < PyList.len (heap h)).
Proof.
  intros Hp. unfold pick_child.
  destruct (Z.leb_spec (PyList.len (heap h)) (p * 2 + 1)); [left; split; [done|lia]|].
  right.
  destruct (Z.leb_spec (PyList.len (heap h)) (p * 2 + 2)).
  { exists (p * 2 + 1). split; [done|lia]. }
  destruct (lookup_index (heap h) (p * 2 + 1) ltac:(lia)) as [x Hx].
  destruct (lookup_index (heap h) (p * 2 + 2) ltac:(lia)) as [y Hy].
  rewrite (PyListFacts.getitem_nonneg _ _ x) by (done || lia). simpl.
  rewrite (PyListFacts.getitem_nonneg _ _ y) by (done || lia). simpl.
  destruct (key_lt _ _); eexists; (split; [done|lia]).
Qed.

Lemma heapify_down_loop_sifted fuel : forall st h p c,
  0 <= p < c -> c < PyList.len (heap h) ->
  PyList.len (heap h) - p <= Z.of_nat fuel ->
  exists h', heapify_down_loop fuel st h p c = Ok h' /\ sifted h h'.
Proof.
  induction fuel as [|fuel IH]; intros st h p c Hp Hc Hfuel; [lia|].
  simpl.
  destruct (lookup_index (heap h) p ltac:(lia)) as [x Hx].
  destruct (lookup_index (heap h) c ltac:(lia)) as [y Hy].
  rewrite (PyListFacts.getitem_nonneg _ _ x) by (done || lia). simpl.
  rewrite (PyListFacts.getitem_nonneg _ _ y) by (done || lia). simpl.
  destruct (key_lt _ _); [|exists h; split; [done|apply sifted_refl]].
  destruct (Z.leb_spec (PyList.len (heap h)) c); [lia|].
  destruct (swap_step_sifted st h p c ltac:(lia) ltac:(lia))
    as (h1 & -> & Hs1). simpl.
  pose proof (sifted_len _ _ Hs1) as Hlen.
  destruct (pick_child_nonneg st h1 c ltac:(lia))
    as [[-> _]|(c' & -> & Hc' & Hlt)]; simpl.
  - by exists h1.
  - destruct (IH st h1 c c') as (h2 & Hh2 & Hs2); [lia..|].
    exists h2. split; [done|]. by eapply sifted_trans.
Qed.

(** [heapify_down] on a non-negative index returns, whatever the keys. *)
Lemma heapify_down_sifted st h p :
  0 <= p -> exists h', heapify_down st h p = Ok h' /\ sifted h h'.
Proof.
  intros Hp. unfold heapify_down.
  destruct (pick_child_nonneg st h p Hp)
    as [[-> _]|(c & -> & Hc & Hlt)]; cbn [bind].
  - exists h. split; [done|apply sifted_refl].
  - apply heapify_down_loop_sifted; unfold PyList.len in *; lia.
Qed.
End sift.

(** ** [insert] and [extract_max] *)

Section heap_ops.
Implicit Types (st : list PlayerRecord) (h : Heap).

(** [insert] always returns: the element is appended, its mapping entry
    set, and the array sifted. *)
Lemma insert_spec st h l :
  exists h', insert st h l = Ok h' /\
    heap h' ≡ₚ heap h ++ [l] /\
    is_Some (mapping h' !! player (deref st l)) /\
    forall N, PyList.len (heap h) + 1 <= N -> mapping_le N h h'.
Proof.
  unfold insert.
  remember {| heap := PyList.append (heap h) l;
              mapping := <[player (deref st l) :=
                             PyList.len (PyList.append (heap h) l) - 1]>
                           (mapping h);
              sorting_key := sorting_key h |} as h1 eqn:Eh1.
  assert (PyList.len (heap h1) = PyList.len (heap h) + 1) as Hlen
    by (subst h1; apply PyListFacts.len_app).
  pose proof (PyListFacts.len_app (heap h) l) as Hlen'.
  rewrite Hlen'. replace (PyList.len (heap h) + 1) with (PyList.len (heap h1)) by done.
  destruct (heapify_up_sifted st h1 (PyList.len (heap h1) - 1))
    as (h' & Hh' & Hp & Hm).
  { unfold PyList.len in *. lia. }
  exists h'. split; [done|]. split; [by rewrite Hp, Eh1|].
  destruct (Hm _ (Z.le_refl _)) as (_ & Hdom & _).
  split.
  { apply Hdom. subst h1. simpl. rewrite lookup_insert_eq. eauto. }
  intros N HN. eapply mapping_le_trans; [|apply Hm; lia].
  split; [by subst h1|]. split; subst h1; simpl.
  - intros k Hk. by apply is_Some_insert.
  - intros Hb. apply bounded_insert; [|done].
    unfold PyList.len in *. lia.
Qed.

Lemma extract_max_nil st h :
  heap h = [] -> extract_max st h = Ok (None, h).
Proof. intros E. unfold extract_max. by rewrite E. Qed.

(** On a non-empty array [extract_max] moves the last element to the
    root, drops the old root and sifts the new root down. *)
Lemma extract_max_unfold st h x r :
  heap h = x :: r ->
  extract_max st h =
    (do h' <- heapify_down st
                {| heap := match last r with
                           | Some z => z :: removelast r
                           | None => []
                           end;
                   mapping := mapping h;
                   sorting_key := sorting_key h |} 0
     in Ok (Some x, h')).
Proof.
  intros E. unfold extract_max. rewrite E.
  destruct (decide (r = [])) as [->|Hr]; [done|].
  destruct (exists_last Hr) as (r' & z & ->).
  rewrite last_snoc, removelast_last.
  destruct (Z.ltb_spec (PyList.len (x :: r' ++ [z])) 1) as [Hbad|_];
    [unfold PyList.len in Hbad; simpl in Hbad; lia|].
  rewrite (PyListFacts.getitem_nonneg _ 0 x) by done. cbn [bind].
  rewrite (PyListFacts.getitem_nonneg _ _ z).
  2:{ unfold PyList.len. rewrite length_cons. lia. }
  2:{ replace (Z.to_nat _) with (length (x :: r')).
      - by rewrite (list_lookup_middle (x :: r') [] z).
      - unfold PyList.len. simpl. rewrite length_app. simpl. lia. }
  cbn [bind].
  rewrite PyListFacts.setitem_nonneg by (unfold PyList.len; simpl; lia).
  cbn [bind]. change (<[Z.to_nat 0 := z]> (x :: r' ++ [z]))
    with ((z :: r') ++ [z]).
  rewrite PyListFacts.setitem_nonneg
    by (unfold PyList.len; rewrite length_app; simpl; lia).
  cbn [bind].
  replace (Z.to_nat (PyList.len ((z :: r') ++ [z]) - 1))
    with (length (z :: r') + 0)%nat
    by (unfold PyList.len; rewrite length_app; simpl; lia).
  rewrite insert_app_r. cbn [insert list_insert].
  change (<[0%nat := x]> [z]) with [x].
  rewrite PyListFacts.pop_last. done.
Qed.

Lemma extract_max_spec st h x r :
  heap h = x :: r ->
  exists h', extract_max st h = Ok (Some x, h') /\
    heap h' ≡ₚ r /\
    forall N, PyList.len (heap h) <= N -> mapping_le N h h'.
Proof.
  intros E. rewrite (extract_max_unfold st h x r E).
  set (h1 := {| heap := _; mapping := _; sorting_key := _ |}).
  destruct (heapify_down_sifted st h1 0 ltac:(done)) as (h' & -> & Hp & Hm).
  exists h'. split; [done|].
  assert (heap h1 ≡ₚ r) as Hr.
  { subst h1. simpl. destruct (decide (r = [])) as [->|Hr]; [done|].
    destruct (exists_last Hr) as (r' & z & ->).
    rewrite last_snoc, removelast_last.
    by rewrite Permutation_cons_append. }
  split; [by rewrite Hp|].
  intros N HN. eapply mapping_le_trans; [|apply Hm].
  - subst h1. unfold mapping_le. simpl. auto.
  - unfold PyList.len in *. rewrite Hr, E in *. simpl in HN. lia.
Qed.

Lemma extract_many_spec n : forall st h out,
  (n <= length (heap h))%nat ->
  exists xs h', extract_many n st h out = Ok (out ++ (Some <$> xs), h') /\
    length xs = n /\
    heap h ≡ₚ xs ++ heap h' /\
    forall N, PyList.len (heap h) <= N -> mapping_le N h h'.
Proof.
  induction n as [|n IH]; intros st h out Hn.
  - exists [], h. simpl. rewrite app_nil_r.
    do 3 (split; [done|]). intros. apply mapping_le_refl.
  - destruct (heap h) as [|x r] eqn:E; [simpl in Hn; lia|].
    destruct (extract_max_spec st h x r E) as (h1 & Hh1 & Hp1 & Hm1).
    simpl. rewrite Hh1. cbn [bind fst snd].
    destruct (IH st h1 (PyList.append out (Some x))) as (xs & h' & -> & Hl & Hp & Hm).
    { rewrite Hp1. simpl in Hn. lia. }
    exists (x :: xs), h'. unfold PyList.append.
    rewrite <- app_assoc. simpl. split; [done|]. split; [by rewrite Hl|].
    split; [by rewrite <- Hp, Hp1|].
    intros N HN. eapply mapping_le_trans.
    + apply Hm1. by rewrite E.
    + apply Hm. unfold PyList.len in *. rewrite Hp1. simpl in HN. lia.
Qed.

Lemma insert_all_spec xs : forall st h,
  exists h', insert_all st h (Some <$> xs) = Ok h' /\
    heap h' ≡ₚ heap h ++ xs /\
    forall N, PyList.len (heap h) + Z.of_nat (length xs) <= N ->
              mapping_le N h h'.
Proof.
  induction xs as [|x xs IH]; intros st h.
  - exists h. simpl. rewrite app_nil_r.
    do 2 (split; [done|]). intros. apply mapping_le_refl.
  - destruct (insert_spec st h x) as (h1 & Hh1 & Hp1 & _ & Hm1).
    rewrite fmap_cons. cbn [insert_all]. rewrite Hh1. cbn [bind].
    destruct (IH st h1) as (h' & -> & Hp & Hm).
    exists h'. split; [done|]. split.
    + rewrite Hp, Hp1, <- app_assoc. done.
    + intros N HN. simpl in HN. eapply mapping_le_trans.
      * apply Hm1. lia.
      * apply Hm. unfold PyList.len in *. rewrite Hp1, length_app.
        simpl. lia.
Qed.
End heap_ops.

(** ** The tracker keeps its invariant *)

Section tracker.
Implicit Types (st : list PlayerRecord) (h : Heap) (p : Problem)
  (prm : gmap string loc).

Lemma heap_inv_perm prm h h' :
  heap_inv prm h -> heap h' ≡ₚ heap h ->
  mapping_le (PyList.len (heap h)) h h' -> heap_inv prm h'.
Proof.
  intros (Hnd & Hin & Hb & Hdom) Hp (_ & Hd & Hbb).
  assert (PyList.len (heap h') = PyList.len (heap h)) as Hlen
    by (unfold PyList.len; by rewrite Hp).
  split; [by rewrite Hp|]. split; [intros l; by rewrite Hp|].
  split; [rewrite Hlen; auto|]. eauto.
Qed.

Lemma heap_inv_sifted prm h h' :
  heap_inv prm h -> sifted h h' -> heap_inv prm h'.
Proof.
  intros Hi [Hp Hm]. eapply heap_inv_perm; [done..|]. by apply Hm.
Qed.

Lemma sift_at_spec sift st prm h name l :
  (forall h c, 0 <= c < PyList.len (heap h) ->
               exists h', sift st h c = Ok h' /\ sifted h h') ->
  heap_inv prm h -> prm !! name = Some l ->
  player (deref st l) = Some name ->
  exists h', sift_at sift st h l = Ok h' /\ heap_inv prm h' /\
             sorting_key h' = sorting_key h.
Proof.
  intros Hsift Hi Hl Hname. unfold sift_at, get_index. rewrite Hname.
  destruct Hi as (Hnd & Hin & Hb & Hdom).
  destruct (Hdom _ _ Hl) as [i Hi]. rewrite Hi.
  destruct (Hsift h i (Hb _ _ Hi)) as (h' & -> & Hs).
  exists h'. split; [done|]. split.
  - by apply (heap_inv_sifted prm h).
  - destruct Hs as [_ Hm]. by destruct (Hm _ (Z.le_refl _)).
Qed.

Lemma insert_heap_inv st prm h name l :
  heap_inv prm h -> prm !! name = None -> l ∉ heap h ->
  player (deref st l) = Some name ->
  exists h', insert st h l = Ok h' /\
             heap_inv (<[name := l]> prm) h' /\
             sorting_key h' = sorting_key h.
Proof.
  intros (Hnd & Hin & Hb & Hdom) Hfresh Hl Hname.
  destruct (insert_spec st h l) as (h' & Hh' & Hp & Hnew & Hm).
  exists h'. split; [done|].
  assert (PyList.len (heap h') = PyList.len (heap h) + 1) as Hlen.
  { unfold PyList.len. rewrite Hp, length_app. simpl. lia. }
  destruct (Hm _ (Z.le_refl _)) as (Hk & Hd & Hbb).
  split; [|done]. split; [|split; [|split]].
  - rewrite Hp. apply NoDup_app. split; [done|]. split.
    + intros x Hx ->%list_elem_of_singleton. done.
    + apply NoDup_singleton.
  - intros x. rewrite Hp, elem_of_app, list_elem_of_singleton, Hin.
    split.
    + intros [[n Hn]| ->].
      * exists n. rewrite lookup_insert_ne; [done|]. congruence.
      * exists name. by rewrite lookup_insert_eq.
    + intros [n Hn]. destruct (decide (name = n)) as [->|Hne].
      * rewrite lookup_insert_eq in Hn. right. congruence.
      * rewrite lookup_insert_ne in Hn by done. eauto.
  - rewrite Hlen. apply Hbb.
    intros k i Hi. specialize (Hb k i Hi). simpl in Hb. lia.
  - intros n x Hn. destruct (decide (name = n)) as [->|Hne].
    + by rewrite <- Hname.
    + rewrite lookup_insert_ne in Hn by done. eauto.
Qed.

Lemma heap_inv_init k : heap_inv ∅ (Heap_init k).
Proof.
  split; [apply NoDup_nil_2|]. split.
  { intros l. simpl. rewrite elem_of_nil. split; [done|].
    intros [name Hn]. by rewrite lookup_empty in Hn. }
  split; [apply map_Forall_empty|].
  intros name l Hl. by rewrite lookup_empty in Hl.
Qed.

Lemma Inv_init : Inv Problem_init.
Proof.
  split.
  - intros name l Hl. simpl in Hl. by rewrite lookup_empty in Hl.
  - intros a. destruct a; (split; [apply heap_inv_init|done]).
Qed.

(** [current_best] on a tracked attribute, in any state: [xs] are the
    extracted records, [h1] the heap between the two loops. *)
Lemma current_best_spec p stat a k :
  select_stat stat = Some a ->
  exists xs h1 h',
    current_best p stat k = Ok (set_heap p a h', Some (Some <$> xs)) /\
    length xs = Z.to_nat (Z.min k (PyList.len (heap (get_heap p a)))) /\
    heap (get_heap p a) ≡ₚ xs ++ heap h1 /\
    heap h' ≡ₚ heap h1 ++ xs /\
    mapping_le (PyList.len (heap (get_heap p a))) (get_heap p a) h'.
Proof.
  intros Hsel. unfold current_best. rewrite Hsel.
  set (h := get_heap p a).
  destruct (extract_many_spec
              (Z.to_nat (Z.min k (PyList.len (heap h)))) (objects p) h [])
    as (xs & h1 & -> & Hlen & Hp1 & Hm1).
  { unfold PyList.len. lia. }
  cbn [bind fst snd app].
  destruct (insert_all_spec xs (objects p) h1) as (h' & -> & Hp2 & Hm2).
  cbn [bind]. exists xs, h1, h'. do 4 (split; [done|]).
  assert (PyList.len (heap h) = PyList.len (heap h1) + Z.of_nat (length xs))
    as Hsum.
  { unfold PyList.len. rewrite Hp1, length_app. lia. }
  eapply mapping_le_trans; [by apply Hm1|]. apply Hm2. lia.
Qed.

Lemma get_set_heap p a b h :
  get_heap (set_heap p a h) b = if decide (a = b) then h else get_heap p b.
Proof. destruct a, b; done. Qed.

Lemma dict_contains_Some {V} (d : gmap string V) key v :
  d !! key = Some v -> dict_contains d key = true.
Proof. intros E. unfold dict_contains. rewrite E. by apply bool_decide_eq_true_2. Qed.

Lemma dict_contains_None {V} (d : gmap string V) key :
  d !! key = None -> dict_contains d key = false.
Proof.
  intros E. unfold dict_contains. rewrite E.
  apply bool_decide_eq_false_2. by intros [? ?].
Qed.

Lemma records_inv_alloc st prm r :
  records_inv st prm ->
  forall name l, prm !! name = Some l ->
    (l < length (st ++ [r]))%nat /\
    player (deref (st ++ [r]) l) = Some name /\
    1 <= ab (deref (st ++ [r]) l).
Proof.
  intros Hr name l Hl. destruct (Hr name l Hl) as (Hlt & Hp & Ha).
  unfold deref in *. rewrite lookup_total_app_l by done.
  rewrite length_app. split; [lia|done].
Qed.

(** An observation for a player already in the record map. *)
Lemma new_at_bat_seen p name l (h r : Z) :
  Inv p -> player_record_mapping p !! name = Some l ->
  exists p', new_at_bat p name h r = Ok p' /\ Inv p' /\
    objects p' =
      <[l := {| player := Some name;
                ab := ab (deref (objects p) l) + 1;
                hits := hits (deref (objects p) l) + h;
                avg := float_div (hits (deref (objects p) l) + h)
                                 (ab (deref (objects p) l) + 1);
                rbi := rbi (deref (objects p) l) + r |}]> (objects p) /\
    player_record_mapping p' = player_record_mapping p /\
    stdout p' = stdout p.
Proof.
  intros [Hrec Hheaps] Hl. destruct (Hrec name l Hl) as (Hlt & Hname & Hab).
  unfold new_at_bat, dict_getitem.
  rewrite (dict_contains_Some _ _ _ Hl), Hl. cbn [bind].
  destruct (Z.eqb_spec (ab (deref (objects p) l) + 1) 0) as [?|_]; [lia|].
  rewrite Hname, (insert_id _ _ _ Hl).
  set (rec' := {| player := Some name; ab := _; hits := _; avg := _;
                  rbi := _ |}).
  set (st := <[l := rec']> (objects p)).
  assert (player (deref st l) = Some name) as Hname'.
  { unfold deref, st. by rewrite list_lookup_total_insert_eq. }
  assert (forall a, exists h',
            sift_at heapify_up st (get_heap p a) l = Ok h' /\
            heap_inv (player_record_mapping p) h' /\
            sorting_key h' = a) as Hup.
  { intros a. destruct (Hheaps a) as [Hi Hk].
    destruct (sift_at_spec heapify_up st _ _ name l
                (heapify_up_sifted st) Hi Hl Hname') as (h' & ? & ? & ?).
    exists h'. split; [done|]. split; [done|congruence]. }
  assert (exists h',
            sift_at heapify_down st (get_heap p Avg) l = Ok h' /\
            heap_inv (player_record_mapping p) h' /\
            sorting_key h' = Avg) as Hdown.
  { destruct (Hheaps Avg) as [Hi Hk].
    destruct (sift_at_spec heapify_down st _ _ name l
                (fun h c Hc => heapify_down_sifted st h c (proj1 Hc))
                Hi Hl Hname') as (h' & ? & ? & ?).
    exists h'. split; [done|]. split; [done|congruence]. }
  destruct (Hup Ab) as (a & Ha & Hia & Hka).
  destruct (Hup Hits) as (hi & Hhi & Hihi & Hkhi).
  destruct (Hup Rbi) as (rb & Hrb & Hirb & Hkrb).
  assert (exists av,
            (if h =? 0 then sift_at heapify_down st (avgHeap p) l
             else sift_at heapify_up st (avgHeap p) l) = Ok av /\
            heap_inv (player_record_mapping p) av /\
            sorting_key av = Avg) as (av & Hav & Hiav & Hkav).
  { destruct (h =? 0); [apply Hdown | apply (Hup Avg)]. }
  simpl in Ha, Hhi, Hrb. rewrite Ha, Hhi, Hrb. cbn [bind].
  rewrite Hav. cbn [bind].
  eexists. split; [done|]. split; [|done].
  split; simpl.
  - intros name' l' Hl'. destruct (Hrec name' l' Hl') as (Hlt' & Hn' & Hab').
    unfold st. rewrite length_insert. split; [done|].
    unfold deref in *. destruct (decide (l = l')) as [<-|Hne].
    + rewrite list_lookup_total_insert_eq by done. simpl.
      split; [congruence|lia].
    + by rewrite list_lookup_total_insert_ne.
  - intros k. by destruct k.
Qed.

(** An observation for a player not yet in the record map. *)
Lemma new_at_bat_unseen p name (h r : Z) :
  Inv p -> player_record_mapping p !! name = None ->
  exists p', new_at_bat p name h r = Ok p' /\ Inv p' /\
    objects p' = objects p ++ [PlayerRecord_init (Some name) 1 h r] /\
    player_record_mapping p' =
      <[name := length (objects p)]> (player_record_mapping p) /\
    stdout p' = stdout p.
Proof.
  intros [Hrec Hheaps] Hl.
  unfold new_at_bat. rewrite (dict_contains_None _ _ Hl).
  set (rec := PlayerRecord_init (Some name) 1 h r).
  set (st := objects p ++ [rec]).
  set (l := length (objects p)).
  assert (deref st l = rec) as Hderef.
  { unfold deref, st, l. by rewrite list_lookup_total_middle. }
  assert (forall a, exists h',
            insert st (get_heap p a) l = Ok h' /\
            heap_inv (<[name := l]> (player_record_mapping p)) h' /\
            sorting_key h' = a) as Hins.
  { intros a. destruct (Hheaps a) as [Hi Hk].
    destruct (insert_heap_inv st _ (get_heap p a) name l Hi Hl)
      as (h' & ? & ? & ?).
    - intros Hin. apply Hi in Hin as [n Hn].
      destruct (Hrec n l Hn) as [Hlt _]. unfold l in Hlt. lia.
    - by rewrite Hderef.
    - exists h'. split; [done|]. split; [done|congruence]. }
  destruct (Hins Ab) as (a & Ha & Hia & Hka).
  destruct (Hins Hits) as (hi & Hhi & Hihi & Hkhi).
  destruct (Hins Rbi) as (rb & Hrb & Hirb & Hkrb).
  destruct (Hins Avg) as (av & Hav & Hiav & Hkav).
  simpl in Ha, Hhi, Hrb, Hav. rewrite Ha, Hhi, Hrb, Hav. cbn [bind].
  eexists. split; [done|]. split; [|done].
  split; simpl.
  - intros name' l' Hl'. destruct (decide (name = name')) as [<-|Hne].
    + rewrite lookup_insert_eq in Hl'. injection Hl' as <-.
      fold st. rewrite Hderef. unfold st, l.
      rewrite length_app. simpl. split; [lia|done].
    + rewrite lookup_insert_ne in Hl' by done.
      apply (records_inv_alloc _ _ rec Hrec _ _ Hl').
  - intros k. by destruct k.
Qed.

Lemma current_stats_seen p name l :
  player_record_mapping p !! name = Some l ->
  current_stats p name = Ok (p, l).
Proof.
  intros Hl. unfold current_stats, dict_getitem.
  by rewrite (dict_contains_Some _ _ _ Hl), Hl.
Qed.

Lemma current_stats_unseen p name :
  player_record_mapping p !! name = None ->
  current_stats p name =
    Ok ({| objects := objects p ++ [PlayerRecord_init None 1 0 0];
           player_record_mapping := player_record_mapping p;
           abHeap := abHeap p; hitsHeap := hitsHeap p;
           rbiHeap := rbiHeap p; avgHeap := avgHeap p;
           stdout := stdout p |},
        length (objects p)).
Proof.
  intros Hl. unfold current_stats. by rewrite (dict_contains_None _ _ Hl).
Qed.

Lemma Inv_current_stats p name p' l :
  Inv p -> current_stats p name = Ok (p', l) -> Inv p'.
Proof.
  intros [Hrec Hheaps] Hcs.
  destruct (player_record_mapping p !! name) as [l0|] eqn:E.
  - rewrite (current_stats_seen _ _ _ E) in Hcs. injection Hcs as <- <-.
    by split.
  - rewrite (current_stats_unseen _ _ E) in Hcs. injection Hcs as <- <-.
    split; simpl.
    + intros n x Hx. apply (records_inv_alloc _ _ _ Hrec _ _ Hx).
    + intros a. specialize (Hheaps a). by destruct a.
Qed.

Lemma Inv_current_best p stat k p' out :
  Inv p -> current_best p stat k = Ok (p', out) -> Inv p'.
Proof.
  intros [Hrec Hheaps] Hcb.
  destruct (select_stat stat) as [a|] eqn:Hsel.
  - destruct (current_best_spec p stat a k Hsel)
      as (xs & h1 & h' & Hcb' & _ & Hp1 & Hp2 & Hm).
    rewrite Hcb' in Hcb. injection Hcb as <- <-.
    split; [done|]. intros b. rewrite get_set_heap.
    case_decide as Hab; [subst b|apply Hheaps].
    destruct (Hheaps a) as [Hi Hk]. split.
    + eapply heap_inv_perm; [done| |done].
      by rewrite Hp2, Hp1, Permutation_app_comm.
    + destruct Hm as [-> _]. done.
  - unfold current_best in Hcb. rewrite Hsel in Hcb.
    injection Hcb as <- <-. split; [done|].
    intros a. specialize (Hheaps a). by destruct a.
Qed.

Lemma Inv_new_at_bat p name (h r : Z) p' :
  Inv p -> new_at_bat p name h r = Ok p' -> Inv p'.
Proof.
  intros HI Hn.
  destruct (player_record_mapping p !! name) as [l|] eqn:E.
  - destruct (new_at_bat_seen p name l h r HI E) as (p1 & Hp1 & HI1 & _).
    congruence.
  - destruct (new_at_bat_unseen p name h r HI E) as (p1 & Hp1 & HI1 & _).
    congruence.
Qed.

Lemma reachable_Inv p : reachable p -> Inv p.
Proof.
  induction 1 as [|p name h r p' _ IH Hn|p name p' l _ IH Hc
                  |p stat k p' out _ IH Hc].
  - apply Inv_init.
  - by eapply Inv_new_at_bat.
  - by eapply Inv_current_stats.
  - by eapply Inv_current_best.
Qed.
End tracker.

(** ** Statements of the specification *)

(** C10. Sift-up at the root and at any index of the array.  For every
    heap and every index [child] with [0 <= child < len(heap)],
    [heapify_up(child)] returns normally (no [IndexError], no cut-off
    loop).  At [child = 0] the parent index is [(0 - 1) / 2 = -1], the
    guard reads [heap[-1]], which is the last element of the array, and
    the call returns the heap as it was: array and mapping unchanged. *)
Theorem heapify_up_in_range_returns st h child :
  0 <= child < PyList.len (heap h) ->
  (exists h', heapify_up st h child = Ok h') /\
  (0 - 1) / 2 = -1 /\
  (exists x, last (heap h) = Some x /\ PyList.getitem (heap h) (-1) = Ok x) /\
  heapify_up st h 0 = Ok h.
Proof.
  intros Hc. split.
  { destruct (heapify_up_sifted st h child Hc) as (h' & Hh' & _). eauto. }
  split; [done|].
  destruct (last (heap h)) as [x|] eqn:Hlast.
  2:{ apply last_None in Hlast. rewrite Hlast in Hc.
      unfold PyList.len in Hc. simpl in Hc. lia. }
  pose proof (PyListFacts.getitem_minus_one _ _ Hlast) as Hget.
  split; [eauto|].
  destruct (lookup_index (heap h) 0) as [y Hy]; [lia|].
  unfold heapify_up. change ((0 - 1) / 2) with (-1).
  change (S (Z.abs_nat 0)) with 1%nat. cbn [heapify_up_loop].
  rewrite Hget. cbn [bind].
  rewrite (PyListFacts.getitem_nonneg _ 0 y) by done. cbn [bind].
  by destruct (key_lt _ _).
Qed.

Lemma heapify_up_in_range_returns_witness :
  (exists h', heapify_up [PlayerRecord_init (Some "A"%string) 1 1 0]
                {| heap := [0%nat]; mapping := {[Some "A"%string := 0]};
                   sorting_key := Hits |} 0 = Ok h') /\
  (0 - 1) / 2 = -1 /\
  (exists x, last [0%nat] = Some x /\ PyList.getitem [0%nat] (-1) = Ok x) /\
  heapify_up [PlayerRecord_init (Some "A"%string) 1 1 0]
    {| heap := [0%nat]; mapping := {[Some "A"%string := 0]};
       sorting_key := Hits |} 0
  = Ok {| heap := [0%nat]; mapping := {[Some "A"%string := 0]};
          sorting_key := Hits |}.
Proof.
  apply (heapify_up_in_range_returns
           [PlayerRecord_init (Some "A"%string) 1 1 0]
           {| heap := [0%nat]; mapping := {[Some "A"%string := 0]};
              sorting_key := Hits |} 0).
  unfold PyList.len. simpl. lia.
Defined.

(** C4. [current_stats] never fails, and for a player that is not a key of
    the record map it returns a newly built record with no identity
    ([None]), [ab = 1] (the sentinel documented in the docstring,
    [PlayerRecord(None, 1, 0, 0)]), [hits = 0], [rbi = 0] and [avg = 0.0];
    the record map and the four heaps are left as they were. *)
Theorem current_stats_unseen_default p name :
  exists p' l, current_stats p name = Ok (p', l) /\
    (player_record_mapping p !! name = None ->
     deref (objects p') l =
       {| player := None; ab := 1; hits := 0; avg := 0; rbi := 0 |} /\
     player_record_mapping p' = player_record_mapping p /\
     forall a, get_heap p' a = get_heap p a).
Proof.
  destruct (player_record_mapping p !! name) as [l|] eqn:E.
  - exists p, l. split; [by apply current_stats_seen|]. done.
  - eexists _, _. split; [by apply current_stats_unseen|].
    intros _. simpl. split.
    + unfold deref. by rewrite list_lookup_total_middle.
    + split; [done|]. intros a. by destruct a.
Qed.

Lemma current_stats_unseen_default_witness :
  exists p' l, current_stats Problem_init "nobody" = Ok (p', l) /\
    deref (objects p') l =
      {| player := None; ab := 1; hits := 0; avg := 0; rbi := 0 |}.
Proof.
  destruct (current_stats_unseen_default Problem_init "nobody")
    as (p' & l & Hcs & Hdef).
  exists p', l. split; [exact Hcs|]. apply Hdef. reflexivity.
Defined.

(** C3, as the code has it.  The claim that an unknown attribute name
    makes [current_best] fail with a typed error does not hold: the
    [else] branch prints and returns [None]. *)
Lemma current_best_unknown_stat_returns_None :
  (forall e, current_best Problem_init "unknown_stat" 3 <> Raise e) /\
  exists p', current_best Problem_init "unknown_stat" 3 = Ok (p', None).
Proof. split; [intros e; discriminate|]. eexists. reflexivity. Qed.

(** C3, amended.  For every tracker state and every [k], [current_best]
    with an attribute name other than ['ab'], ['hits'], ['rbi'] and
    ['avg'] prints [not valid] and returns [None] without raising; the
    four heaps, the record map and the records are left as they were. *)
Theorem current_best_invalid_attribute p stat k :
  stat <> "ab"%string -> stat <> "hits"%string ->
  stat <> "rbi"%string -> stat <> "avg"%string ->
  exists p', current_best p stat k = Ok (p', None) /\
    stdout p' = stdout p ++ ["not valid"%string] /\
    (forall a, get_heap p' a = get_heap p a) /\
    objects p' = objects p /\
    player_record_mapping p' = player_record_mapping p.
Proof.
  intros H1 H2 H3 H4. unfold current_best, select_stat.
  apply String.eqb_neq in H1, H2, H3, H4. rewrite H1, H2, H3, H4.
  eexists. split; [done|]. simpl. split; [done|].
  split; [|done]. intros a. by destruct a.
Qed.

Lemma current_best_invalid_attribute_witness :
  exists p', current_best Problem_init "unknown_stat" 3 = Ok (p', None) /\
    stdout p' = stdout Problem_init ++ ["not valid"%string] /\
    (forall a, get_heap p' a = get_heap Problem_init a) /\
    objects p' = objects Problem_init /\
    player_record_mapping p' = player_record_mapping Problem_init.
Proof.
  apply (current_best_invalid_attribute Problem_init "unknown_stat" 3);
    discriminate.
Defined.

(** The example sessions run without raising, so their final states are
    reachable. *)
Lemma session_two_players_Ok :
  session_two_players = Ok (final_state session_two_players).
Proof. by vm_compute. Qed.

Lemma session_after_query_Ok :
  session_after_query = Ok (final_state session_after_query).
Proof. by vm_compute. Qed.

Lemma session_after_update_Ok :
  session_after_update = Ok (final_state session_after_update).
Proof. by vm_compute. Qed.

Lemma reachable_two_players : reachable (final_state session_two_players).
Proof.
  pose proof session_two_players_Ok as H. unfold session_two_players at 1 in H.
  destruct (new_at_bat Problem_init "A" 1 0) as [p1| |] eqn:E1;
    try discriminate.
  eapply reach_new_at_bat; [|exact H].
  eapply reach_new_at_bat; [apply reach_init|exact E1].
Qed.

Lemma reachable_after_query : reachable (final_state session_after_query).
Proof.
  pose proof session_after_query_Ok as H. unfold session_after_query at 1 in H.
  rewrite session_two_players_Ok in H. cbn [bind] in H.
  destruct (current_best _ "avg" 1) as [[p3 out]| |] eqn:E; try discriminate.
  cbn [bind fst] in H. injection H as H. rewrite <- H.
  eapply reach_current_best; [apply reachable_two_players|exact E].
Qed.

Lemma reachable_after_update : reachable (final_state session_after_update).
Proof.
  pose proof session_after_update_Ok as H.
  unfold session_after_update at 1 in H.
  rewrite session_after_query_Ok in H. cbn [bind] in H.
  eapply reach_new_at_bat; [apply reachable_after_query|exact H].
Qed.



(** C9. Record lifecycle.  In every reachable state and for each of the
    four heaps, every player of the record map occurs exactly once in the
    heap's array, and the array entry carrying that identity is the very
    record the map refers to (one shared object, so the same field
    values); the array holds no record that the map does not. *)
Theorem record_in_every_heap_once p :
  reachable p ->
  forall name l, player_record_mapping p !! name = Some l ->
  forall a,
    length (filter (fun x => player (deref (objects p) x) = Some name)
                   (heap (get_heap p a))) = 1%nat /\
    l ∈ heap (get_heap p a) /\
    (forall x, x ∈ heap (get_heap p a) ->
       player (deref (objects p) x) = Some name ->
       x = l /\ deref (objects p) x = deref (objects p) l) /\
    length (heap (get_heap p a)) = size (player_record_mapping p).
Proof.
  intros Hreach name l Hl a.
  destruct (reachable_Inv p Hreach) as [Hrec Hheaps].
  destruct (Hheaps a) as [(Hnd & Hin & _ & _) _].
  destruct (Hrec name l Hl) as (_ & Hname & _).
  assert (l ∈ heap (get_heap p a)) as Hl_in by (apply Hin; eauto).
  assert (forall x, x ∈ heap (get_heap p a) ->
            player (deref (objects p) x) = Some name -> x = l) as Huniq.
  { intros x [n Hn]%Hin Hx. destruct (Hrec n x Hn) as (_ & Hn' & _).
    assert (n = name) as -> by congruence. congruence. }
  split; [|split; [done|split]].
  - set (P := fun x => player (deref (objects p) x) = Some name).
    assert (filter P (heap (get_heap p a)) ≡ₚ [l]) as ->; [|done].
    apply NoDup_Permutation.
    + by apply NoDup_filter.
    + apply NoDup_singleton.
    + intros x. rewrite list_elem_of_filter, list_elem_of_singleton.
      split; [intros [? ?]; by apply Huniq|intros ->; by split].
  - intros x Hx Hpx. by rewrite (Huniq x Hx Hpx).
  - assert (heap (get_heap p a)
              ≡ₚ (map_to_list (player_record_mapping p)).*2) as ->.
    { apply NoDup_Permutation; [done| |].
      - apply NoDup_fmap_2_strong; [|apply NoDup_map_to_list].
        intros [n1 x1] [n2 x2] H1%elem_of_map_to_list H2%elem_of_map_to_list.
        simpl. intros ->.
        destruct (Hrec n1 x2 H1) as (_ & E1 & _).
        destruct (Hrec n2 x2 H2) as (_ & E2 & _). congruence.
      - intros x. rewrite Hin, list_elem_of_fmap. split.
        + intros [n Hn]. exists (n, x). split; [done|].
          by apply elem_of_map_to_list.
        + intros [[n y] [-> Hy%elem_of_map_to_list]]. eauto. }
    by rewrite length_fmap, length_map_to_list.
Qed.

Lemma record_in_every_heap_once_witness :
  length (filter (fun x => player (deref (objects
                                        (final_state session_two_players)) x)
                           = Some "B"%string)
                 (heap (get_heap (final_state session_two_players) Avg)))
  = 1%nat.
Proof.
  refine (proj1 (record_in_every_heap_once (final_state session_two_players)
                   reachable_two_players "B"%string 1%nat _ Avg)).
  vm_compute. reflexivity.
Defined.




(** C1, on the code.  [extract_max] exchanges the first and the last slot
    and pops the array without touching the mapping.  On the heap built by
    inserting [A] ([ab = 2]) and [B] ([ab = 1]), extracting the maximum
    leaves the entry of the removed [A] in the mapping, and leaves [B],
    now at index 0, mapped to index 1, which is no index of the array.
    In the tracker, after two players with equal averages and one
    [current_best('avg', 1)], a state between public operations, [B] is
    mapped to index 1 of the average heap while that slot holds [A]. *)
Theorem extract_max_leaves_mapping_stale :
  let st := [PlayerRecord_init (Some "A"%string) 2 1 0;
             PlayerRecord_init (Some "B"%string) 1 1 0] in
  (exists h2 h3,
     (do h1 <- insert st (Heap_init Ab) 0%nat in insert st h1 1%nat) = Ok h2 /\
     heap h2 = [0%nat; 1%nat] /\
     mapping h2 !! Some "A"%string = Some 0 /\
     mapping h2 !! Some "B"%string = Some 1 /\
     extract_max st h2 = Ok (Some 0%nat, h3) /\
     heap h3 = [1%nat] /\
     mapping h3 !! Some "A"%string = Some 0 /\
     mapping h3 !! Some "B"%string = Some 1 /\
     PyList.getitem (heap h3) 1 = Raise IndexError) /\
  let p := final_state session_after_query in
  reachable p /\
  heap (avgHeap p) = [1%nat; 0%nat] /\
  player (deref (objects p) 1%nat) = Some "B"%string /\
  get_index (objects p) (avgHeap p) 1%nat = Some 1 /\
  PyList.getitem (heap (avgHeap p)) 1 = Ok 0%nat /\
  player (deref (objects p) 0%nat) = Some "A"%string.
Proof.
  split.
  - eexists _, _. split; [by vm_compute|]. by vm_compute.
  - split; [apply reachable_after_query|]. by vm_compute.
Qed.

(** C2, on the code.  The session [n A 1 0], [n B 1 0], [cb avg 1],
    [n B 0 0] uses only the public operations.  Every heap validates
    before the last update; the update lowers the average of [B], which
    sits at the root of the average heap, and [new_at_bat] sifts down from
    the index the mapping gives for [B], the stale index 1: [B] stays at
    the root with average [1/2] above [A] with average [1], and
    [validate_heap] answers [False]. *)
Theorem validate_heap_fails_after_update :
  let p3 := final_state session_after_query in
  let p4 := final_state session_after_update in
  reachable p3 /\
  (forall a, validate_heap (objects p3) (get_heap p3 a) = Ok true) /\
  new_at_bat p3 "B" 0 0 = Ok p4 /\
  reachable p4 /\
  heap (avgHeap p4) = [1%nat; 0%nat] /\
  key_of (objects p4) (avgHeap p4) 1%nat = 1 # 2 /\
  key_of (objects p4) (avgHeap p4) 0%nat = 1%Q /\
  validate_heap (objects p4) (avgHeap p4) = Ok false.
Proof.
  split; [apply reachable_after_query|].
  split; [intros a; destruct a; by vm_compute|].
  split; [by vm_compute|].
  split; [apply reachable_after_update|]. by vm_compute.
Qed.

(** C7, on the code.  In the reachable state of the session above, with
    two tracked players, [current_best('avg', 5)] returns two records, but
    in ascending order of the average: [B] with [1/2] before [A] with
    [1]. *)
Theorem current_best_not_descending :
  let p := final_state session_after_update in
  reachable p /\
  size (player_record_mapping p) = 2%nat /\
  (exists p', current_best p "avg" 5 = Ok (p', Some [Some 1%nat; Some 0%nat])) /\
  avg (deref (objects p) 1%nat) = 1 # 2 /\
  avg (deref (objects p) 0%nat) = 1%Q /\
  (1 # 2 < 1)%Q.
Proof.
  split; [apply reachable_after_update|].
  split; [by vm_compute|].
  split; [eexists; by vm_compute|]. by vm_compute.
Qed.

(** ** Sifting down restores the heap order *)

Ltac div_lia := Z.to_euclidean_division_equations; lia.

Section heap_order.
Implicit Types (st : list PlayerRecord) (h : Heap).

Lemma key_lt_true a b : key_lt a b = true -> (a < b)%Q.
Proof.
  unfold key_lt. intros H%negb_true_iff. apply Qnot_le_lt.
  intros Hle%Qle_bool_iff. congruence.
Qed.

Lemma key_lt_false a b : key_lt a b = false -> (b <= a)%Q.
Proof.
  unfold key_lt. intros H%negb_false_iff. by apply Qle_bool_iff.
Qed.

Lemma getitem_total (l : list loc) i :
  0 <= i < PyList.len l -> PyList.getitem l i = Ok (l !!! Z.to_nat i).
Proof.
  intros Hi. apply PyListFacts.getitem_nonneg; [lia|].
  apply list_lookup_lookup_total_lt. unfold PyList.len in Hi. lia.
Qed.

Lemma swap_step_key_at st h p c h1 :
  0 <= p < PyList.len (heap h) -> 0 <= c < PyList.len (heap h) ->
  swap_step st h p c = Ok h1 ->
  PyList.len (heap h1) = PyList.len (heap h) /\
  sorting_key h1 = sorting_key h /\
  forall i, 0 <= i ->
    key_at st h1 i =
      if decide (i = c) then key_at st h p
      else if decide (i = p) then key_at st h c
      else key_at st h i.
Proof.
  intros Hp Hc Hs. unfold PyList.len in *.
  rewrite (swap_step_nonneg st h p c (heap h !!! Z.to_nat p)
             (heap h !!! Z.to_nat c)) in Hs;
    [|lia|lia|apply list_lookup_lookup_total_lt; lia..].
  injection Hs as <-. simpl. rewrite !length_insert.
  split; [done|]. split; [done|].
  intros i Hi. unfold key_at, key_of. simpl.
  destruct (decide (i = c)) as [->|Hic].
  { by rewrite list_lookup_total_insert_eq by (rewrite length_insert; lia). }
  rewrite list_lookup_total_insert_ne by lia.
  destruct (decide (i = p)) as [->|Hip].
  { by rewrite list_lookup_total_insert_eq by lia. }
  by rewrite list_lookup_total_insert_ne by lia.
Qed.

Lemma pick_child_largest st h p :
  0 <= p ->
  (pick_child st h p = Ok None /\ PyList.len (heap h) <= 2 * p + 1) \/
  (exists c, pick_child st h p = Ok (Some c) /\ largest_child st h p c).
Proof.
  intros Hp. unfold pick_child, largest_child.
  destruct (Z.leb_spec (PyList.len (heap h)) (p * 2 + 1));
    [left; split; [done|lia]|].
  right.
  destruct (Z.leb_spec (PyList.len (heap h)) (p * 2 + 2)).
  { exists (p * 2 + 1). split; [done|]. split; [lia|]. split; [lia|].
    intros i Hi Hpar. assert (i = p * 2 + 1) as -> by div_lia.
    apply Qle_refl. }
  rewrite !getitem_total by lia. cbn [bind].
  fold (key_at st h (p * 2 + 1)). fold (key_at st h (p * 2 + 2)).
  destruct (key_lt _ _) eqn:E; eexists; (split; [done|]);
    (split; [lia|]); (split; [lia|]); intros i Hi Hpar;
    assert (i = p * 2 + 1 \/ i = p * 2 + 2) as [-> | ->] by div_lia;
    try apply Qle_refl.
  - by apply Qlt_le_weak, key_lt_true.
  - by apply key_lt_false.
Qed.

Lemma ordered_but_closed st h p :
  ordered_but st h p ->
  (forall i, 1 <= i < PyList.len (heap h) -> (i - 1) / 2 = p ->
     (key_at st h i <= key_at st h p)%Q) ->
  heap_ordered st h.
Proof.
  intros [Hout _] Hin i Hi.
  destruct (decide ((i - 1) / 2 = p)) as [E|E].
  - rewrite E. by apply Hin.
  - by apply Hout.
Qed.

Lemma ordered_but_swap st h p c h1 :
  0 <= p -> largest_child st h p c -> ordered_but st h p ->
  (key_at st h p < key_at st h c)%Q ->
  swap_step st h p c = Ok h1 ->
  ordered_but st h1 c.
Proof.
  intros Hp (Hc & Hlt & Hbig) [Hout Hup] Hkey Hs.
  destruct (swap_step_key_at st h p c h1 ltac:(lia) ltac:(lia) Hs)
    as (Hlen & _ & Hk).
  assert ((c - 1) / 2 = p) as Hpc by div_lia.
  split.
  - intros i Hi Hpar. rewrite Hlen in Hi.
    rewrite !Hk by div_lia.
    destruct (decide (i = c)) as [->|Hic].
    { rewrite Hpc. rewrite decide_False by lia.
      rewrite decide_True by done. by apply Qlt_le_weak. }
    destruct (decide (i = p)) as [->|Hip].
    { rewrite decide_False by div_lia. rewrite decide_False by div_lia.
      apply Hup; [lia|lia|done]. }
    rewrite decide_False by done.
    destruct (decide ((i - 1) / 2 = p)) as [E|E].
    + by apply Hbig.
    + by apply Hout.
  - intros Hc1 i Hi Hpar. rewrite Hlen in Hi.
    rewrite !Hk by div_lia. rewrite Hpc.
    rewrite decide_False by div_lia. rewrite decide_False by div_lia.
    rewrite decide_False by lia. rewrite decide_True by done.
    rewrite <- Hpar. apply Hout; [done|]. div_lia.
Qed.

Lemma heapify_down_loop_ordered fuel : forall st h p c h',
  0 <= p -> largest_child st h p c -> ordered_but st h p ->
  heapify_down_loop fuel st h p c = Ok h' ->
  heap_ordered st h'.
Proof.
  induction fuel as [|fuel IH]; intros st h p c h' Hp Hc Hob Hrun;
    [discriminate|].
  pose proof Hc as (Hc12 & Hlt & Hbig).
  simpl in Hrun.
  rewrite !getitem_total in Hrun by lia. cbn [bind] in Hrun.
  fold (key_at st h p) in Hrun. fold (key_at st h c) in Hrun.
  destruct (key_lt _ _) eqn:E.
  2:{ injection Hrun as <-. apply (ordered_but_closed st h p Hob).
      intros i Hi Hpar. eapply Qle_trans; [by apply Hbig|].
      by apply key_lt_false. }
  apply key_lt_true in E.
  destruct (Z.leb_spec (PyList.len (heap h)) c); [lia|].
  destruct (swap_step st h p c) as [h1| |] eqn:Hs; try discriminate.
  cbn [bind] in Hrun.
  pose proof (ordered_but_swap st h p c h1 Hp Hc Hob E Hs) as Hob1.
  destruct (pick_child_largest st h1 c ltac:(lia))
    as [[Hpick Hnone]|(c' & Hpick & Hc')];
    rewrite Hpick in Hrun; cbn [bind] in Hrun.
  - injection Hrun as <-. apply (ordered_but_closed st h1 c Hob1).
    intros i Hi Hpar. div_lia.
  - by apply (IH st h1 c c' h' ltac:(lia) Hc' Hob1).
Qed.

Lemma heapify_down_ordered st h p h' :
  0 <= p -> ordered_but st h p -> heapify_down st h p = Ok h' ->
  heap_ordered st h'.
Proof.
  intros Hp Hob Hrun. unfold heapify_down in Hrun.
  destruct (pick_child_largest st h p Hp)
    as [[Hpick Hnone]|(c & Hpick & Hc)];
    rewrite Hpick in Hrun; cbn [bind] in Hrun.
  - injection Hrun as <-. apply (ordered_but_closed st h p Hob).
    intros i Hi Hpar. div_lia.
  - by eapply heapify_down_loop_ordered.
Qed.

(** The root of an ordered heap holds a largest key. *)
Lemma root_largest st h :
  heap_ordered st h ->
  forall i, 0 <= i < PyList.len (heap h) ->
    (key_at st h i <= key_at st h 0)%Q.
Proof.
  intros Ho i [Hi Hlt]. revert Hlt. pattern i.
  apply Zlt_0_ind; [|done]. clear i Hi.
  intros i IH Hi Hlt. destruct (decide (i = 0)) as [->|Hne].
  - apply Qle_refl.
  - eapply Qle_trans; [apply Ho; lia|].
    apply IH; div_lia.
Qed.
End heap_order.

(** ** Extraction order *)

Section extraction.
Implicit Types (st : list PlayerRecord) (h : Heap).

Lemma key_of_same st h h' x :
  sorting_key h' = sorting_key h -> key_of st h' x = key_of st h x.
Proof. unfold key_of. by intros ->. Qed.

Lemma elem_key_le_root st h y :
  heap_ordered st h -> y ∈ heap h ->
  (key_of st h y <= key_at st h 0)%Q.
Proof.
  intros Ho [i Hi]%list_elem_of_lookup.
  pose proof (lookup_lt_Some _ _ _ Hi) as Hlt.
  pose proof (root_largest st h Ho (Z.of_nat i)) as Hle.
  unfold key_at at 1 in Hle. rewrite Nat2Z.id in Hle.
  rewrite (list_lookup_total_correct _ _ _ Hi) in Hle.
  apply Hle. unfold PyList.len. lia.
Qed.

(** The array [extract_max] hands to [heapify_down] is ordered except
    at its root. *)
Lemma ordered_but_root st h x r :
  heap_ordered st h -> heap h = x :: r ->
  ordered_but st
    {| heap := match last r with
               | Some z => z :: removelast r
               | None => []
               end;
       mapping := mapping h;
       sorting_key := sorting_key h |} 0.
Proof.
  intros Ho E. split; [|lia].
  destruct (decide (r = [])) as [->|Hr].
  { simpl. unfold PyList.len. simpl. lia. }
  destruct (exists_last Hr) as (r' & z & ->).
  rewrite last_snoc, removelast_last. simpl.
  intros i Hi Hpar. unfold PyList.len in Hi. simpl in Hi.
  assert (forall j, 1 <= j < Z.of_nat (S (length r')) ->
            (z :: r') !!! Z.to_nat j = heap h !!! Z.to_nat j) as Hsame.
  { intros j Hj. rewrite E.
    replace (Z.to_nat j) with (S (Z.to_nat (j - 1))) by lia. simpl.
    rewrite lookup_total_app_l by lia. done. }
  unfold key_at, key_of. simpl.
  rewrite !Hsame by div_lia.
  apply (Ho i). unfold PyList.len. rewrite E. simpl.
  rewrite length_app. simpl. lia.
Qed.

Lemma extract_max_ordered st h x r :
  heap_ordered st h -> heap h = x :: r ->
  exists h', extract_max st h = Ok (Some x, h') /\
    heap h' ≡ₚ r /\ sorting_key h' = sorting_key h /\
    heap_ordered st h'.
Proof.
  intros Ho E.
  destruct (extract_max_spec st h x r E) as (h' & Hrun & Hp & Hm).
  exists h'. split; [done|]. split; [done|].
  split; [by destruct (Hm _ (Z.le_refl _))|].
  rewrite (extract_max_unfold st h x r E) in Hrun.
  destruct (heapify_down st _ 0) as [h''| |] eqn:Hd; try discriminate.
  cbn [bind] in Hrun. injection Hrun as <-.
  eapply heapify_down_ordered;
    [|exact (ordered_but_root st h x r Ho E)|exact Hd].
  done.
Qed.

Lemma extract_many_descending n : forall st h out,
  (n <= length (heap h))%nat -> heap_ordered st h ->
  exists xs h',
    extract_many n st h out = Ok (out ++ (Some <$> xs), h') /\
    length xs = n /\
    heap h ≡ₚ xs ++ heap h' /\
    descending st h xs.
Proof.
  induction n as [|n IH]; intros st h out Hn Ho.
  - exists [], h. simpl. rewrite app_nil_r.
    do 3 (split; [done|]). constructor.
  - destruct (heap h) as [|x r] eqn:E; [simpl in Hn; lia|].
    destruct (extract_max_ordered st h x r Ho E)
      as (h1 & Hh1 & Hp1 & Hk1 & Ho1).
    simpl. rewrite Hh1. cbn [bind fst snd].
    destruct (IH st h1 (PyList.append out (Some x)))
      as (xs & h' & -> & Hl & Hp & Hd); [|done|].
    { rewrite Hp1. simpl in Hn. lia. }
    exists (x :: xs), h'. unfold PyList.append.
    rewrite <- app_assoc. simpl. split; [done|]. split; [by rewrite Hl|].
    split; [by rewrite <- Hp, Hp1|].
    constructor.
    + unfold descending, key_of in Hd. rewrite Hk1 in Hd. exact Hd.
    + apply Forall_forall. intros y Hy.
      assert (y ∈ heap h) as Hin.
      { rewrite E. right. rewrite <- Hp1, Hp. apply elem_of_app. by left. }
      pose proof (elem_key_le_root st h y Ho Hin) as Hle.
      unfold key_at in Hle. rewrite E in Hle. exact Hle.
Qed.
End extraction.

(** C6. Extraction order.  For every heap that satisfies the max-heap
    invariant, with [n] elements, [n] calls of [extract_max] return and
    yield [n] records in non-increasing order of the heap's key; the
    records extracted are a permutation of the array the heap started
    with, and the heap ends empty.  Nothing is said on the order among
    equal keys. *)
Theorem extract_max_repeatedly_sorted st h :
  heap_ordered st h ->
  exists xs h',
    extract_many (length (heap h)) st h [] = Ok (Some <$> xs, h') /\
    length xs = length (heap h) /\
    heap h' = [] /\
    xs ≡ₚ heap h /\
    descending st h xs.
Proof.
  intros Ho.
  destruct (extract_many_descending (length (heap h)) st h [] (le_n _) Ho)
    as (xs & h' & Hrun & Hlen & Hp & Hd).
  assert (heap h' = []) as Hnil.
  { apply length_zero_iff_nil. pose proof (Permutation_length Hp) as Hl.
    rewrite length_app in Hl. lia. }
  exists xs, h'. split; [done|]. split; [done|]. split; [done|].
  rewrite Hnil, app_nil_r in Hp. by split.
Qed.

Lemma extract_max_repeatedly_sorted_witness :
  let st := [PlayerRecord_init (Some "A"%string) 2 1 0;
             PlayerRecord_init (Some "B"%string) 1 1 0;
             PlayerRecord_init (Some "C"%string) 3 0 0] in
  let h := {| heap := [2%nat; 0%nat; 1%nat]; mapping := ∅;
              sorting_key := Ab |} in
  exists xs h',
    extract_many (length (heap h)) st h [] = Ok (Some <$> xs, h') /\
    length xs = length (heap h) /\
    heap h' = [] /\
    xs ≡ₚ heap h /\
    descending st h xs.
Proof.
  intros st h. apply (extract_max_repeatedly_sorted st h).
  intros i Hi. unfold PyList.len in Hi. simpl in Hi.
  assert (i = 1 \/ i = 2) as [-> | ->] by lia; vm_compute; discriminate.
Defined.

(** ** The fuel of the sift loops is enough for every input *)

Section totality.
Implicit Types (st : list PlayerRecord) (h : Heap).

Lemma key_lt_irrefl a : key_lt a a = false.
Proof.
  unfold key_lt. apply negb_false_iff, Qle_bool_iff, Qle_refl.
Qed.

Lemma getitem_returns (l : list loc) i : PyList.getitem l i <> OutOfFuel.
Proof.
  unfold PyList.getitem. destruct (PyList.in_range l i); [|discriminate].
  by destruct (l !! _).
Qed.

Lemma swap_step_returns st h p c : swap_step st h p c <> OutOfFuel.
Proof.
  unfold swap_step, PyList.setitem.
  destruct (PyList.getitem (heap h) p) eqn:Hp; try discriminate;
    [|by apply getitem_returns in Hp]. cbn [bind].
  destruct (PyList.getitem (heap h) c) eqn:Hc; try discriminate;
    [|by apply getitem_returns in Hc]. cbn [bind].
  destruct (PyList.in_range (heap h) p); try discriminate. cbn [bind].
  destruct (PyList.in_range _ c); discriminate.
Qed.

Lemma pick_child_returns st h p : pick_child st h p <> OutOfFuel.
Proof.
  unfold pick_child.
  destruct (_ <=? _); [discriminate|].
  destruct (_ <=? _); [discriminate|].
  destruct (PyList.getitem (heap h) (p * 2 + 1)) eqn:Hl; try discriminate;
    [|by apply getitem_returns in Hl]. cbn [bind].
  destruct (PyList.getitem (heap h) (p * 2 + 2)) eqn:Hr; try discriminate;
    [cbn [bind]; by destruct (key_lt _ _)|by apply getitem_returns in Hr].
Qed.

Lemma swap_step_length st h p c h1 :
  swap_step st h p c = Ok h1 -> length (heap h1) = length (heap h).
Proof.
  unfold swap_step, PyList.setitem.
  destruct (PyList.getitem (heap h) p); try discriminate. cbn [bind].
  destruct (PyList.getitem (heap h) c); try discriminate. cbn [bind].
  destruct (PyList.in_range (heap h) p); try discriminate. cbn [bind].
  destruct (PyList.in_range _ c); try discriminate. cbn [bind].
  intros [= <-]. simpl. by rewrite !length_insert.
Qed.

Lemma heapify_up_loop_fuel fuel : forall st h c,
  (Z.abs_nat c < fuel)%nat ->
  heapify_up_loop fuel st h ((c - 1) / 2) c <> OutOfFuel.
Proof.
  induction fuel as [|fuel IH]; intros st h c Hfuel; [lia|].
  simpl.
  destruct (PyList.getitem (heap h) ((c - 1) / 2)) as [x| |] eqn:Hx;
    try discriminate; [|by apply getitem_returns in Hx]. cbn [bind].
  destruct (PyList.getitem (heap h) c) as [y| |] eqn:Hy;
    try discriminate; [|by apply getitem_returns in Hy]. cbn [bind].
  destruct (key_lt _ _) eqn:Hlt; [|discriminate].
  destruct (Z.eqb_spec ((c - 1) / 2) (-1)) as [|Hne]; [discriminate|].
  destruct (swap_step st h _ c) as [h1| |] eqn:Hs; try discriminate;
    [|by apply swap_step_returns in Hs].
  cbn [bind]. apply IH.
  destruct (decide ((c - 1) / 2 = c)) as [E|E]; [|div_lia].
  rewrite E in Hx. assert (x = y) as -> by congruence.
  by rewrite key_lt_irrefl in Hlt.
Qed.

(** [heapify_up] returns or raises on every input, negative indices
    included: the loop is never cut off. *)
Lemma heapify_up_total st h c : heapify_up st h c <> OutOfFuel.
Proof. apply heapify_up_loop_fuel. lia. Qed.

Lemma pick_child_children st h p c :
  pick_child st h p = Ok (Some c) -> c = 2 * p + 1 \/ c = 2 * p + 2.
Proof.
  unfold pick_child.
  destruct (_ <=? _); [discriminate|].
  destruct (_ <=? _); [intros [= <-]; lia|].
  destruct (PyList.getitem (heap h) (p * 2 + 1)); try discriminate.
  cbn [bind].
  destruct (PyList.getitem (heap h) (p * 2 + 2)); try discriminate.
  cbn [bind].
  destruct (key_lt _ _); intros [= <-]; lia.
Qed.

Lemma heapify_down_loop_fuel fuel : forall st h p c,
  (c = 2 * p + 1 \/ c = 2 * p + 2) ->
  down_measure (PyList.len (heap h)) p <= Z.of_nat fuel ->
  (1 <= fuel)%nat ->
  heapify_down_loop fuel st h p c <> OutOfFuel.
Proof.
  induction fuel as [|fuel IH]; intros st h p c Hc Hm Hfuel; [lia|].
  simpl.
  destruct (PyList.getitem (heap h) p) as [x| |] eqn:Hx;
    try discriminate; [|by apply getitem_returns in Hx]. cbn [bind].
  destruct (PyList.getitem (heap h) c) as [y| |] eqn:Hy;
    try discriminate; [|by apply getitem_returns in Hy]. cbn [bind].
  destruct (key_lt _ _) eqn:Hlt; [|discriminate].
  destruct (Z.leb_spec (PyList.len (heap h)) c) as [|Hclt]; [discriminate|].
  destruct (swap_step st h p c) as [h1| |] eqn:Hs; try discriminate;
    [|by apply swap_step_returns in Hs].
  cbn [bind].
  destruct (pick_child st h1 c) as [[c'|]| |] eqn:Hpick; try discriminate;
    [|by apply pick_child_returns in Hpick].
  cbn [bind].
  assert (PyList.norm (heap h) p <> PyList.norm (heap h) c) as Hslots.
  { intros E. rewrite (PyListFacts.getitem_same_slot _ _ _ _ _ Hx Hy E) in Hlt.
    by rewrite key_lt_irrefl in Hlt. }
  apply PyListFacts.getitem_inv in Hx as [Hxr _].
  apply PyListFacts.getitem_inv in Hy as [Hyr _].
  assert (PyList.len (heap h1) = PyList.len (heap h)) as Hlen.
  { unfold PyList.len. by rewrite (swap_step_length _ _ _ _ _ Hs). }
  unfold PyList.norm in *. unfold down_measure in *.
  apply IH; [by eapply pick_child_children| |];
    rewrite ?Hlen; revert Hm Hxr Hyr Hslots; zcases.
Qed.

(** [heapify_down] returns or raises on every input, negative indices
    included: the loop is never cut off. *)
Lemma heapify_down_total st h p : heapify_down st h p <> OutOfFuel.
Proof.
  unfold heapify_down.
  destruct (pick_child st h p) as [[c|]| |] eqn:Hpick; try discriminate;
    [|by apply pick_child_returns in Hpick].
  cbn [bind]. apply heapify_down_loop_fuel; [|unfold down_measure, PyList.len; zcases|lia].
  by eapply pick_child_children.
Qed.
End totality.

(** ** [validate_heap] decides the heap order *)

Section validate.
Implicit Types (st : list PlayerRecord) (h : Heap) (ks : list Q).

Lemma subtree_size_outside g n p : n <= p -> subtree_size g n p = O.
Proof.
  intros Hp. destruct g; [done|]. simpl.
  destruct (Z.ltb_spec p n); [lia|done].
Qed.

Lemma subtree_size_bound g : forall n p,
  0 <= p < n -> (p + 1) * (Z.of_nat (subtree_size g n p) + 1) <= 2 * n.
Proof.
  induction g as [|g IH]; intros n p Hp; simpl; [lia|].
  destruct (Z.ltb_spec p n); [|lia].
  destruct (Z.lt_ge_cases (2 * p + 1) n) as [H1|H1].
  - pose proof (IH n (2 * p + 1) ltac:(lia)) as IH1.
    destruct (Z.lt_ge_cases (2 * p + 2) n) as [H2|H2].
    + pose proof (IH n (2 * p + 2) ltac:(lia)) as IH2. nia.
    + rewrite (subtree_size_outside g n (2 * p + 2)) by lia. nia.
  - rewrite !subtree_size_outside by lia. simpl. lia.
Qed.

Lemma getitem_keys ks i :
  0 <= i < PyList.len ks -> PyList.getitem ks i = Ok (ks !!! Z.to_nat i).
Proof.
  intros Hi. apply PyListFacts.getitem_nonneg; [lia|].
  apply list_lookup_lookup_total_lt. unfold PyList.len in Hi. lia.
Qed.

(** Visiting [p] and everything below it either finds a key above its
    parent or leaves the rest of the work list to be done. *)
Lemma validate_loop_visit g : forall ks p rest fuel,
  0 <= p < PyList.len ks -> PyList.len ks - p <= Z.of_nat g ->
  validate_loop (subtree_size g (PyList.len ks) p + fuel) ks (p :: rest)
  = if subtree_ordered g ks p then validate_loop fuel ks rest else Ok false.
Proof.
  induction g as [|g IH]; intros ks p rest fuel Hp Hg; [lia|].
  cbn [subtree_size subtree_ordered].
  destruct (Z.ltb_spec p (PyList.len ks)) as [_|]; [|lia].
  cbn [Nat.add validate_loop].
  destruct (Z.ltb_spec (2 * p + 1) (PyList.len ks)) as [H1|H1].
  - rewrite (getitem_keys ks (2 * p + 1)) by lia. cbn [bind].
    rewrite (getitem_keys ks p) by lia. cbn [bind].
    destruct (key_lt (ks !!! Z.to_nat p) (ks !!! Z.to_nat (2 * p + 1)));
      cbn [bind negb andb]; [done|].
    destruct (Z.ltb_spec (2 * p + 2) (PyList.len ks)) as [H2|H2].
    + rewrite (getitem_keys ks (2 * p + 2)) by lia. cbn [bind].
      destruct (key_lt (ks !!! Z.to_nat p) (ks !!! Z.to_nat (2 * p + 2)));
        cbn [bind negb andb]; [by rewrite andb_false_r|].
      replace (subtree_size g (PyList.len ks) (2 * p + 1)
               + subtree_size g (PyList.len ks) (2 * p + 2) + fuel)%nat
        with (subtree_size g (PyList.len ks) (2 * p + 2)
              + (subtree_size g (PyList.len ks) (2 * p + 1) + fuel))%nat
        by lia.
      rewrite IH by lia.
      destruct (subtree_ordered g ks (2 * p + 2));
        [|by rewrite andb_false_r].
      rewrite andb_true_r. by rewrite IH by lia.
    + cbn [bind]. rewrite (subtree_size_outside g _ (2 * p + 2)) by lia.
      rewrite Nat.add_0_r, andb_true_r. by rewrite IH by lia.
  - cbn [bind].
    destruct (Z.ltb_spec (2 * p + 2) (PyList.len ks)) as [H2|H2]; [lia|].
    cbn [bind andb].
    by rewrite !subtree_size_outside by lia.
Qed.

Lemma keys_lookup st h i :
  0 <= i < PyList.len (heap h) ->
  (key_of st h <$> heap h) !!! Z.to_nat i = key_at st h i.
Proof.
  intros Hi. unfold key_at. unfold PyList.len in Hi.
  by rewrite (list_lookup_total_fmap (key_of st h) (heap h)) by lia.
Qed.

Lemma keys_len st h : PyList.len (key_of st h <$> heap h) = PyList.len (heap h).
Proof. unfold PyList.len. by rewrite length_fmap. Qed.

Lemma heap_ordered_subtree st h g : forall p,
  heap_ordered st h -> 0 <= p < PyList.len (heap h) ->
  subtree_ordered g (key_of st h <$> heap h) p = true.
Proof.
  induction g as [|g IH]; intros p Ho Hp; [done|].
  cbn [subtree_ordered]. rewrite keys_len.
  assert (forall c, (c - 1) / 2 = p -> 
            (if c <? PyList.len (heap h)
             then negb (key_lt ((key_of st h <$> heap h) !!! Z.to_nat p)
                               ((key_of st h <$> heap h) !!! Z.to_nat c))
                  && subtree_ordered g (key_of st h <$> heap h) c
             else true) = true) as Hok.
  { intros c Hc. destruct (Z.ltb_spec c (PyList.len (heap h))); [|done].
    rewrite IH by (done || div_lia). rewrite andb_true_r.
    rewrite !keys_lookup by div_lia.
    apply negb_true_iff. unfold key_lt. apply negb_false_iff, Qle_bool_iff.
    rewrite <- Hc. apply Ho. div_lia. }
  rewrite !Hok by div_lia. done.
Qed.

Lemma subtree_heap_ordered st h g :
  PyList.len (heap h) <= Z.of_nat g ->
  subtree_ordered g (key_of st h <$> heap h) 0 = true ->
  heap_ordered st h.
Proof.
  intros Hg Hroot.
  assert (forall i, 0 <= i -> i < PyList.len (heap h) ->
            (exists g', PyList.len (heap h) - i <= Z.of_nat g' /\
               subtree_ordered g' (key_of st h <$> heap h) i = true) /\
            (1 <= i -> (key_at st h i <= key_at st h ((i - 1) / 2))%Q))
    as Hall.
  { intros i Hi. pattern i. apply Zlt_0_ind; [|done]. clear i Hi.
    intros i IH Hi Hlt. destruct (decide (i = 0)) as [->|Hne].
    { split; [|lia]. exists g. split; [lia|done]. }
    destruct (IH ((i - 1) / 2) ltac:(div_lia) ltac:(div_lia))
      as [(gq & Hgq & Hsub) _].
    destruct gq as [|g']; [div_lia|].
    cbn [subtree_ordered] in Hsub. rewrite keys_len in Hsub.
    apply andb_true_iff in Hsub as [Hl Hr].
    assert ((if i <? PyList.len (heap h)
             then negb (key_lt ((key_of st h <$> heap h)
                                  !!! Z.to_nat ((i - 1) / 2))
                               ((key_of st h <$> heap h) !!! Z.to_nat i))
                  && subtree_ordered g' (key_of st h <$> heap h) i
             else true) = true) as Hi'.
    { assert (i = 2 * ((i - 1) / 2) + 1 \/ i = 2 * ((i - 1) / 2) + 2)
        as [E|E] by div_lia.
      - by rewrite <- E in Hl.
      - by rewrite <- E in Hr. }
    destruct (Z.ltb_spec i (PyList.len (heap h))); [|lia].
    apply andb_true_iff in Hi' as [Hkey Hsub].
    rewrite !keys_lookup in Hkey by div_lia.
    split.
    - exists g'. split; [div_lia|done].
    - intros _. apply negb_true_iff in Hkey. by apply key_lt_false. }
  intros i Hi. apply Hall; lia.
Qed.

(** [validate_heap] always returns, and it returns [True] exactly on the
    heaps that satisfy the max-heap invariant. *)
Lemma validate_heap_spec st h :
  exists b, validate_heap st h = Ok b /\ (b = true <-> heap_ordered st h).
Proof.
  unfold validate_heap.
  destruct (heap h) as [|x r] eqn:E.
  { exists true. split; [done|]. split; [|done].
    intros _ i Hi. rewrite E in Hi. unfold PyList.len in Hi. simpl in Hi.
    lia. }
  rewrite <- E. set (ks := key_of st h <$> heap h).
  set (n := length (heap h)). fold n.
  assert (PyList.len ks = Z.of_nat n) as Hlen by apply keys_len.
  assert (1 <= n)%nat as Hn by (unfold n; rewrite E; simpl; lia).
  pose proof (subtree_size_bound n (PyList.len ks) 0 ltac:(lia)) as Hb.
  assert (exists fuel,
            S (S (2 * n)) = (subtree_size n (PyList.len ks) 0 + S fuel)%nat)
    as [fuel ->].
  { exists (S (2 * n) - subtree_size n (PyList.len ks) 0)%nat. lia. }
  rewrite validate_loop_visit by lia.
  destruct (subtree_ordered n ks 0) eqn:Hsub.
  - exists true. split; [done|]. split; [|done]. intros _.
    apply (subtree_heap_ordered st h n); [unfold PyList.len; lia|done].
  - exists false. split; [done|]. split; [done|]. intros Ho.
    assert (subtree_ordered n ks 0 = true) as Htrue.
    { apply (heap_ordered_subtree st h n 0 Ho). unfold PyList.len. lia. }
    congruence.
Qed.
End validate.

(** ** Sifting up restores the heap order *)

Section sift_up_order.
Implicit Types (st : list PlayerRecord) (h : Heap).

Lemma swap_step_keys st h p c h1 :
  0 <= p < PyList.len (heap h) -> 0 <= c < PyList.len (heap h) ->
  p <> c -> swap_step st h p c = Ok h1 ->
  PyList.len (heap h1) = PyList.len (heap h) /\
  key_at st h1 c = key_at st h p /\
  key_at st h1 p = key_at st h c /\
  forall i, 0 <= i -> i <> c -> i <> p -> key_at st h1 i = key_at st h i.
Proof.
  intros Hp Hc Hne Hs.
  destruct (swap_step_key_at st h p c h1 Hp Hc Hs) as (Hlen & _ & Hk).
  split; [done|]. split; [|split].
  - rewrite Hk by lia. by rewrite decide_True.
  - rewrite Hk by lia. rewrite decide_False by done. by rewrite decide_True.
  - intros i Hi Hic Hip. rewrite Hk by lia.
    rewrite decide_False by done. by rewrite decide_False.
Qed.

Lemma ordered_up_swap st h c h1 :
  1 <= c < PyList.len (heap h) -> ordered_up st h c ->
  (key_at st h ((c - 1) / 2) < key_at st h c)%Q ->
  swap_step st h ((c - 1) / 2) c = Ok h1 ->
  ordered_up st h1 ((c - 1) / 2).
Proof.
  intros Hc [Hout Hup] Hkey Hs.
  pose proof (parent_bounds c ltac:(lia)) as Hp.
  destruct (swap_step_keys st h ((c - 1) / 2) c h1 ltac:(lia) ltac:(lia)
              ltac:(lia) Hs) as (Hlen & Hkc & Hkp & Hko).
  remember ((c - 1) / 2) as p eqn:Ep.
  split.
  - intros i Hi Hip. rewrite Hlen in Hi.
    destruct (decide (i = c)) as [->|Hic].
    { rewrite <- Ep, Hkc, Hkp. by apply Qlt_le_weak. }
    rewrite (Hko i) by lia.
    destruct (decide ((i - 1) / 2 = c)) as [E|E].
    { rewrite E, Hkc. apply Hup; [lia|lia|done]. }
    destruct (decide ((i - 1) / 2 = p)) as [E'|E'].
    { rewrite E', Hkp. eapply Qle_trans; [|apply Qlt_le_weak, Hkey].
      rewrite <- E'. by apply Hout. }
    rewrite (Hko ((i - 1) / 2)) by div_lia. by apply Hout.
  - intros Hp1 i Hi Hpar. rewrite Hlen in Hi.
    assert (key_at st h p <= key_at st h ((p - 1) / 2))%Q as Hpp.
    { apply Hout; div_lia. }
    rewrite (Hko ((p - 1) / 2)) by div_lia.
    destruct (decide (i = c)) as [->|Hic]; [by rewrite Hkc|].
    rewrite (Hko i) by div_lia.
    eapply Qle_trans; [|exact Hpp].
    rewrite <- Hpar. by apply Hout.
Qed.

Lemma heapify_up_loop_ordered fuel : forall st h c h',
  0 <= c < PyList.len (heap h) -> ordered_up st h c ->
  heapify_up_loop fuel st h ((c - 1) / 2) c = Ok h' ->
  heap_ordered st h'.
Proof.
  induction fuel as [|fuel IH]; intros st h c h' Hc Hou Hrun;
    [discriminate|].
  simpl in Hrun.
  destruct (decide (c = 0)) as [->|Hc0].
  - assert (h' = h) as ->.
    { change ((0 - 1) / 2) with (-1) in Hrun.
      destruct (PyList.getitem (heap h) (-1)); try discriminate.
      cbn [bind] in Hrun.
      destruct (PyList.getitem (heap h) 0); try discriminate.
      cbn [bind] in Hrun.
      destruct (key_lt _ _); simpl in Hrun; congruence. }
    intros i Hi. apply Hou; lia.
  - pose proof (parent_bounds c ltac:(lia)) as Hp.
    rewrite !getitem_total in Hrun by lia. cbn [bind] in Hrun.
    fold (key_at st h ((c - 1) / 2)) in Hrun. fold (key_at st h c) in Hrun.
    destruct (key_lt _ _) eqn:E.
    2:{ injection Hrun as <-. intros i Hi.
        destruct (decide (i = c)) as [->|Hic]; [by apply key_lt_false|].
        by apply Hou. }
    apply key_lt_true in E.
    destruct (Z.eqb_spec ((c - 1) / 2) (-1)); [lia|].
    destruct (swap_step st h _ c) as [h1| |] eqn:Hs; try discriminate.
    cbn [bind] in Hrun.
    pose proof (ordered_up_swap st h c h1 ltac:(lia) Hou E Hs) as Hou1.
    destruct (swap_step_key_at st h ((c - 1) / 2) c h1 ltac:(lia) ltac:(lia) Hs)
      as (Hlen & _ & _).
    apply (IH st h1 ((c - 1) / 2) h'); [lia|done|done].
Qed.

Lemma heapify_up_ordered st h c h' :
  0 <= c < PyList.len (heap h) -> ordered_up st h c ->
  heapify_up st h c = Ok h' -> heap_ordered st h'.
Proof. intros Hc Hou Hrun. by eapply heapify_up_loop_ordered. Qed.

Lemma key_at_app st h l m i :
  0 <= i < PyList.len (heap h) ->
  key_at st {| heap := PyList.append (heap h) l; mapping := m;
               sorting_key := sorting_key h |} i
  = key_at st h i.
Proof.
  intros Hi. unfold key_at, key_of, PyList.append. simpl.
  unfold PyList.len in Hi. by rewrite lookup_total_app_l by lia.
Qed.

Lemma insert_ordered st h l h' :
  heap_ordered st h -> insert st h l = Ok h' -> heap_ordered st h'.
Proof.
  intros Ho Hrun. unfold insert in Hrun.
  pose proof (PyListFacts.len_app (heap h) l) as Hlen.
  eapply heapify_up_ordered; [| |exact Hrun]; simpl.
  - unfold PyList.len in *. lia.
  - rewrite Hlen. split.
    + intros i Hi Hne. simpl in Hi. rewrite Hlen in Hi.
      rewrite !key_at_app by div_lia. apply Ho. lia.
    + intros _ i Hi Hpar. simpl in Hi. rewrite Hlen in Hi.
      unfold PyList.len in *. div_lia.
Qed.

(** On a heap that satisfies the invariant both sifts change nothing. *)
Lemma heapify_up_ordered_noop st h c :
  heap_ordered st h -> 0 <= c < PyList.len (heap h) ->
  heapify_up st h c = Ok h.
Proof.
  intros Ho Hc. unfold heapify_up. cbn [heapify_up_loop].
  destruct (decide (c = 0)) as [->|Hc0].
  - change ((0 - 1) / 2) with (-1).
    destruct (last (heap h)) as [x|] eqn:Hlast.
    2:{ apply last_None in Hlast. rewrite Hlast in Hc.
        unfold PyList.len in Hc. simpl in Hc. lia. }
    rewrite (PyListFacts.getitem_minus_one _ _ Hlast). cbn [bind].
    rewrite getitem_total by lia. cbn [bind].
    by destruct (key_lt _ _).
  - pose proof (parent_bounds c ltac:(lia)) as Hp.
    rewrite !getitem_total by lia. cbn [bind].
    fold (key_at st h ((c - 1) / 2)). fold (key_at st h c).
    destruct (key_lt _ _) eqn:E; [|done].
    apply key_lt_true in E. specialize (Ho c ltac:(lia)).
    exfalso. by apply (Qlt_not_le _ _ E).
Qed.

Lemma heapify_down_ordered_noop st h p :
  heap_ordered st h -> 0 <= p -> heapify_down st h p = Ok h.
Proof.
  intros Ho Hp. unfold heapify_down.
  destruct (pick_child_largest st h p Hp)
    as [[-> _]|(c & -> & Hc12 & Hlt & _)]; cbn [bind]; [done|].
  cbn [heapify_down_loop].
  rewrite !getitem_total by lia. cbn [bind].
  fold (key_at st h p). fold (key_at st h c).
  destruct (key_lt _ _) eqn:E; [|done].
  apply key_lt_true in E. specialize (Ho c ltac:(lia)).
  replace ((c - 1) / 2) with p in Ho by div_lia.
  exfalso. by apply (Qlt_not_le _ _ E).
Qed.
End sift_up_order.

(** ** What the sifts keep *)

Section sift_invariant.
Implicit Types (st : list PlayerRecord) (h : Heap).

(** Anything that in-range swaps keep, [heapify_up] keeps. *)
Lemma heapify_up_loop_invariant (P : Heap -> Prop) st :
  (forall h p c h1, 0 <= p < c -> c < PyList.len (heap h) -> P h ->
     swap_step st h p c = Ok h1 -> P h1) ->
  forall fuel h c h', 0 <= c < PyList.len (heap h) -> P h ->
    heapify_up_loop fuel st h ((c - 1) / 2) c = Ok h' -> P h'.
Proof.
  intros Hstep. induction fuel as [|fuel IH]; intros h c h' Hc HP Hrun;
    [discriminate|].
  simpl in Hrun.
  destruct (PyList.getitem (heap h) ((c - 1) / 2)); try discriminate.
  cbn [bind] in Hrun.
  destruct (PyList.getitem (heap h) c); try discriminate.
  cbn [bind] in Hrun.
  destruct (key_lt _ _); [|congruence].
  destruct (Z.eqb_spec ((c - 1) / 2) (-1)) as [|Hne]; [congruence|].
  destruct (swap_step st h ((c - 1) / 2) c) as [h1| |] eqn:Hs;
    try discriminate.
  cbn [bind] in Hrun.
  assert (1 <= c) as Hc1 by div_lia.
  pose proof (parent_bounds c Hc1) as Hp.
  apply (IH h1 ((c - 1) / 2) h'); [| |done].
  - unfold PyList.len in *. rewrite (swap_step_length _ _ _ _ _ Hs). lia.
  - apply (Hstep h ((c - 1) / 2) c h1); [lia|lia|done|done].
Qed.

Lemma heapify_up_invariant (P : Heap -> Prop) st h c h' :
  (forall h p c h1, 0 <= p < c -> c < PyList.len (heap h) -> P h ->
     swap_step st h p c = Ok h1 -> P h1) ->
  0 <= c < PyList.len (heap h) -> P h ->
  heapify_up st h c = Ok h' -> P h'.
Proof. intros Hstep Hc HP Hrun. by eapply heapify_up_loop_invariant. Qed.

(** Anything that in-range swaps keep, [heapify_down] keeps. *)
Lemma heapify_down_loop_invariant (P : Heap -> Prop) st :
  (forall h p c h1, 0 <= p < c -> c < PyList.len (heap h) -> P h ->
     swap_step st h p c = Ok h1 -> P h1) ->
  forall fuel h p c h', 0 <= p < c -> P h ->
    heapify_down_loop fuel st h p c = Ok h' -> P h'.
Proof.
  intros Hstep. induction fuel as [|fuel IH]; intros h p c h' Hp HP Hrun;
    [discriminate|].
  simpl in Hrun.
  destruct (PyList.getitem (heap h) p); try discriminate.
  cbn [bind] in Hrun.
  destruct (PyList.getitem (heap h) c); try discriminate.
  cbn [bind] in Hrun.
  destruct (key_lt _ _); [|congruence].
  destruct (Z.leb_spec (PyList.len (heap h)) c) as [|Hlt]; [congruence|].
  destruct (swap_step st h p c) as [h1| |] eqn:Hs; try discriminate.
  cbn [bind] in Hrun.
  pose proof (Hstep h p c h1 Hp Hlt HP Hs) as HP1.
  destruct (pick_child st h1 c) as [[c'|]| |] eqn:Hpick; try discriminate;
    cbn [bind] in Hrun; [|congruence].
  apply pick_child_children in Hpick.
  apply (IH h1 c c' h'); [lia|done|done].
Qed.

Lemma heapify_down_invariant (P : Heap -> Prop) st h p h' :
  (forall h p c h1, 0 <= p < c -> c < PyList.len (heap h) -> P h ->
     swap_step st h p c = Ok h1 -> P h1) ->
  0 <= p -> P h -> heapify_down st h p = Ok h' -> P h'.
Proof.
  intros Hstep Hp HP Hrun. unfold heapify_down in Hrun.
  destruct (pick_child st h p) as [[c|]| |] eqn:Hpick; try discriminate;
    cbn [bind] in Hrun; [|congruence].
  apply pick_child_children in Hpick.
  eapply heapify_down_loop_invariant; [exact Hstep| |exact HP|exact Hrun].
  lia.
Qed.

Lemma distinct_players_perm st h h' :
  heap h' ≡ₚ heap h -> distinct_players st h -> distinct_players st h'.
Proof. unfold distinct_players, identities. by intros ->. Qed.

Lemma distinct_players_index st h i j :
  distinct_players st h ->
  0 <= i < PyList.len (heap h) -> 0 <= j < PyList.len (heap h) ->
  player_at st h i = player_at st h j -> i = j.
Proof.
  unfold distinct_players, identities, player_at, PyList.len.
  intros Hnd Hi Hj E.
  assert (Z.to_nat i = Z.to_nat j); [|lia].
  eapply NoDup_lookup; [exact Hnd| |].
  - rewrite list_lookup_fmap.
    rewrite (list_lookup_lookup_total_lt (heap h) (Z.to_nat i)) by lia.
    reflexivity.
  - rewrite list_lookup_fmap.
    rewrite (list_lookup_lookup_total_lt (heap h) (Z.to_nat j)) by lia.
    simpl. by rewrite E.
Qed.

(** One swap sets the mapping right at both slots and leaves it as it was
    at the others. *)
Lemma swap_step_consistent s st h p c h1 :
  0 <= s -> 0 <= p < c -> c < PyList.len (heap h) ->
  distinct_players st h /\ consistent_from s st h ->
  swap_step st h p c = Ok h1 ->
  distinct_players st h1 /\ consistent_from s st h1.
Proof.
  intros Hs0 Hp Hc [Hnd Hcons] Hs.
  pose proof (distinct_players_index st h p c Hnd ltac:(lia) ltac:(lia))
    as Hpc.
  pose proof (fun i Hi => distinct_players_index st h i p Hnd Hi ltac:(lia))
    as Hip.
  pose proof (fun i Hi => distinct_players_index st h i c Hnd Hi ltac:(lia))
    as Hic.
  unfold PyList.len in *.
  rewrite (swap_step_nonneg st h p c (heap h !!! Z.to_nat p)
             (heap h !!! Z.to_nat c)) in Hs;
    [|lia|lia|apply list_lookup_lookup_total_lt; lia..].
  injection Hs as <-.
  split.
  { unfold distinct_players, identities in *. simpl.
    rewrite PyListFacts.swap_Permutation; [done|..];
      apply list_lookup_lookup_total_lt; lia. }
  intros i Hi. simpl in Hi. unfold PyList.len in Hi.
  rewrite !length_insert in Hi.
  unfold player_at in *. simpl.
  destruct (decide (i = c)) as [->|Hne_c].
  { rewrite list_lookup_total_insert_eq by (rewrite length_insert; lia).
    rewrite lookup_insert_ne by (intros E; symmetry in E; apply Hpc in E; lia).
    by rewrite lookup_insert_eq. }
  rewrite list_lookup_total_insert_ne by lia.
  destruct (decide (i = p)) as [->|Hne_p].
  { rewrite list_lookup_total_insert_eq by lia. by rewrite lookup_insert_eq. }
  rewrite list_lookup_total_insert_ne by lia.
  rewrite lookup_insert_ne
    by (intros E; symmetry in E; apply Hic in E; lia).
  rewrite lookup_insert_ne
    by (intros E; symmetry in E; apply Hip in E; lia).
  apply Hcons. unfold PyList.len. lia.
Qed.

Lemma heapify_up_consistent s st h c h' :
  0 <= s -> 0 <= c < PyList.len (heap h) ->
  distinct_players st h -> consistent_from s st h ->
  heapify_up st h c = Ok h' ->
  distinct_players st h' /\ consistent_from s st h'.
Proof.
  intros Hs Hc Hnd Hcons Hrun.
  eapply (heapify_up_invariant
            (fun h => distinct_players st h /\ consistent_from s st h));
    [|exact Hc|by split|exact Hrun].
  intros h0 p0 c0 h1 Hp0 Hc0 HP Hswap.
  by apply (swap_step_consistent s st h0 p0 c0 h1).
Qed.

Lemma heapify_down_consistent s st h p h' :
  0 <= s -> 0 <= p ->
  distinct_players st h -> consistent_from s st h ->
  heapify_down st h p = Ok h' ->
  distinct_players st h' /\ consistent_from s st h'.
Proof.
  intros Hs Hp Hnd Hcons Hrun.
  eapply (heapify_down_invariant
            (fun h => distinct_players st h /\ consistent_from s st h));
    [|exact Hp|by split|exact Hrun].
  intros h0 p0 c0 h1 Hp0 Hc0 HP Hswap.
  by apply (swap_step_consistent s st h0 p0 c0 h1).
Qed.

(** [insert] of a record whose identity is not in the array keeps the
    mapping right and sets it right for the new record. *)
Lemma insert_consistent s st h l h' :
  0 <= s -> distinct_players st h ->
  player (deref st l) ∉ identities st (heap h) ->
  consistent_from s st h ->
  insert st h l = Ok h' ->
  distinct_players st h' /\ consistent_from s st h'.
Proof.
  intros Hs Hnd Hfresh Hcons Hrun. unfold insert in Hrun.
  pose proof (PyListFacts.len_app (heap h) l) as Hlen.
  eapply heapify_up_consistent; [exact Hs| | | |exact Hrun]; simpl.
  - unfold PyList.len in *. lia.
  - unfold distinct_players, identities, PyList.append in *. simpl.
    rewrite fmap_app. simpl. apply NoDup_app. split; [done|]. split.
    + intros x Hx ->%list_elem_of_singleton. done.
    + apply NoDup_singleton.
  - intros i Hi. simpl in Hi. rewrite Hlen in Hi.
    unfold player_at, PyList.append in *. simpl. unfold PyList.len in *.
    destruct (decide (i = Z.of_nat (length (heap h)))) as [->|Hne].
    + rewrite Nat2Z.id, list_lookup_total_middle by done.
      rewrite length_app. simpl.
      replace (Z.of_nat (length (heap h) + 1) - 1)
        with (Z.of_nat (length (heap h))) by lia.
      by rewrite lookup_insert_eq.
    + rewrite lookup_total_app_l by lia.
      rewrite lookup_insert_ne; [apply Hcons; unfold PyList.len; lia|].
      intros E. apply Hfresh. rewrite E.
      unfold identities. apply list_elem_of_fmap.
      eexists. split; [reflexivity|].
      apply list_elem_of_lookup_total_2. lia.
Qed.

(** [extract_max] leaves the mapping right below the root: the record it
    moves to the root keeps the index of the last slot. *)
Lemma extract_max_consistent s st h x r h' :
  0 <= s <= 1 -> heap h = x :: r ->
  distinct_players st h -> consistent_from s st h ->
  extract_max st h = Ok (Some x, h') ->
  distinct_players st h' /\ consistent_from 1 st h'.
Proof.
  intros Hs E Hnd Hcons Hrun.
  rewrite (extract_max_unfold st h x r E) in Hrun.
  destruct (heapify_down st _ 0) as [h1| |] eqn:Hd; try discriminate.
  cbn [bind] in Hrun. injection Hrun as <-.
  eapply (heapify_down_consistent 1 st _ 0); [lia|lia| | |exact Hd].
  - unfold distinct_players, identities in *. simpl. rewrite E in Hnd.
    destruct (decide (r = [])) as [->|Hr]; [simpl; apply NoDup_nil_2|].
    destruct (exists_last Hr) as (r' & z & ->).
    rewrite last_snoc, removelast_last.
    rewrite fmap_cons, fmap_app in Hnd. simpl in Hnd.
    apply NoDup_cons in Hnd as [_ Hnd].
    rewrite fmap_cons. by rewrite Permutation_cons_append.
  - intros i Hi. simpl in Hi. unfold player_at. simpl.
    destruct (decide (r = [])) as [->|Hr].
    { simpl in Hi. unfold PyList.len in Hi. simpl in Hi. lia. }
    destruct (exists_last Hr) as (r' & z & ->).
    rewrite last_snoc, removelast_last in *.
    unfold PyList.len in Hi. simpl in Hi.
    specialize (Hcons i). unfold player_at, PyList.len in Hcons.
    rewrite E in Hcons. simpl in Hcons. rewrite length_app in Hcons.
    simpl in Hcons.
    replace (Z.to_nat i) with (S (Z.to_nat (i - 1))) in * by lia.
    simpl in *. rewrite lookup_total_app_l in Hcons by lia.
    apply Hcons. lia.
Qed.
End sift_invariant.

(** ** What extracting and reinserting keeps *)

Section requery.
Implicit Types (st : list PlayerRecord) (h : Heap).

Lemma consistent_from_weaken s s' st h :
  s <= s' -> consistent_from s st h -> consistent_from s' st h.
Proof. intros Hs Hc i Hi. apply Hc. lia. Qed.

Lemma extract_max_Some_inv st h o h' :
  extract_max st h = Ok (o, h') ->
  match heap h with
  | [] => o = None /\ h' = h
  | x :: r => o = Some x /\ heap h' ≡ₚ r
  end.
Proof.
  intros Hrun. destruct (heap h) as [|x r] eqn:E.
  - rewrite (extract_max_nil st h E) in Hrun. by injection Hrun as <- <-.
  - destruct (extract_max_spec st h x r E) as (h1 & Hh1 & Hp & _).
    rewrite Hh1 in Hrun. by injection Hrun as <- <-.
Qed.

Lemma extract_many_keeps n : forall st h out out' h',
  (n <= length (heap h))%nat ->
  extract_many n st h out = Ok (out', h') ->
  (heap_ordered st h -> heap_ordered st h') /\
  (distinct_players st h -> consistent_from 1 st h ->
   consistent_from 1 st h').
Proof.
  induction n as [|n IH]; intros st h out out' h' Hn Hrun.
  { simpl in Hrun. injection Hrun as <- <-. done. }
  destruct (heap h) as [|x r] eqn:E; [simpl in Hn; lia|].
  destruct (extract_max_spec st h x r E) as (h1 & Hh1 & Hp1 & _).
  simpl in Hrun. rewrite Hh1 in Hrun. cbn [bind fst snd] in Hrun.
  apply IH in Hrun as [Ho Hc]; [|rewrite Hp1; simpl in Hn; lia].
  split.
  - intros Hord. apply Ho.
    destruct (extract_max_ordered st h x r Hord E) as (h2 & Hh2 & _ & _ & ?).
    rewrite Hh1 in Hh2. by injection Hh2 as ->.
  - intros Hnd Hcons.
    destruct (extract_max_consistent 1 st h x r h1 ltac:(lia) E Hnd Hcons Hh1)
      as [Hnd1 Hc1].
    by apply Hc.
Qed.

Lemma insert_all_keeps xs : forall st h h',
  insert_all st h (Some <$> xs) = Ok h' ->
  (heap_ordered st h -> heap_ordered st h') /\
  (forall s, 0 <= s -> NoDup (identities st (heap h ++ xs)) ->
     consistent_from s st h -> consistent_from s st h').
Proof.
  induction xs as [|x xs IH]; intros st h h' Hrun.
  { simpl in Hrun. injection Hrun as <-. split; [done|]. by intros. }
  rewrite fmap_cons in Hrun. cbn [insert_all] in Hrun.
  destruct (insert st h x) as [h1| |] eqn:Hins; try discriminate.
  cbn [bind] in Hrun.
  destruct (insert_spec st h x) as (h1' & Hh1 & Hp1 & _).
  assert (h1' = h1) as -> by congruence.
  apply IH in Hrun as [Ho Hc]. split.
  - intros Hord. apply Ho. by eapply insert_ordered.
  - intros s Hs Hnd Hcons.
    unfold identities in Hnd. rewrite fmap_app, fmap_cons in Hnd.
    assert (distinct_players st h) as Hndh.
    { by apply NoDup_app in Hnd as (? & _ & _). }
    assert (player (deref st x) ∉ identities st (heap h)) as Hfresh.
    { apply NoDup_app in Hnd as (_ & Hdisj & _). intros Hin.
      apply (Hdisj _ Hin). by left. }
    destruct (insert_consistent s st h x h1 Hs Hndh Hfresh Hcons Hins)
      as [Hnd1 Hc1].
    apply (Hc s Hs); [|done].
    unfold identities. rewrite Hp1, <- app_assoc, fmap_app. simpl.
    exact Hnd.
Qed.

Lemma set_heap_same p a : set_heap p a (get_heap p a) = p.
Proof. by destruct p, a. Qed.

(** What one [current_best] on a tracked attribute keeps in the heap it
    queries. *)
Lemma current_best_keeps p stat a k p' out :
  select_stat stat = Some a ->
  current_best p stat k = Ok (p', out) ->
  objects p' = objects p /\
  (heap_ordered (objects p) (get_heap p a) ->
   heap_ordered (objects p) (get_heap p' a)) /\
  (distinct_players (objects p) (get_heap p a) ->
   consistent_from 1 (objects p) (get_heap p a) ->
   consistent_from 1 (objects p) (get_heap p' a)) /\
  (k <= 0 -> p' = p /\ out = Some []).
Proof.
  intros Hsel Hrun. unfold current_best in Hrun. rewrite Hsel in Hrun.
  set (h := get_heap p a) in *.
  set (n := Z.to_nat (Z.min k (PyList.len (heap h)))) in *.
  destruct (extract_many n (objects p) h []) as [[out1 h1]| |] eqn:Hex;
    try discriminate.
  cbn [bind fst snd] in Hrun.
  destruct (insert_all (objects p) h1 out1) as [h2| |] eqn:Hins;
    try discriminate.
  cbn [bind] in Hrun. injection Hrun as <- <-.
  assert (n <= length (heap h))%nat as Hn
    by (unfold n, PyList.len; lia).
  destruct (extract_many_spec n (objects p) h [] Hn)
    as (xs & h1' & Hex' & Hlen & Hp & _).
  rewrite Hex in Hex'. injection Hex' as -> <-. simpl in Hins.
  destruct (extract_many_keeps n _ _ _ _ _ Hn Hex) as [Ho1 Hc1].
  destruct (insert_all_keeps xs _ _ _ Hins) as [Ho2 Hc2].
  rewrite get_set_heap, decide_True by done.
  split; [done|]. split; [auto|]. split.
  - intros Hnd Hcons. apply (Hc2 1); [lia| |by apply Hc1].
    unfold distinct_players, identities in *.
    by rewrite <- (Permutation_app_comm xs), <- Hp.
  - intros Hk. assert (n = 0%nat) as Hn0 by (unfold n; lia).
    rewrite Hn0 in Hex. simpl in Hex. injection Hex as Hxs <-.
    destruct xs; [|discriminate]. simpl in Hins. injection Hins as <-.
    by rewrite set_heap_same.
Qed.
End requery.

(** ** Repairing a heap after an update in place *)

Section update.
Implicit Types (st : list PlayerRecord) (h : Heap) (prm : gmap string loc).

Lemma heap_inv_distinct st prm h :
  records_inv st prm -> heap_inv prm h -> distinct_players st h.
Proof.
  intros Hrec (Hnd & Hin & _ & _). unfold distinct_players, identities.
  apply NoDup_fmap_2_strong; [|done].
  intros x y [n Hn]%Hin [m Hm]%Hin E.
  destruct (Hrec n x Hn) as (_ & Hx & _).
  destruct (Hrec m y Hm) as (_ & Hy & _).
  assert (n = m) as -> by congruence. congruence.
Qed.

Lemma ordered_up_root st h : ordered_up st h 0 -> heap_ordered st h.
Proof. intros [Hout _] i Hi. apply Hout; lia. Qed.

Lemma ordered_up_of_increase st st' h j :
  heap_ordered st h -> 0 <= j < PyList.len (heap h) ->
  (forall i, 0 <= i < PyList.len (heap h) -> i <> j ->
     key_at st' h i = key_at st h i) ->
  (key_at st h j <= key_at st' h j)%Q ->
  ordered_up st' h j.
Proof.
  intros Ho Hj Hsame Hinc.
  assert (forall i, 0 <= i < PyList.len (heap h) ->
            (key_at st h i <= key_at st' h i)%Q) as Hle.
  { intros i Hi. destruct (decide (i = j)) as [->|Hne]; [done|].
    rewrite Hsame by done. apply Qle_refl. }
  split.
  - intros i Hi Hne. rewrite (Hsame i) by lia.
    eapply Qle_trans; [by apply Ho|]. apply Hle. div_lia.
  - intros Hj1 i Hi Hpar. rewrite (Hsame i) by div_lia.
    rewrite (Hsame ((j - 1) / 2)) by div_lia.
    eapply Qle_trans; [by apply Ho|]. rewrite Hpar. apply Ho. lia.
Qed.

Lemma ordered_but_of_decrease st st' h j :
  heap_ordered st h -> 0 <= j < PyList.len (heap h) ->
  (forall i, 0 <= i < PyList.len (heap h) -> i <> j ->
     key_at st' h i = key_at st h i) ->
  (key_at st' h j <= key_at st h j)%Q ->
  ordered_but st' h j.
Proof.
  intros Ho Hj Hsame Hdec. split.
  - intros i Hi Hpar. rewrite (Hsame ((i - 1) / 2)) by div_lia.
    destruct (decide (i = j)) as [->|Hne].
    + eapply Qle_trans; [exact Hdec|]. by apply Ho.
    + rewrite (Hsame i) by lia. by apply Ho.
  - intros Hj1 i Hi Hpar. rewrite (Hsame i) by div_lia.
    rewrite (Hsame ((j - 1) / 2)) by div_lia.
    eapply Qle_trans; [by apply Ho|]. rewrite Hpar. apply Ho. lia.
Qed.

(** Writing a record with the same identity back to its location changes
    no identity, and no key but the one of that location. *)
Lemma update_player st l r' x :
  (l < length st)%nat -> player r' = player (deref st l) ->
  player (deref (<[l := r']> st) x) = player (deref st x).
Proof.
  intros Hl Hp. unfold deref in *. destruct (decide (l = x)) as [<-|Hne].
  - by rewrite list_lookup_total_insert_eq.
  - by rewrite list_lookup_total_insert_ne.
Qed.

Lemma update_player_at st h l r' i :
  (l < length st)%nat -> player r' = player (deref st l) ->
  player_at (<[l := r']> st) h i = player_at st h i.
Proof. intros. unfold player_at. by apply update_player. Qed.

Lemma update_consistent s st h l r' :
  (l < length st)%nat -> player r' = player (deref st l) ->
  consistent_from s st h -> consistent_from s (<[l := r']> st) h.
Proof.
  intros Hl Hp Hc i Hi. rewrite update_player_at by done. by apply Hc.
Qed.

Lemma update_distinct st h l r' :
  (l < length st)%nat -> player r' = player (deref st l) ->
  distinct_players st h -> distinct_players (<[l := r']> st) h.
Proof.
  intros Hl Hp. unfold distinct_players, identities.
  assert ((fun x => player (deref (<[l := r']> st) x)) <$> heap h
          = (fun x => player (deref st x)) <$> heap h) as ->; [|done].
  apply list_fmap_ext. intros _ x _. by apply update_player.
Qed.

(** Where the updated record sits in the array, and what the update does
    to the keys. *)
Lemma update_keys st prm h name l r' :
  records_inv st prm -> heap_inv prm h ->
  prm !! name = Some l ->
  exists j, 0 <= j < PyList.len (heap h) /\
    heap h !!! Z.to_nat j = l /\
    player_at st h j = Some name /\
    key_at st h j = getattr (deref st l) (sorting_key h) /\
    key_at (<[l := r']> st) h j = getattr r' (sorting_key h) /\
    forall i, 0 <= i < PyList.len (heap h) -> i <> j ->
      key_at (<[l := r']> st) h i = key_at st h i.
Proof.
  intros Hrec (Hnd & Hin & _ & _) Hl.
  destruct (Hrec name l Hl) as (Hlt & Hname & _).
  assert (l ∈ heap h) as [jn Hjn]%list_elem_of_lookup by (apply Hin; eauto).
  pose proof (lookup_lt_Some _ _ _ Hjn) as Hjlt.
  exists (Z.of_nat jn). unfold PyList.len, player_at, key_at, key_of, deref.
  rewrite Nat2Z.id, (list_lookup_total_correct _ _ _ Hjn).
  split; [lia|]. split; [done|]. split; [done|]. split; [done|].
  split; [by rewrite list_lookup_total_insert_eq|].
  intros i Hi Hne. rewrite list_lookup_total_insert_ne; [done|].
  intros E. apply Hne.
  assert (Z.to_nat i = jn); [|lia].
  eapply NoDup_lookup; [exact Hnd| |exact Hjn].
  rewrite E. apply list_lookup_lookup_total_lt. lia.
Qed.

(** The key of the updated record did not decrease and the heap is sifted
    up from the index the mapping gives. The mapping may be wrong for the
    root only: if the record is the root the heap is still ordered and
    the sift, wherever it starts, changes nothing. *)
Lemma update_sift_up st prm h name l r' h' :
  records_inv st prm -> heap_inv prm h ->
  prm !! name = Some l -> player r' = Some name ->
  (getattr (deref st l) (sorting_key h) <= getattr r' (sorting_key h))%Q ->
  heap_ordered st h -> consistent_from 1 st h ->
  sift_at heapify_up (<[l := r']> st) h l = Ok h' ->
  heap_ordered (<[l := r']> st) h'.
Proof.
  intros Hrec Hinv Hl Hname Hinc Ho Hcons Hrun.
  destruct (Hrec name l Hl) as (Hlt & Hname0 & _).
  destruct (update_keys st prm h name l r' Hrec Hinv Hl)
    as (j & Hj & Hjl & Hpj & Hkj & Hkj' & Hsame).
  pose proof (ordered_up_of_increase st (<[l := r']> st) h j Ho Hj Hsame
                ltac:(by rewrite Hkj, Hkj')) as Hou.
  destruct Hinv as (_ & _ & Hb & Hdom).
  unfold sift_at, get_index in Hrun.
  rewrite update_player in Hrun by congruence. rewrite Hname0 in Hrun.
  destruct (mapping h !! Some name) as [i|] eqn:Hi; [|discriminate].
  pose proof (Hb _ _ Hi) as Hir. simpl in Hir.
  destruct (decide (j = 0)) as [->|Hj0].
  - apply ordered_up_root in Hou.
    rewrite (heapify_up_ordered_noop _ _ _ Hou Hir) in Hrun.
    by injection Hrun as <-.
  - assert (i = j) as ->.
    { specialize (Hcons j ltac:(lia)). rewrite Hpj in Hcons. congruence. }
    by eapply heapify_up_ordered.
Qed.

(** The key of the updated record did not increase and the heap is sifted
    down from the index the mapping gives; here the mapping has to be
    right for the root too. *)
Lemma update_sift_down st prm h name l r' h' :
  records_inv st prm -> heap_inv prm h ->
  prm !! name = Some l -> player r' = Some name ->
  (getattr r' (sorting_key h) <= getattr (deref st l) (sorting_key h))%Q ->
  heap_ordered st h -> consistent_from 0 st h ->
  sift_at heapify_down (<[l := r']> st) h l = Ok h' ->
  heap_ordered (<[l := r']> st) h'.
Proof.
  intros Hrec Hinv Hl Hname Hdec Ho Hcons Hrun.
  destruct (Hrec name l Hl) as (Hlt & Hname0 & _).
  destruct (update_keys st prm h name l r' Hrec Hinv Hl)
    as (j & Hj & Hjl & Hpj & Hkj & Hkj' & Hsame).
  pose proof (ordered_but_of_decrease st (<[l := r']> st) h j Ho Hj Hsame
                ltac:(by rewrite Hkj, Hkj')) as Hob.
  unfold sift_at, get_index in Hrun.
  rewrite update_player in Hrun by congruence. rewrite Hname0 in Hrun.
  specialize (Hcons j ltac:(lia)). rewrite Hpj in Hcons.
  rewrite Hcons in Hrun.
  eapply heapify_down_ordered; [|exact Hob|exact Hrun]. lia.
Qed.

Lemma update_sift_consistent s sift st prm h name l r' h' :
  sift = heapify_up \/ sift = heapify_down ->
  0 <= s -> records_inv st prm -> heap_inv prm h ->
  prm !! name = Some l -> player r' = Some name ->
  consistent_from s st h ->
  sift_at sift (<[l := r']> st) h l = Ok h' ->
  consistent_from s (<[l := r']> st) h'.
Proof.
  intros Hsift Hs Hrec Hinv Hl Hname Hcons Hrun.
  destruct (Hrec name l Hl) as (Hlt & Hname0 & _).
  pose proof (heap_inv_distinct st prm h Hrec Hinv) as Hnd.
  apply (update_distinct st h l r' Hlt ltac:(congruence)) in Hnd.
  apply (update_consistent s st h l r' Hlt ltac:(congruence)) in Hcons.
  destruct Hinv as (_ & _ & Hb & _).
  unfold sift_at in Hrun.
  destruct (get_index _ h l) as [i|] eqn:Hi; [|discriminate].
  pose proof (Hb _ _ Hi) as Hir. simpl in Hir.
  destruct Hsift as [-> | ->].
  - by eapply heapify_up_consistent.
  - eapply heapify_down_consistent; [exact Hs| | | |exact Hrun];
      [lia|done|done].
Qed.

(** Records allocated later change nothing for a heap that refers to
    records allocated before. *)
Lemma alloc_heap st h r :
  (forall x, x ∈ heap h -> (x < length st)%nat) ->
  (heap_ordered st h -> heap_ordered (st ++ [r]) h) /\
  (forall s, 0 <= s -> consistent_from s st h ->
     consistent_from s (st ++ [r]) h) /\
  (distinct_players st h -> distinct_players (st ++ [r]) h).
Proof.
  intros Hlt.
  assert (forall x, x ∈ heap h -> deref (st ++ [r]) x = deref st x) as Hsame.
  { intros x Hx. unfold deref. rewrite lookup_total_app_l; [done|].
    by apply Hlt. }
  assert (forall i, 0 <= i < PyList.len (heap h) ->
            deref (st ++ [r]) (heap h !!! Z.to_nat i)
            = deref st (heap h !!! Z.to_nat i)) as Hidx.
  { intros i Hi. apply Hsame, list_elem_of_lookup_total_2.
    unfold PyList.len in Hi. lia. }
  split; [|split].
  - intros Ho i Hi. unfold key_at, key_of. rewrite !Hidx by div_lia.
    by apply Ho.
  - intros s Hs Hc i Hi.
    unfold player_at. rewrite Hidx by lia. by apply Hc.
  - unfold distinct_players, identities. intros Hnd.
    assert ((fun x => player (deref (st ++ [r]) x)) <$> heap h
            = (fun x => player (deref st x)) <$> heap h) as ->; [|done].
    apply list_fmap_ext. intros i x Hx. rewrite Hsame; [done|].
    by eapply list_elem_of_lookup_2.
Qed.
End update.

(** ** Sessions that keep the heaps ordered *)

Section sessions.
Implicit Types (st : list PlayerRecord) (p : Problem).

Lemma float_div_le a b c d :
  0 < b -> 0 < d -> a * d <= c * b ->
  (float_div a b <= float_div c d)%Q.
Proof.
  intros Hb Hd Hle. destruct b as [|b|b]; try lia.
  destruct d as [|d|d]; try lia.
  unfold float_div, Qdiv, Qle, Qmult, Qinv, inject_Z. simpl.
  rewrite !Z.mul_1_r. lia.
Qed.

Lemma reachable_by_reachable obs qry p : reachable_by obs qry p -> reachable p.
Proof.
  induction 1; [apply reach_init|by eapply reach_new_at_bat
               |by eapply reach_current_stats|by eapply reach_current_best].
Qed.

Lemma reachable_reachable_by p :
  reachable p -> reachable_by (fun _ _ => True) (fun _ _ => True) p.
Proof.
  induction 1; [apply rb_init|by eapply rb_new_at_bat
               |by eapply rb_current_stats|by eapply rb_current_best].
Qed.

(** The heaps [new_at_bat] leaves for a tracked player. *)
Lemma new_at_bat_seen_heaps p name l (h r : Z) p' :
  Inv p -> player_record_mapping p !! name = Some l ->
  new_at_bat p name h r = Ok p' ->
  let st' :=
    <[l := {| player := Some name;
              ab := ab (deref (objects p) l) + 1;
              hits := hits (deref (objects p) l) + h;
              avg := float_div (hits (deref (objects p) l) + h)
                               (ab (deref (objects p) l) + 1);
              rbi := rbi (deref (objects p) l) + r |}]> (objects p) in
  forall a,
    match a with
    | Avg => if h =? 0 then sift_at heapify_down st' (get_heap p a) l
             else sift_at heapify_up st' (get_heap p a) l
    | _ => sift_at heapify_up st' (get_heap p a) l
    end = Ok (get_heap p' a).
Proof.
  intros [Hrec _] Hl Hrun. destruct (Hrec name l Hl) as (_ & Hname & Hab).
  unfold new_at_bat, dict_getitem in Hrun.
  rewrite (dict_contains_Some _ _ _ Hl), Hl in Hrun. cbn [bind] in Hrun.
  destruct (Z.eqb_spec (ab (deref (objects p) l) + 1) 0) as [?|_]; [lia|].
  rewrite Hname in Hrun.
  destruct (sift_at heapify_up _ (abHeap p) l) as [a1| |] eqn:E1;
    try discriminate. cbn [bind] in Hrun.
  destruct (sift_at heapify_up _ (hitsHeap p) l) as [a2| |] eqn:E2;
    try discriminate. cbn [bind] in Hrun.
  destruct (sift_at heapify_up _ (rbiHeap p) l) as [a3| |] eqn:E3;
    try discriminate. cbn [bind] in Hrun.
  destruct (if h =? 0 then _ else _) as [a4| |] eqn:E4;
    try discriminate. cbn [bind] in Hrun.
  injection Hrun as <-. intros st' a. by destruct a.
Qed.

(** The heaps [new_at_bat] leaves for a player seen for the first time. *)
Lemma new_at_bat_unseen_heaps p name (h r : Z) p' :
  player_record_mapping p !! name = None ->
  new_at_bat p name h r = Ok p' ->
  forall a,
    insert (objects p ++ [PlayerRecord_init (Some name) 1 h r])
      (get_heap p a) (length (objects p)) = Ok (get_heap p' a).
Proof.
  intros Hl Hrun. unfold new_at_bat in Hrun.
  rewrite (dict_contains_None _ _ Hl) in Hrun.
  destruct (insert _ (abHeap p) _) as [a1| |] eqn:E1;
    try discriminate. cbn [bind] in Hrun.
  destruct (insert _ (hitsHeap p) _) as [a2| |] eqn:E2;
    try discriminate. cbn [bind] in Hrun.
  destruct (insert _ (rbiHeap p) _) as [a3| |] eqn:E3;
    try discriminate. cbn [bind] in Hrun.
  destruct (insert _ (avgHeap p) _) as [a4| |] eqn:E4;
    try discriminate. cbn [bind] in Hrun.
  injection Hrun as <-. intros a. by destruct a.
Qed.

Lemma current_best_frame p stat a k p' out :
  select_stat stat = Some a ->
  current_best p stat k = Ok (p', out) ->
  player_record_mapping p' = player_record_mapping p /\
  forall b, b <> a -> get_heap p' b = get_heap p b.
Proof.
  intros Hsel Hrun.
  destruct (current_best_spec p stat a k Hsel) as (xs & h1 & h' & Hcb & _).
  rewrite Hcb in Hrun. injection Hrun as <- _. split; [by destruct a|].
  intros b Hb. rewrite get_set_heap. by rewrite decide_False.
Qed.

Lemma heap_locs_allocated p a x :
  Inv p -> x ∈ heap (get_heap p a) -> (x < length (objects p))%nat.
Proof.
  intros [Hrec Hheaps] Hx. destruct (Hheaps a) as [(_ & Hin & _) _].
  apply Hin in Hx as [n Hn]. by destruct (Hrec n x Hn).
Qed.

Lemma session_inv_init obs qry : session_inv obs qry Problem_init.
Proof.
  split; [apply Inv_init|]. split.
  { intros name l Hl. simpl in Hl. by rewrite lookup_empty in Hl. }
  split.
  { intros _ name l Hl. simpl in Hl. by rewrite lookup_empty in Hl. }
  intros a.
  assert (PyList.len (heap (get_heap Problem_init a)) = 0) as Hlen
    by (by destruct a).
  split; [|split].
  - intros i Hi. lia.
  - intros _ i Hi. lia.
  - intros _ i Hi. lia.
Qed.

Lemma session_inv_seen obs qry p name l (h r : Z) p' :
  session_inv obs qry p -> obs h r ->
  player_record_mapping p !! name = Some l ->
  new_at_bat p name h r = Ok p' -> session_inv obs qry p'.
Proof.
  intros (HI & Hstats & Hhits & Hheaps) Hobs Hl Hrun.
  destruct (new_at_bat_seen p name l h r HI Hl)
    as (p1 & Hp1 & HI' & Hobj & Hprm & _).
  assert (p1 = p') as -> by congruence.
  pose proof (new_at_bat_seen_heaps p name l h r p' HI Hl Hrun) as Hsift.
  simpl in Hsift. rewrite <- Hobj in Hsift.
  pose proof HI as [Hrec Hinv].
  destruct (Hrec name l Hl) as (Hlt & Hname & Hab).
  set (old := deref (objects p) l) in *.
  set (r' := {| player := Some name; ab := ab old + 1; hits := hits old + h;
                avg := float_div (hits old + h) (ab old + 1);
                rbi := rbi old + r |}) in *.
  assert (deref (objects p') l = r') as Hnew.
  { rewrite Hobj. unfold deref. by rewrite list_lookup_total_insert_eq. }
  assert (forall name' l', player_record_mapping p !! name' = Some l' ->
            l' <> l -> deref (objects p') l' = deref (objects p) l')
    as Hother.
  { intros name' l' Hl' Hne. rewrite Hobj. unfold deref.
    by rewrite list_lookup_total_insert_ne. }
  split; [done|]. rewrite Hprm. split; [|split].
  - intros name' l' Hl'. destruct (decide (l' = l)) as [->|Hne].
    + by rewrite Hnew.
    + rewrite (Hother name' l' Hl' Hne). by apply (Hstats name').
  - intros H01 name' l' Hl'. destruct (decide (l' = l)) as [->|Hne].
    + rewrite Hnew. simpl. specialize (Hhits H01 name l Hl).
      fold old in Hhits. destruct (H01 h r Hobs); lia.
    + rewrite (Hother name' l' Hl' Hne). by apply (Hhits H01 name').
  - intros a. destruct (Hinv a) as [Hia Hka].
    destruct (Hheaps a) as (Hc1 & Hc0 & Hord).
    specialize (Hsift a).
    assert (exists sift, (sift = heapify_up \/ sift = heapify_down) /\
              sift_at sift (objects p') (get_heap p a) l
              = Ok (get_heap p' a)) as (sift & Hsf & Hrun').
    { destruct a; try (exists heapify_up; split; [by left|done]).
      destruct (h =? 0);
        [exists heapify_down; split; [by right|done]
        |exists heapify_up; split; [by left|done]]. }
    rewrite Hobj in Hrun' |- *.
    split; [|split].
    + apply (update_sift_consistent 1 sift (objects p) (player_record_mapping p)
                (get_heap p a) name l r'); try done; lia.
    + intros Hnq.
      apply (update_sift_consistent 0 sift (objects p)
               (player_record_mapping p) (get_heap p a) name l r');
        try done; auto.
    + intros Hright. rewrite Hobj in Hsift.
      destruct a; simpl in Hright.
      * eapply (update_sift_up (objects p) (player_record_mapping p)
                  (get_heap p Ab) name l r');
          try done; [|by apply Hord].
        rewrite Hka. simpl. fold old. rewrite <- Zle_Qle. lia.
      * eapply (update_sift_up (objects p) (player_record_mapping p)
                  (get_heap p Hits) name l r');
          try done; [|by apply Hord].
        rewrite Hka. simpl. fold old. rewrite <- Zle_Qle.
        specialize (Hright h r Hobs). lia.
      * eapply (update_sift_up (objects p) (player_record_mapping p)
                  (get_heap p Rbi) name l r');
          try done; [|by apply Hord].
        rewrite Hka. simpl. fold old. rewrite <- Zle_Qle.
        specialize (Hright h r Hobs). lia.
      * destruct Hright as [H01 Hnq].
        specialize (Hhits H01 name l Hl). fold old in Hhits.
        specialize (Hstats name l Hl). fold old in Hstats.
        destruct (Z.eqb_spec h 0) as [->|Hh].
        -- eapply (update_sift_down (objects p) (player_record_mapping p)
                       (get_heap p Avg) name l r');
             try done; [|by apply Hord|by apply Hc0].
           rewrite Hka. simpl. fold old. rewrite Hstats.
           apply float_div_le; nia.
        -- assert (h = 1) as -> by (destruct (H01 h r Hobs); lia).
           eapply (update_sift_up (objects p) (player_record_mapping p)
                  (get_heap p Avg) name l r');
             try done; [|by apply Hord].
           rewrite Hka. simpl. fold old. rewrite Hstats.
           apply float_div_le; nia.
Qed.

Lemma session_inv_unseen obs qry p name (h r : Z) p' :
  session_inv obs qry p -> obs h r ->
  player_record_mapping p !! name = None ->
  new_at_bat p name h r = Ok p' -> session_inv obs qry p'.
Proof.
  intros (HI & Hstats & Hhits & Hheaps) Hobs Hl Hrun.
  destruct (new_at_bat_unseen p name h r HI Hl)
    as (p1 & Hp1 & HI' & Hobj & Hprm & _).
  assert (p1 = p') as -> by congruence.
  pose proof (new_at_bat_unseen_heaps p name h r p' Hl Hrun) as Hins.
  pose proof HI as [Hrec Hinv].
  set (rec := PlayerRecord_init (Some name) 1 h r) in *.
  assert (deref (objects p') (length (objects p)) = rec) as Hnew.
  { rewrite Hobj. unfold deref. by rewrite list_lookup_total_middle. }
  assert (forall name' l', player_record_mapping p !! name' = Some l' ->
            deref (objects p') l' = deref (objects p) l') as Hother.
  { intros name' l' Hl'. destruct (Hrec name' l' Hl') as (Hlt & _).
    rewrite Hobj. unfold deref. by rewrite lookup_total_app_l. }
  split; [done|]. rewrite Hprm. split; [|split].
  - intros name' l' Hl'. destruct (decide (name = name')) as [<-|Hne].
    + rewrite lookup_insert_eq in Hl'. injection Hl' as <-.
      by rewrite Hnew.
    + rewrite lookup_insert_ne in Hl' by done.
      rewrite (Hother name' l' Hl'). by apply (Hstats name').
  - intros H01 name' l' Hl'. destruct (decide (name = name')) as [<-|Hne].
    + rewrite lookup_insert_eq in Hl'. injection Hl' as <-.
      rewrite Hnew. simpl. destruct (H01 h r Hobs); lia.
    + rewrite lookup_insert_ne in Hl' by done.
      rewrite (Hother name' l' Hl'). by apply (Hhits H01 name').
  - intros a. destruct (Hinv a) as [Hia Hka].
    destruct (Hheaps a) as (Hc1 & Hc0 & Hord).
    specialize (Hins a). rewrite <- Hobj in Hins.
    destruct (alloc_heap (objects p) (get_heap p a) rec
                (fun x Hx => heap_locs_allocated p a x HI Hx))
      as (Halo & Halc & Hald).
    rewrite <- Hobj in Halo, Halc, Hald.
    pose proof (Hald (heap_inv_distinct _ _ _ Hrec Hia)) as Hnd.
    assert (player (deref (objects p') (length (objects p)))
            ∉ identities (objects p') (get_heap p a).(heap)) as Hfresh.
    { rewrite Hnew. simpl. unfold identities.
      intros (x & Hx & Hin)%list_elem_of_fmap.
      pose proof Hin as Hin'. apply Hia in Hin' as [n Hn].
      rewrite (Hother n x Hn) in Hx.
      destruct (Hrec n x Hn) as (_ & Hpx & _). congruence. }
    split; [|split].
    + by eapply (insert_consistent 1); [lia|exact Hnd|exact Hfresh
                                      |apply Halc; [lia|done]|exact Hins].
    + intros Hnq.
      by eapply (insert_consistent 0); [lia|exact Hnd|exact Hfresh
                                       |apply Halc; [lia|auto]|exact Hins].
    + intros Hright. eapply insert_ordered; [|exact Hins]. auto.
Qed.

Lemma session_inv_current_stats obs qry p name p' l :
  session_inv obs qry p -> current_stats p name = Ok (p', l) ->
  session_inv obs qry p'.
Proof.
  intros (HI & Hstats & Hhits & Hheaps) Hrun.
  pose proof (Inv_current_stats p name p' l HI Hrun) as HI'.
  destruct (player_record_mapping p !! name) as [l0|] eqn:E.
  { rewrite (current_stats_seen _ _ _ E) in Hrun. injection Hrun as <- <-.
    done. }
  rewrite (current_stats_unseen _ _ E) in Hrun. injection Hrun as <- <-.
  pose proof HI as [Hrec Hinv].
  set (rec := PlayerRecord_init None 1 0 0) in *.
  assert (forall name' l', player_record_mapping p !! name' = Some l' ->
            deref (objects p ++ [rec]) l' = deref (objects p) l') as Hother.
  { intros name' l' Hl'. destruct (Hrec name' l' Hl') as (Hlt & _).
    unfold deref. by rewrite lookup_total_app_l. }
  split; [done|]. simpl. split; [|split].
  - intros name' l' Hl'. rewrite (Hother name' l' Hl').
    by apply (Hstats name').
  - intros H01 name' l' Hl'. rewrite (Hother name' l' Hl').
    by apply (Hhits H01 name').
  - intros a. destruct (Hheaps a) as (Hc1 & Hc0 & Hord).
    destruct (alloc_heap (objects p) (get_heap p a) rec
                (fun x Hx => heap_locs_allocated p a x HI Hx))
      as (Halo & Halc & _).
    assert (get_heap {| objects := objects p ++ [rec];
                        player_record_mapping := player_record_mapping p;
                        abHeap := abHeap p; hitsHeap := hitsHeap p;
                        rbiHeap := rbiHeap p; avgHeap := avgHeap p;
                        stdout := stdout p |} a = get_heap p a) as ->
      by (by destruct a).
    split; [apply Halc; [lia|done]|].
    split; [intros; apply Halc; [lia|auto]|auto].
Qed.

Lemma session_inv_current_best obs qry p stat k p' out :
  session_inv obs qry p -> qry stat k ->
  current_best p stat k = Ok (p', out) -> session_inv obs qry p'.
Proof.
  intros (HI & Hstats & Hhits & Hheaps) Hq Hrun.
  pose proof (Inv_current_best p stat k p' out HI Hrun) as HI'.
  destruct (select_stat stat) as [a|] eqn:Hsel.
  - destruct (current_best_keeps p stat a k p' out Hsel Hrun)
      as (Hobj & Hord & Hcons & Hk0).
    destruct (current_best_frame p stat a k p' out Hsel Hrun)
      as (Hprm & Hframe).
    pose proof HI as [Hrec Hinv].
    split; [done|]. rewrite Hobj, Hprm. split; [done|]. split; [done|].
    intros b. destruct (Hheaps b) as (Hc1 & Hc0 & Ho).
    destruct (decide (b = a)) as [->|Hne].
    2:{ by rewrite (Hframe b Hne). }
    destruct (Hinv a) as [Hia _].
    split; [|split].
    + apply Hcons; [|done]. by eapply heap_inv_distinct.
    + intros Hnq. destruct (Hnq stat k Hq) as [?|Hk]; [done|].
      destruct (Hk0 Hk) as [-> _]. auto.
    + auto.
  - unfold current_best in Hrun. rewrite Hsel in Hrun.
    injection Hrun as <- <-. split; [done|]. simpl.
    split; [done|]. split; [done|].
    intros a. specialize (Hheaps a). by destruct a.
Qed.

Lemma reachable_by_session_inv obs qry p :
  reachable_by obs qry p -> session_inv obs qry p.
Proof.
  induction 1 as [|p name h r p' _ IH Hobs Hrun|p name p' l _ IH Hrun
                  |p stat k p' out _ IH Hq Hrun].
  - apply session_inv_init.
  - destruct (player_record_mapping p !! name) as [l|] eqn:E.
    + by eapply session_inv_seen.
    + by eapply session_inv_unseen.
  - by eapply session_inv_current_stats.
  - by eapply session_inv_current_best.
Qed.
End sessions.

(** ** The only exception of the heap operations is [IndexError] *)

Section index_error.
Implicit Types (st : list PlayerRecord) (h : Heap).

Lemma getitem_index_error {A} (l : list A) i :
  index_error_only (PyList.getitem l i).
Proof.
  unfold PyList.getitem. destruct (PyList.in_range l i); [|done].
  by destruct (l !! _).
Qed.

Lemma getitem_out_of_range {A} (l : list A) i :
  i < - PyList.len l \/ PyList.len l <= i ->
  PyList.getitem l i = Raise IndexError.
Proof.
  intros Hi. unfold PyList.getitem, PyList.in_range, PyList.norm.
  destruct (Z.ltb_spec i 0) as [Hn|Hn].
  - destruct (Z.leb_spec 0 (i + PyList.len l));
      destruct (Z.ltb_spec (i + PyList.len l) (PyList.len l));
      simpl; try done; lia.
  - destruct (Z.leb_spec 0 i); destruct (Z.ltb_spec i (PyList.len l));
      simpl; try done; unfold PyList.len in *; lia.
Qed.

Lemma bind_index_error {A B} (m : result A) (f : A -> result B) :
  index_error_only m -> (forall a, m = Ok a -> index_error_only (f a)) ->
  index_error_only (bind m f).
Proof. destruct m; simpl; auto. Qed.

Lemma swap_step_index_error st h p c :
  index_error_only (swap_step st h p c).
Proof.
  unfold swap_step, PyList.setitem.
  repeat (apply bind_index_error; [apply getitem_index_error|intros ? _]).
  destruct (PyList.in_range (heap h) p); [|done]. cbn [bind].
  by destruct (PyList.in_range _ c).
Qed.

Lemma pick_child_index_error st h p :
  index_error_only (pick_child st h p).
Proof.
  unfold pick_child.
  destruct (_ <=? _); [done|]. destruct (_ <=? _); [done|].
  repeat (apply bind_index_error; [apply getitem_index_error|intros ? _]).
  by destruct (key_lt _ _).
Qed.

Lemma heapify_up_loop_index_error fuel : forall st h p c e,
  heapify_up_loop fuel st h p c = Raise e -> e = IndexError.
Proof.
  induction fuel as [|fuel IH]; intros st h p c e; [discriminate|].
  cbn [heapify_up_loop].
  pose proof (getitem_index_error (heap h) p) as H1.
  destruct (PyList.getitem (heap h) p); cbn [bind index_error_only] in *;
    [|congruence|done].
  pose proof (getitem_index_error (heap h) c) as H2.
  destruct (PyList.getitem (heap h) c); cbn [bind index_error_only] in *;
    [|congruence|done].
  destruct (key_lt _ _); [|discriminate].
  destruct (_ =? _); [discriminate|].
  pose proof (swap_step_index_error st h p c) as H3.
  destruct (swap_step st h p c); cbn [bind index_error_only] in *;
    [|congruence|done].
  apply IH.
Qed.

Lemma heapify_up_index_error st h c :
  index_error_only (heapify_up st h c).
Proof.
  pose proof (heapify_up_total st h c) as Htot.
  destruct (heapify_up st h c) as [h'|e|] eqn:E; [done| |done].
  simpl. by eapply heapify_up_loop_index_error.
Qed.

Lemma heapify_down_loop_index_error fuel : forall st h p c e,
  heapify_down_loop fuel st h p c = Raise e -> e = IndexError.
Proof.
  induction fuel as [|fuel IH]; intros st h p c e; [discriminate|].
  cbn [heapify_down_loop].
  pose proof (getitem_index_error (heap h) p) as H1.
  destruct (PyList.getitem (heap h) p); cbn [bind index_error_only] in *;
    [|congruence|done].
  pose proof (getitem_index_error (heap h) c) as H2.
  destruct (PyList.getitem (heap h) c); cbn [bind index_error_only] in *;
    [|congruence|done].
  destruct (key_lt _ _); [|discriminate].
  destruct (_ <=? _); [discriminate|].
  pose proof (swap_step_index_error st h p c) as H3.
  destruct (swap_step st h p c) as [h1| |];
    cbn [bind index_error_only] in *; [|congruence|done].
  pose proof (pick_child_index_error st h1 c) as H4.
  destruct (pick_child st h1 c) as [[c'|]| |];
    cbn [bind index_error_only] in *; [|discriminate|congruence|done].
  apply IH.
Qed.

Lemma heapify_down_index_error st h p :
  index_error_only (heapify_down st h p).
Proof.
  pose proof (heapify_down_total st h p) as Htot.
  destruct (heapify_down st h p) as [h'|e|] eqn:E; [done| |done].
  simpl. unfold heapify_down in E.
  pose proof (pick_child_index_error st h p) as H0.
  destruct (pick_child st h p) as [[c|]| |];
    cbn [bind index_error_only] in *; [|discriminate|congruence|done].
  by eapply heapify_down_loop_index_error.
Qed.
End index_error.

(** ** The records extracted are the largest *)

Section top.
Implicit Types (st : list PlayerRecord) (h : Heap).

Lemma extract_many_top n : forall st h out,
  (n <= length (heap h))%nat -> heap_ordered st h ->
  exists xs h',
    extract_many n st h out = Ok (out ++ (Some <$> xs), h') /\
    length xs = n /\
    heap h ≡ₚ xs ++ heap h' /\
    descending st h xs /\
    heap_ordered st h' /\
    forall x y, x ∈ xs -> y ∈ heap h' ->
      (key_of st h y <= key_of st h x)%Q.
Proof.
  induction n as [|n IH]; intros st h out Hn Ho.
  - exists [], h. simpl. rewrite app_nil_r.
    do 3 (split; [done|]). split; [constructor|]. split; [done|].
    intros x y Hx. by apply elem_of_nil in Hx.
  - destruct (heap h) as [|x r] eqn:E; [simpl in Hn; lia|].
    destruct (extract_max_ordered st h x r Ho E)
      as (h1 & Hh1 & Hp1 & Hk1 & Ho1).
    simpl. rewrite Hh1. cbn [bind fst snd].
    destruct (IH st h1 (PyList.append out (Some x)))
      as (xs & h' & -> & Hl & Hp & Hd & Ho' & Htop); [|done|].
    { rewrite Hp1. simpl in Hn. lia. }
    assert (forall y, y ∈ heap h1 -> (key_of st h y <= key_of st h x)%Q)
      as Hroot.
    { intros y Hy. assert (y ∈ heap h) as Hin.
      { rewrite E. right. by rewrite <- Hp1. }
      pose proof (elem_key_le_root st h y Ho Hin) as Hle.
      unfold key_at in Hle. by rewrite E in Hle. }
    exists (x :: xs), h'. unfold PyList.append.
    rewrite <- app_assoc. simpl. split; [done|]. split; [by rewrite Hl|].
    split; [by rewrite <- Hp, Hp1|].
    unfold descending, key_of in Hd, Htop. rewrite Hk1 in Hd, Htop.
    split; [|split; [done|]].
    + constructor; [exact Hd|].
      apply Forall_forall. intros y Hy. apply Hroot.
      rewrite Hp. apply elem_of_app. by left.
    + intros a b [->|Ha]%elem_of_cons Hb.
      * apply Hroot. rewrite Hp. apply elem_of_app. by right.
      * by apply Htop.
Qed.
End top.

(** * Further properties of the heap *)

Lemma example_heap_ordered : heap_ordered example_store example_heap.
Proof.
  intros i Hi. unfold PyList.len in Hi. simpl in Hi.
  assert (i = 1 \/ i = 2) as [-> | ->] by lia; vm_compute; discriminate.
Qed.

Lemma example_heap_distinct : distinct_players example_store example_heap.
Proof.
  unfold distinct_players.
  refine (bool_decide_unpack (NoDup _) _). by vm_compute.
Qed.

Lemma example_heap_consistent :
  consistent_from 0 example_store example_heap.
Proof.
  intros i Hi. unfold PyList.len in Hi. simpl in Hi.
  assert (i = 0 \/ i = 1 \/ i = 2) as [-> | [-> | ->]] by lia;
    by vm_compute.
Qed.

(** X1. [validate_heap] returns on every heap, and it returns [True]
    exactly when every key other than the root's is at most the key of
    its parent. *)
Theorem validate_heap_decides_order st h :
  (validate_heap st h = Ok true <-> heap_ordered st h) /\
  (validate_heap st h = Ok false <-> ~ heap_ordered st h).
Proof.
  destruct (validate_heap_spec st h) as (b & -> & Hb).
  destruct b; split; split; try done.
  - intros _. by apply Hb.
  - intros Hn. exfalso. apply Hn. by apply Hb.
  - intros Ho. apply Hb in Ho. done.
  - intros _ Ho. apply Hb in Ho. done.
Qed.

(** X2. [heapify_up] terminates on every heap and every integer index,
    valid or not, negative included: it returns a heap or raises
    [IndexError], nothing else. *)
Theorem heapify_up_returns_or_index_error st h child :
  (exists h', heapify_up st h child = Ok h') \/
  heapify_up st h child = Raise IndexError.
Proof.
  pose proof (heapify_up_index_error st h child) as H.
  destruct (heapify_up st h child) as [h'|e|]; simpl in H;
    [left; eauto|right; by subst|done].
Qed.

(** X3. [heapify_down] terminates on every heap and every integer index,
    valid or not, negative included: it returns a heap or raises
    [IndexError], nothing else. *)
Theorem heapify_down_returns_or_index_error st h parent :
  (exists h', heapify_down st h parent = Ok h') \/
  heapify_down st h parent = Raise IndexError.
Proof.
  pose proof (heapify_down_index_error st h parent) as H.
  destruct (heapify_down st h parent) as [h'|e|]; simpl in H;
    [left; eauto|right; by subst|done].
Qed.

(** X4. [heapify_up] with an index that is no index of the array
    ([child >= len] or [child < -len], so every index of an empty heap)
    raises [IndexError]. *)
Theorem heapify_up_out_of_range st h child :
  child < - PyList.len (heap h) \/ PyList.len (heap h) <= child ->
  heapify_up st h child = Raise IndexError.
Proof.
  intros Hc. unfold heapify_up. cbn [heapify_up_loop].
  pose proof (getitem_index_error (heap h) ((child - 1) / 2)) as Hp.
  rewrite (getitem_out_of_range (heap h) child Hc).
  destruct (PyList.getitem (heap h) ((child - 1) / 2)); simpl in *;
    [done|by subst|done].
Qed.

Lemma heapify_up_out_of_range_witness :
  heapify_up example_store example_heap 3 = Raise IndexError.
Proof.
  apply (heapify_up_out_of_range example_store example_heap 3).
  right. unfold PyList.len. simpl. lia.
Defined.

(** X5. [heapify_down] from an index that has no child in the array
    ([2 * parent + 1 >= len]) returns the heap as it is, without an
    error, also when the index itself lies beyond the array. *)
Theorem heapify_down_without_child st h parent :
  PyList.len (heap h) <= 2 * parent + 1 ->
  heapify_down st h parent = Ok h.
Proof.
  intros Hp. unfold heapify_down, pick_child.
  destruct (Z.leb_spec (PyList.len (heap h)) (parent * 2 + 1)); [done|lia].
Qed.

Lemma heapify_down_without_child_witness :
  heapify_down example_store example_heap 7 = Ok example_heap.
Proof.
  apply (heapify_down_without_child example_store example_heap 7).
  unfold PyList.len. simpl. lia.
Defined.

(** X6. [insert] never raises. The array afterwards holds the records it
    held and the new one, and if the heap satisfied the max-heap
    invariant it still does. *)
Theorem insert_keeps_order st h element :
  exists h', insert st h element = Ok h' /\
    heap h' ≡ₚ heap h ++ [element] /\
    sorting_key h' = sorting_key h /\
    (heap_ordered st h -> heap_ordered st h').
Proof.
  destruct (insert_spec st h element) as (h' & Hh' & Hp & _ & Hm).
  exists h'. split; [done|]. split; [done|].
  split; [by destruct (Hm _ (Z.le_refl _))|].
  intros Ho. by eapply insert_ordered.
Qed.

Lemma insert_keeps_order_witness :
  exists h', insert example_store example_heap 3%nat = Ok h' /\
    heap_ordered example_store h'.
Proof.
  destruct (insert_keeps_order example_store example_heap 3%nat)
    as (h' & Hh' & _ & _ & Ho).
  exists h'. split; [exact Hh'|]. apply Ho. exact example_heap_ordered.
Defined.

(** X7. Insert, then look up. If no two slots hold the same identity, the
    mapping is right for every slot and the identity of the new record is
    not in the array, then after [insert] the mapping is again right for
    every slot, and [get_index] of the new record is the index of the
    slot that holds it. *)
Theorem insert_then_get_index st h element :
  distinct_players st h -> consistent_from 0 st h ->
  player (deref st element) ∉ identities st (heap h) ->
  exists h' i, insert st h element = Ok h' /\
    get_index st h' element = Some i /\
    0 <= i < PyList.len (heap h') /\
    heap h' !! Z.to_nat i = Some element /\
    distinct_players st h' /\ consistent_from 0 st h'.
Proof.
  intros Hnd Hcons Hfresh.
  destruct (insert_spec st h element) as (h' & Hh' & Hp & _ & _).
  destruct (insert_consistent 0 st h element h' ltac:(lia) Hnd Hfresh
              Hcons Hh') as [Hnd' Hcons'].
  assert (element ∈ heap h') as [jn Hjn]%list_elem_of_lookup.
  { rewrite Hp. apply elem_of_app. right. by left. }
  pose proof (lookup_lt_Some _ _ _ Hjn) as Hlt.
  exists h', (Z.of_nat jn). split; [done|].
  pose proof (Hcons' (Z.of_nat jn) ltac:(unfold PyList.len; lia)) as Hj.
  unfold player_at in Hj. rewrite Nat2Z.id in Hj.
  rewrite (list_lookup_total_correct _ _ _ Hjn) in Hj.
  split; [exact Hj|]. split; [unfold PyList.len; lia|].
  rewrite Nat2Z.id. split; [done|]. by split.
Qed.

Lemma insert_then_get_index_witness :
  exists h' i, insert example_store example_heap 3%nat = Ok h' /\
    get_index example_store h' 3%nat = Some i /\
    heap h' !! Z.to_nat i = Some 3%nat.
Proof.
  destruct (insert_then_get_index example_store example_heap 3%nat
              example_heap_distinct example_heap_consistent)
    as (h' & i & Hh' & Hi & _ & Hl & _).
  { unfold identities. vm_compute. intros H.
    repeat (apply elem_of_cons in H as [H|H]; [discriminate|]).
    by apply elem_of_nil in H. }
  exists h', i. split; [exact Hh'|]. split; [exact Hi|exact Hl].
Defined.



(** X9. On a heap that satisfies the max-heap invariant both sifts change
    nothing: [heapify_up] from any index of the array and [heapify_down]
    from any non-negative index return the heap as it is. *)
Theorem sifts_idempotent_on_ordered st h i :
  heap_ordered st h ->
  (0 <= i < PyList.len (heap h) -> heapify_up st h i = Ok h) /\
  (0 <= i -> heapify_down st h i = Ok h).
Proof.
  intros Ho. split; intros Hi.
  - by apply heapify_up_ordered_noop.
  - by apply heapify_down_ordered_noop.
Qed.

Lemma sifts_idempotent_on_ordered_witness :
  heapify_up example_store example_heap 2 = Ok example_heap /\
  heapify_down example_store example_heap 0 = Ok example_heap.
Proof.
  destruct (sifts_idempotent_on_ordered example_store example_heap 2
              example_heap_ordered) as [Hup _].
  destruct (sifts_idempotent_on_ordered example_store example_heap 0
              example_heap_ordered) as [_ Hdown].
  split; [apply Hup; unfold PyList.len; simpl; lia|apply Hdown; lia].
Defined.

(** X10. [heapify_up] repairs a key that grew. If every slot other than
    [child] is in order with its parent, and the children of [child] are
    in order with the parent of [child], then [heapify_up(child)] returns
    a heap that satisfies the max-heap invariant and holds the same
    records. *)
Theorem heapify_up_repairs st h child :
  0 <= child < PyList.len (heap h) -> ordered_up st h child ->
  exists h', heapify_up st h child = Ok h' /\
    heap_ordered st h' /\ heap h' ≡ₚ heap h.
Proof.
  intros Hc Hou.
  destruct (heapify_up_sifted st h child Hc) as (h' & Hh' & Hp & _).
  exists h'. split; [done|]. split; [|done].
  by eapply heapify_up_ordered.
Qed.

Lemma heapify_up_repairs_witness :
  exists h', heapify_up example_store
               {| heap := [0%nat; 1%nat; 2%nat]; mapping := ∅;
                  sorting_key := Ab |} 2 = Ok h' /\
    heap_ordered example_store h' /\
    heap h' ≡ₚ [0%nat; 1%nat; 2%nat].
Proof.
  apply (heapify_up_repairs example_store
           {| heap := [0%nat; 1%nat; 2%nat]; mapping := ∅;
              sorting_key := Ab |} 2).
  - unfold PyList.len. simpl. lia.
  - split.
    + intros i Hi Hne. unfold PyList.len in Hi. simpl in Hi.
      assert (i = 1) as -> by lia. vm_compute. discriminate.
    + intros _ i Hi Hpar. unfold PyList.len in Hi. simpl in Hi.
      assert (i = 1 \/ i = 2) as [-> | ->] by lia; vm_compute in Hpar;
        discriminate.
Defined.

(** X11. [heapify_down] repairs a key that fell. If every slot that is no
    child of [parent] is in order with its parent, and the children of
    [parent] are in order with the parent of [parent], then
    [heapify_down(parent)] returns a heap that satisfies the max-heap
    invariant and holds the same records. *)
Theorem heapify_down_repairs st h parent :
  0 <= parent -> ordered_but st h parent ->
  exists h', heapify_down st h parent = Ok h' /\
    heap_ordered st h' /\ heap h' ≡ₚ heap h.
Proof.
  intros Hp Hob.
  destruct (heapify_down_sifted st h parent Hp) as (h' & Hh' & Hperm & _).
  exists h'. split; [done|]. split; [|done].
  by eapply heapify_down_ordered.
Qed.

Lemma heapify_down_repairs_witness :
  exists h', heapify_down example_store
               {| heap := [1%nat; 0%nat; 2%nat]; mapping := ∅;
                  sorting_key := Ab |} 0 = Ok h' /\
    heap_ordered example_store h' /\
    heap h' ≡ₚ [1%nat; 0%nat; 2%nat].
Proof.
  apply (heapify_down_repairs example_store
           {| heap := [1%nat; 0%nat; 2%nat]; mapping := ∅;
              sorting_key := Ab |} 0); [lia|].
  split.
  - intros i Hi Hpar. unfold PyList.len in Hi. simpl in Hi.
    assert (i = 1 \/ i = 2) as [-> | ->] by lia; vm_compute in Hpar;
      by destruct Hpar.
  - lia.
Defined.

(** X12. The sifts keep the mapping right. If no two slots hold the same
    identity and the mapping sends the identity of every slot to its
    index, the same holds after [heapify_up] from any index of the array
    and after [heapify_down] from any non-negative index. *)
Theorem sifts_keep_mapping st h i :
  distinct_players st h -> consistent_from 0 st h ->
  (0 <= i < PyList.len (heap h) ->
   exists h', heapify_up st h i = Ok h' /\
     distinct_players st h' /\ consistent_from 0 st h') /\
  (0 <= i ->
   exists h', heapify_down st h i = Ok h' /\
     distinct_players st h' /\ consistent_from 0 st h').
Proof.
  intros Hnd Hcons. split; intros Hi.
  - destruct (heapify_up_sifted st h i Hi) as (h' & Hh' & _).
    exists h'. split; [done|].
    by apply (heapify_up_consistent 0 st h i h').
  - destruct (heapify_down_sifted st h i Hi) as (h' & Hh' & _).
    exists h'. split; [done|].
    by apply (heapify_down_consistent 0 st h i h').
Qed.

Lemma sifts_keep_mapping_witness :
  (exists h', heapify_up example_store example_heap 1 = Ok h' /\
     distinct_players example_store h' /\
     consistent_from 0 example_store h') /\
  (exists h', heapify_down example_store example_heap 0 = Ok h' /\
     distinct_players example_store h' /\
     consistent_from 0 example_store h').
Proof.
  destruct (sifts_keep_mapping example_store example_heap 1
              example_heap_distinct example_heap_consistent) as [Hup _].
  destruct (sifts_keep_mapping example_store example_heap 0
              example_heap_distinct example_heap_consistent) as [_ Hdown].
  split; [apply Hup; unfold PyList.len; simpl; lia|apply Hdown; lia].
Defined.

(** X13. [extract_max] spoils the mapping at the root only. If no two
    slots hold the same identity and the mapping is right for every slot,
    then after [extract_max] it is right for every slot but, possibly,
    the root. *)
Theorem extract_max_mapping_below_root st h x r :
  heap h = x :: r ->
  distinct_players st h -> consistent_from 0 st h ->
  exists h', extract_max st h = Ok (Some x, h') /\
    distinct_players st h' /\ consistent_from 1 st h'.
Proof.
  intros E Hnd Hcons.
  destruct (extract_max_spec st h x r E) as (h' & Hh' & _).
  exists h'. split; [done|].
  by apply (extract_max_consistent 0 st h x r h').
Qed.

Lemma extract_max_mapping_below_root_witness :
  exists h', extract_max example_store example_heap = Ok (Some 2%nat, h') /\
    distinct_players example_store h' /\
    consistent_from 1 example_store h'.
Proof.
  exact (extract_max_mapping_below_root example_store example_heap
           2%nat [0%nat; 1%nat] eq_refl
           example_heap_distinct example_heap_consistent).
Defined.

(** * Further properties of the tracker *)

Lemma reachable_by_after_update obs qry :
  obs 1 0 -> obs 0 0 -> qry "avg"%string 1 ->
  reachable_by obs qry (final_state session_after_update).
Proof.
  intros Hhit Hmiss Hq.
  assert (reachable_by obs qry (final_state session_two_players)) as H2.
  { pose proof session_two_players_Ok as H.
    unfold session_two_players at 1 in H.
    destruct (new_at_bat Problem_init "A" 1 0) as [p1| |] eqn:E1;
      try discriminate.
    eapply rb_new_at_bat; [|exact Hhit|exact H].
    eapply rb_new_at_bat; [apply rb_init|exact Hhit|exact E1]. }
  assert (reachable_by obs qry (final_state session_after_query)) as H3.
  { pose proof session_after_query_Ok as H.
    unfold session_after_query at 1 in H.
    rewrite session_two_players_Ok in H. cbn [bind] in H.
    destruct (current_best _ "avg" 1) as [[p3 out]| |] eqn:E;
      try discriminate.
    cbn [bind fst] in H. injection H as H. rewrite <- H.
    eapply rb_current_best; [exact H2|exact Hq|exact E]. }
  pose proof session_after_update_Ok as H.
  unfold session_after_update at 1 in H.
  rewrite session_after_query_Ok in H. cbn [bind] in H.
  eapply rb_new_at_bat; [exact H3|exact Hmiss|exact H].
Qed.


(** X14. For each of the four attribute names, in any state,
    [current_best(stat, k)] returns [min(k, n)] records of the chosen
    heap, where [n] is the size of the heap, and none when [k] is zero or
    negative, in which case the tracker is left exactly as it was. The
    records returned are records of the heap, each returned once when the
    heap holds each of its records once. *)
Theorem current_best_count p stat a k :
  select_stat stat = Some a ->
  exists p' xs,
    current_best p stat k = Ok (p', Some (Some <$> xs)) /\
    Z.of_nat (length xs)
      = Z.max 0 (Z.min k (PyList.len (heap (get_heap p a)))) /\
    (forall x, x ∈ xs -> x ∈ heap (get_heap p a)) /\
    (NoDup (heap (get_heap p a)) -> NoDup xs) /\
    (k <= 0 -> p' = p /\ xs = []).
Proof.
  intros Hsel.
  destruct (current_best_spec p stat a k Hsel)
    as (xs & h1 & h' & Hcb & Hlen & Hp & _).
  exists (set_heap p a h'), xs. split; [done|]. split; [lia|].
  split; [|split].
  - intros x Hx. rewrite Hp. apply elem_of_app. by left.
  - rewrite Hp. by intros (? & _ & _)%NoDup_app.
  - intros Hk.
    destruct (current_best_keeps p stat a k _ _ Hsel Hcb)
      as (_ & _ & _ & Hk0).
    destruct (Hk0 Hk) as [Hp' _]. split; [done|].
    apply length_zero_iff_nil. lia.
Qed.

Lemma current_best_count_witness :
  exists p' xs,
    current_best (final_state session_two_players) "rbi" 5
      = Ok (p', Some (Some <$> xs)) /\
    Z.of_nat (length xs)
      = Z.max 0 (Z.min 5 (PyList.len
           (heap (get_heap (final_state session_two_players) Rbi)))).
Proof.
  destruct (current_best_count (final_state session_two_players)
              "rbi" Rbi 5 eq_refl) as (p' & xs & Hcb & Hlen & _).
  exists p', xs. split; [exact Hcb|exact Hlen].
Defined.

(** X15. Top-k on an ordered heap. If the heap of the requested attribute
    satisfies the max-heap invariant, [current_best] returns records in
    non-increasing order of that attribute, every record of the heap that
    is not returned has a key at most the key of every record returned,
    and the heap satisfies the invariant again afterwards. *)
Theorem current_best_top_k p stat a k :
  select_stat stat = Some a ->
  heap_ordered (objects p) (get_heap p a) ->
  exists p' xs,
    current_best p stat k = Ok (p', Some (Some <$> xs)) /\
    descending (objects p) (get_heap p a) xs /\
    (forall x y, x ∈ xs -> y ∈ heap (get_heap p a) -> y ∉ xs ->
       (key_of (objects p) (get_heap p a) y
        <= key_of (objects p) (get_heap p a) x)%Q) /\
    objects p' = objects p /\
    heap_ordered (objects p') (get_heap p' a).
Proof.
  intros Hsel Ho. unfold current_best. rewrite Hsel.
  set (h := get_heap p a) in *.
  set (n := Z.to_nat (Z.min k (PyList.len (heap h)))) in *.
  destruct (extract_many_top n (objects p) h []
              ltac:(unfold n, PyList.len; lia) Ho)
    as (xs & h1 & Hex & _ & Hp & Hd & Ho1 & Htop).
  rewrite Hex. cbn [bind fst snd app].
  destruct (insert_all_spec xs (objects p) h1) as (h2 & Hins & _).
  rewrite Hins. cbn [bind].
  exists (set_heap p a h2), xs. split; [done|]. split; [done|]. split.
  - intros x y Hx Hy Hny. apply Htop; [done|].
    rewrite Hp in Hy. apply elem_of_app in Hy as [?|?]; done.
  - split; [by destruct a|].
    rewrite get_set_heap, decide_True by done.
    assert (objects (set_heap p a h2) = objects p) as -> by (by destruct a).
    destruct (insert_all_keeps xs _ _ _ Hins) as [Hk _]. by apply Hk.
Qed.

Lemma current_best_top_k_witness :
  exists p' xs,
    current_best (final_state session_two_players) "hits" 1
      = Ok (p', Some (Some <$> xs)) /\
    descending (objects (final_state session_two_players))
      (get_heap (final_state session_two_players) Hits) xs.
Proof.
  destruct (current_best_top_k (final_state session_two_players)
              "hits" Hits 1 eq_refl) as (p' & xs & Hcb & Hd & _).
  - intros i Hi.
    assert (PyList.len
              (heap (get_heap (final_state session_two_players) Hits)) = 2)
      as Hlen by (by vm_compute).
    rewrite Hlen in Hi. assert (i = 1) as -> by lia.
    vm_compute. discriminate.
  - exists p', xs. split; [exact Hcb|exact Hd].
Defined.

(** X16. Sessions that keep a heap ordered. In every state reached by a
    session, the at-bats heap satisfies the max-heap invariant; so does
    the hits heap when no observation has negative hits, and the rbi heap
    when no observation has negative rbi; so does the average heap when
    every observation has zero or one hit and no query with a positive
    [k] is made on the average. [validate_heap] then answers [True]. *)
Theorem heaps_stay_ordered obs qry a p :
  reachable_by obs qry p -> sifted_right a obs qry ->
  heap_ordered (objects p) (get_heap p a) /\
  validate_heap (objects p) (get_heap p a) = Ok true.
Proof.
  intros Hreach Hright.
  destruct (reachable_by_session_inv obs qry p Hreach)
    as (_ & _ & _ & Hheaps).
  destruct (Hheaps a) as (_ & _ & Ho). specialize (Ho Hright).
  split; [done|].
  destruct (validate_heap_spec (objects p) (get_heap p a)) as (b & -> & Hb).
  f_equal. by apply Hb.
Qed.

Lemma heaps_stay_ordered_witness :
  heap_ordered (objects (final_state session_after_update))
    (get_heap (final_state session_after_update) Hits) /\
  validate_heap (objects (final_state session_after_update))
    (get_heap (final_state session_after_update) Hits) = Ok true.
Proof.
  apply (heaps_stay_ordered (fun h r => 0 <= h) (fun _ _ => True) Hits).
  - apply reachable_by_after_update; [lia|lia|exact I].
  - intros h r Hh. exact Hh.
Defined.

(** X17. Top-k by at-bats is right in every reachable state: whatever
    observations and queries came before, [current_best('ab', k)] returns
    records in non-increasing order of their at-bats. *)
Theorem current_best_ab_always_sorted p k :
  reachable p ->
  exists p' xs,
    current_best p "ab" k = Ok (p', Some (Some <$> xs)) /\
    StronglySorted
      (fun x y => ab (deref (objects p) y) <= ab (deref (objects p) x)) xs.
Proof.
  intros Hreach. apply reachable_reachable_by in Hreach.
  pose proof (reachable_by_session_inv _ _ p Hreach) as (HI & _ & _ & Hheaps).
  destruct (Hheaps Ab) as (_ & _ & Ho). specialize (Ho I).
  destruct (current_best_top_k p "ab" Ab k eq_refl Ho)
    as (p' & xs & Hcb & Hd & _).
  exists p', xs. split; [done|]. clear Hcb.
  destruct HI as [_ Hinv]. destruct (Hinv Ab) as [_ Hk].
  unfold descending, key_of in Hd. rewrite Hk in Hd. simpl in Hd.
  induction Hd as [|x xs Hs IH Hall]; [constructor|].
  constructor; [exact IH|].
  eapply Forall_impl; [exact Hall|]. intros y Hy. simpl in Hy.
  by rewrite Zle_Qle.
Qed.

Lemma current_best_ab_always_sorted_witness :
  exists p' xs,
    current_best (final_state session_after_update) "ab" 2
      = Ok (p', Some (Some <$> xs)) /\
    StronglySorted
      (fun x y => ab (deref (objects (final_state session_after_update)) y)
                  <= ab (deref (objects (final_state session_after_update))
                           x)) xs.
Proof.
  exact (current_best_ab_always_sorted (final_state session_after_update) 2
           reachable_after_update).
Defined.

(** X18. The mapping of a heap that no query extracted from is right: in
    every state reached by a session without a query with positive [k] on
    attribute [a], [get_index] of the record of every tracked player, in
    the heap of [a], is the index of the slot holding that record. *)
Theorem get_index_right_when_never_queried obs qry a p name l :
  reachable_by obs qry p -> never_queried a qry ->
  player_record_mapping p !! name = Some l ->
  exists i, get_index (objects p) (get_heap p a) l = Some i /\
    0 <= i < PyList.len (heap (get_heap p a)) /\
    heap (get_heap p a) !! Z.to_nat i = Some l.
Proof.
  intros Hreach Hnq Hl.
  destruct (reachable_by_session_inv obs qry p Hreach)
    as ((Hrec & Hinv) & _ & _ & Hheaps).
  destruct (Hheaps a) as (_ & Hc0 & _). specialize (Hc0 Hnq).
  destruct (Hinv a) as [(_ & Hin & _) _].
  assert (l ∈ heap (get_heap p a)) as [jn Hjn]%list_elem_of_lookup
    by (apply Hin; eauto).
  pose proof (lookup_lt_Some _ _ _ Hjn) as Hlt.
  exists (Z.of_nat jn).
  specialize (Hc0 (Z.of_nat jn) ltac:(unfold PyList.len; lia)).
  unfold player_at in Hc0. rewrite Nat2Z.id in Hc0.
  rewrite (list_lookup_total_correct _ _ _ Hjn) in Hc0.
  split; [exact Hc0|]. split; [unfold PyList.len; lia|].
  by rewrite Nat2Z.id.
Qed.

Lemma get_index_right_when_never_queried_witness :
  exists i,
    get_index (objects (final_state session_after_update))
      (get_heap (final_state session_after_update) Ab) 1%nat = Some i /\
    0 <= i < PyList.len
               (heap (get_heap (final_state session_after_update) Ab)) /\
    heap (get_heap (final_state session_after_update) Ab) !! Z.to_nat i
      = Some 1%nat.
Proof.
  apply (get_index_right_when_never_queried
           (fun _ _ => True) (fun stat k => stat = "avg"%string) Ab
           (final_state session_after_update) "B"%string 1%nat).
  - apply reachable_by_after_update; [exact I|exact I|reflexivity].
  - intros stat k Hs. left. rewrite Hs. vm_compute. discriminate.
  - vm_compute. reflexivity.
Defined.

(** X19. In every reachable state and in each heap the mapping is right
    for every slot but, possibly, the root: [get_index] of the record at
    a slot [i >= 1] is [i]. *)
Theorem get_index_right_below_root p a i :
  reachable p -> 1 <= i < PyList.len (heap (get_heap p a)) ->
  exists l, heap (get_heap p a) !! Z.to_nat i = Some l /\
    get_index (objects p) (get_heap p a) l = Some i.
Proof.
  intros Hreach Hi. apply reachable_reachable_by in Hreach.
  destruct (reachable_by_session_inv _ _ p Hreach) as (_ & _ & _ & Hheaps).
  destruct (Hheaps a) as (Hc1 & _ & _). specialize (Hc1 i Hi).
  exists (heap (get_heap p a) !!! Z.to_nat i). split; [|exact Hc1].
  apply list_lookup_lookup_total_lt. unfold PyList.len in Hi. lia.
Qed.

Lemma get_index_right_below_root_witness :
  exists l,
    heap (get_heap (final_state session_after_update) Avg) !! Z.to_nat 1
      = Some l /\
    get_index (objects (final_state session_after_update))
      (get_heap (final_state session_after_update) Avg) l = Some 1.
Proof.
  apply (get_index_right_below_root (final_state session_after_update)
           Avg 1 reachable_after_update).
  vm_compute. split; [discriminate|reflexivity].
Defined.



(** X21. Once tracked, always tracked, and queries change no record. In a
    reachable state [new_at_bat] keeps every player of the record map at
    its record and tracks the player it is called for; [current_stats]
    and [current_best] leave the record map and every record of a tracked
    player as they were. *)
Theorem tracked_players_stay_tracked p :
  reachable p ->
  (forall name (h r : Z) p', new_at_bat p name h r = Ok p' ->
     player_record_mapping p ⊆ player_record_mapping p' /\
     is_Some (player_record_mapping p' !! name)) /\
  (forall name p' l, current_stats p name = Ok (p', l) ->
     player_record_mapping p' = player_record_mapping p /\
     forall name' l', player_record_mapping p !! name' = Some l' ->
       deref (objects p') l' = deref (objects p) l') /\
  (forall stat k p' out, current_best p stat k = Ok (p', out) ->
     player_record_mapping p' = player_record_mapping p /\
     objects p' = objects p).
Proof.
  intros Hreach. pose proof (reachable_Inv p Hreach) as HI.
  split; [|split].
  - intros name h r p' Hrun.
    destruct (player_record_mapping p !! name) as [l|] eqn:E.
    + destruct (new_at_bat_seen p name l h r HI E)
        as (p1 & Hp1 & _ & _ & Hprm & _).
      assert (p1 = p') as -> by congruence. rewrite Hprm.
      split; [done|]. by rewrite E.
    + destruct (new_at_bat_unseen p name h r HI E)
        as (p1 & Hp1 & _ & _ & Hprm & _).
      assert (p1 = p') as -> by congruence. rewrite Hprm.
      split; [by apply insert_subseteq|]. by rewrite lookup_insert_eq.
  - intros name p' l Hrun.
    destruct (player_record_mapping p !! name) as [l0|] eqn:E.
    + rewrite (current_stats_seen _ _ _ E) in Hrun.
      by injection Hrun as <- <-.
    + rewrite (current_stats_unseen _ _ E) in Hrun.
      injection Hrun as <- <-. split; [done|]. simpl.
      intros name' l' Hl'. destruct HI as [Hrec _].
      destruct (Hrec name' l' Hl') as (Hlt & _).
      unfold deref. by rewrite lookup_total_app_l.
  - intros stat k p' out Hrun.
    destruct (select_stat stat) as [a|] eqn:Hsel.
    + destruct (current_best_keeps p stat a k p' out Hsel Hrun) as (? & _).
      destruct (current_best_frame p stat a k p' out Hsel Hrun) as (? & _).
      done.
    + unfold current_best in Hrun. rewrite Hsel in Hrun.
      by injection Hrun as <- <-.
Qed.

Lemma tracked_players_stay_tracked_witness :
  player_record_mapping (final_state session_two_players)
    ⊆ player_record_mapping
        (final_state
           (new_at_bat (final_state session_two_players) "C" 1 1)) /\
  is_Some (player_record_mapping
             (final_state
                (new_at_bat (final_state session_two_players) "C" 1 1))
             !! "C"%string).
Proof.
  apply (proj1 (tracked_players_stay_tracked
                  (final_state session_two_players) reachable_two_players)
           "C"%string 1 1).
  vm_compute. reflexivity.
Defined.



(** ** The driver *)

Lemma split_cons sep s : exists op args, split sep s = op :: args.
Proof.
  induction s as [|c s IH]; simpl; [by eauto|].
  destruct (Ascii.eqb c sep); [by eauto|].
  destruct IH as (op & args & ->). eauto.
Qed.

Lemma Inv_print p s : Inv p -> Inv (print p s).
Proof.
  intros [Hrec Hheaps]. split; [done|].
  intros a. specialize (Hheaps a). by destruct a.
Qed.

Lemma new_at_bat_stdout p name (h r : Z) p' :
  Inv p -> new_at_bat p name h r = Ok p' -> stdout p' = stdout p.
Proof.
  intros HI Hn.
  destruct (player_record_mapping p !! name) as [l|] eqn:E.
  - destruct (new_at_bat_seen p name l h r HI E) as (p1 & Hp1 & _ & _ & _ & Hs).
    congruence.
  - destruct (new_at_bat_unseen p name h r HI E) as (p1 & Hp1 & _ & _ & _ & Hs).
    congruence.
Qed.

Lemma current_stats_stdout p name p' l :
  current_stats p name = Ok (p', l) -> stdout p' = stdout p.
Proof.
  intros Hcs.
  destruct (player_record_mapping p !! name) as [l0|] eqn:E.
  - rewrite (current_stats_seen _ _ _ E) in Hcs. by injection Hcs as <- <-.
  - rewrite (current_stats_unseen _ _ E) in Hcs. by injection Hcs as <- <-.
Qed.

Lemma current_best_list p stat k p' cb :
  current_best p stat k = Ok (p', Some cb) ->
  exists a xs, select_stat stat = Some a /\ cb = Some <$> xs /\
               stdout p' = stdout p.
Proof.
  intros Hcb. destruct (select_stat stat) as [a|] eqn:Hsel.
  - destruct (current_best_spec p stat a k Hsel)
      as (xs & h1 & h' & Hcb' & _).
    rewrite Hcb' in Hcb. injection Hcb as <- <-.
    exists a, xs. by destruct a.
  - unfold current_best in Hcb. rewrite Hsel in Hcb. discriminate.
Qed.


Lemma tokens_0 (op : string) args : PyList.getitem (op :: args) 0 = Ok op.
Proof. by apply PyListFacts.getitem_nonneg. Qed.

Lemma tokens_1 (op t1 : string) args :
  PyList.getitem (op :: t1 :: args) 1 = Ok t1.
Proof. by apply PyListFacts.getitem_nonneg. Qed.

Lemma tokens_2 (op t1 t2 : string) args :
  PyList.getitem (op :: t1 :: t2 :: args) 2 = Ok t2.
Proof. by apply PyListFacts.getitem_nonneg. Qed.


Lemma tokens_missing (op : string) :
  PyList.getitem [op] 1 = Raise IndexError.
Proof. reflexivity. Qed.

(** The four ways in which the body of the loop can complete. *)
Lemma run_line_inv int repr debug p results line p' results' :
  run_line int repr debug p results line = Ok (p', results') ->
  (exists player hits rbi,
     new_at_bat p player hits rbi = Ok p' /\ results' = results /\
     is_query line = false) \/
  (exists player p1 cs,
     current_stats p player = Ok (p1, cs) /\
     results' = results ++ [RCs (snapshot (objects p1) cs)] /\
     p' = (if debug then print p1 (repr (deref (objects p1) cs)) else p1) /\
     is_query line = true) \/
  (exists heap_name k p1 cb ts,
     current_best p heap_name k = Ok (p1, Some cb) /\
     transform (objects p1) cb = Ok ts /\
     results' = results ++ [RCb heap_name ts] /\
     p' = (if debug then print p1 (repr_list repr (objects p1) cb) else p1) /\
     is_query line = true) \/
  (p' = p /\ results' = results /\ is_query line = false).
Proof.
  unfold run_line, is_query.
  destruct (split_cons tab (strip line)) as (op & args & ->).
  rewrite tokens_0. cbn [bind hd].
  destruct (String.eqb_spec op "n") as [->|Hn].
  { intros H. left.
    destruct (PyList.getitem _ 1) as [player| |]; [|done..]. cbn [bind] in H.
    destruct (PyList.getitem _ 2) as [t2| |]; [|done..]. cbn [bind] in H.
    destruct (int t2) as [hits| |]; [|done..]. cbn [bind] in H.
    destruct (PyList.getitem _ 3) as [t3| |]; [|done..]. cbn [bind] in H.
    destruct (int t3) as [rbi| |]; [|done..]. cbn [bind] in H.
    destruct (new_at_bat p player hits rbi) as [p1| |] eqn:E; [|done..].
    cbn [bind] in H. injection H as <- <-. by exists player, hits, rbi. }
  destruct (String.eqb_spec op "cs") as [->|Hcs].
  { intros H. right. left.
    destruct (PyList.getitem _ 1) as [player| |]; [|done..]. cbn [bind] in H.
    destruct (current_stats p player) as [[p1 cs]| |] eqn:E; [|done..].
    cbn [bind fst snd] in H. injection H as <- <-.
    by exists player, p1, cs. }
  destruct (String.eqb_spec op "cb") as [->|Hcb].
  { intros H. right. right. left.
    destruct (PyList.getitem _ 1) as [heap_name| |]; [|done..].
    cbn [bind] in H.
    destruct (PyList.getitem _ 2) as [t2| |]; [|done..]. cbn [bind] in H.
    destruct (int t2) as [k| |]; [|done..]. cbn [bind] in H.
    destruct (current_best p heap_name k) as [[p1 [cb|]]| |] eqn:E;
      [|done..].
    cbn [bind fst snd] in H.
    destruct (transform (objects p1) cb) as [ts| |] eqn:Et; [|done..].
    cbn [bind] in H. injection H as <- <-.
    by exists heap_name, k, p1, cb, ts. }
  intros H. injection H as <- <-. by right; right; right.
Qed.


Lemma run_line_Inv int repr debug p results line p' results' :
  Inv p -> run_line int repr debug p results line = Ok (p', results') ->
  Inv p'.
Proof.
  intros HI H. apply run_line_inv in H.
  destruct H as [(player & hits & rbi & Hn & _)
                |[(player & p1 & cs & Hcs & _ & -> & _)
                 |[(heap_name & k & p1 & cb & ts & Hcb & _ & _ & -> & _)
                  |(-> & _)]]].
  - by eapply Inv_new_at_bat.
  - pose proof (Inv_current_stats _ _ _ _ HI Hcs).
    destruct debug; [by apply Inv_print|done].
  - pose proof (Inv_current_best _ _ _ _ _ HI Hcb).
    destruct debug; [by apply Inv_print|done].
  - done.
Qed.


Lemma run_line_known int repr debug p results line p' results' :
  run_line int repr debug p results line = Ok (p', results') ->
  known_stats results -> known_stats results'.
Proof.
  intros H Hk. apply run_line_inv in H.
  destruct H as [(player & hits & rbi & _ & -> & _)
                |[(player & p1 & cs & _ & -> & _)
                 |[(heap_name & k & p1 & cb & ts & Hcb & _ & -> & _)
                  |(_ & -> & _)]]]; try done.
  - apply Forall_app. split; [done|]. by apply Forall_singleton.
  - apply Forall_app. split; [done|]. apply Forall_singleton.
    destruct (current_best_list _ _ _ _ _ Hcb) as (a & xs & -> & _). eauto.
Qed.

Lemma run_line_stdout int repr debug p results line p' results' :
  Inv p -> run_line int repr debug p results line = Ok (p', results') ->
  (length (stdout p') - length (stdout p) =
     if debug then length results' - length results else 0)%nat /\
  (length (stdout p) <= length (stdout p'))%nat /\
  (length results <= length results')%nat.
Proof.
  intros HI H. apply run_line_inv in H.
  destruct H as [(player & hits & rbi & Hn & -> & _)
                |[(player & p1 & cs & Hcs & -> & -> & _)
                 |[(heap_name & k & p1 & cb & ts & Hcb & _ & -> & -> & _)
                  |(-> & -> & _)]]].
  - rewrite (new_at_bat_stdout _ _ _ _ _ HI Hn). destruct debug; lia.
  - apply current_stats_stdout in Hcs.
    destruct debug; simpl; rewrite ?length_app, Hcs; simpl; lia.
  - destruct (current_best_list _ _ _ _ _ Hcb) as (a & xs & _ & _ & Hs).
    destruct debug; simpl; rewrite ?length_app, Hs; simpl; lia.
  - destruct debug; lia.
Qed.

Lemma run_lines_stdout int repr debug p results lines p' results' :
  Inv p -> run_lines int repr debug p results lines = Ok (p', results') ->
  (length (stdout p') - length (stdout p) =
     if debug then length results' - length results else 0)%nat /\
  (length (stdout p) <= length (stdout p'))%nat /\
  (length results <= length results')%nat.
Proof.
  revert p results. induction lines as [|line rest IH]; intros p results HI H.
  - cbn [run_lines] in H. injection H as <- <-. destruct debug; lia.
  - cbn [run_lines] in H.
    destruct (run_line int repr debug p results line)
      as [[p1 results1]| |] eqn:E; [|done..].
    cbn [bind fst snd] in H.
    pose proof (run_line_stdout _ _ _ _ _ _ _ _ HI E) as (H1 & H2 & H3).
    pose proof (run_line_Inv _ _ _ _ _ _ _ _ HI E) as HI1.
    destruct (IH _ _ HI1 H) as (H4 & H5 & H6).
    destruct debug; lia.
Qed.

Lemma run_lines_known int repr debug p results lines p' results' :
  run_lines int repr debug p results lines = Ok (p', results') ->
  known_stats results -> known_stats results'.
Proof.
  revert p results. induction lines as [|line rest IH]; intros p results H Hk.
  - cbn [run_lines] in H. by injection H as <- <-.
  - cbn [run_lines] in H.
    destruct (run_line int repr debug p results line)
      as [[p1 results1]| |] eqn:E; [|done..].
    cbn [bind fst snd] in H.
    eapply IH; [done|]. by eapply run_line_known.
Qed.

Lemma select_stat_MAPPING heap_name a t :
  select_stat heap_name = Some a ->
  (do idx <- dict_getitem MAPPING heap_name in
   PyList.getitem (tuple_values t) idx) = Ok (column a t).
Proof.
  unfold select_stat. destruct t as [[[[pl a0] h0] av0] r0].
  destruct (String.eqb_spec heap_name "ab") as [->|_];
    [by intros [= <-]|].
  destruct (String.eqb_spec heap_name "hits") as [->|_];
    [by intros [= <-]|].
  destruct (String.eqb_spec heap_name "rbi") as [->|_];
    [by intros [= <-]|].
  destruct (String.eqb_spec heap_name "avg") as [->|_];
    [by intros [= <-]|].
  done.
Qed.

Lemma process_list_column heap_name a val :
  select_stat heap_name = Some a ->
  process_list heap_name val = Ok (map (column a) val).
Proof.
  intros Hsel. induction val as [|t val IH]; [done|].
  cbn [process_list map].
  pose proof (select_stat_MAPPING heap_name a t Hsel) as H.
  destruct (dict_getitem MAPPING heap_name) as [idx| |]; [|done..].
  cbn [bind] in *. rewrite H. cbn [bind]. rewrite IH. done.
Qed.

Lemma process_results_known results :
  known_stats results ->
  exists processed_results,
    process_results results = Ok processed_results /\
    Forall2 processed_of results processed_results.
Proof.
  induction 1 as [|r results Hr _ IH].
  - exists []. split; [done|constructor].
  - destruct IH as (items & Hitems & HF). cbn [process_results].
    destruct r as [val|heap_name val].
    + cbn [bind]. rewrite Hitems. cbn [bind].
      exists (PTuple val :: items). split; [done|]. by constructor.
    + destruct Hr as [a Ha].
      rewrite (process_list_column _ _ _ Ha). cbn [bind].
      rewrite Hitems. cbn [bind].
      exists (PList (map (column a) val) :: items). split; [done|].
      constructor; [|done]. simpl. eauto.
Qed.


(** X23. The driver skips every line whose first tab-separated field,
    after [strip()], is none of [n], [cs] and [cb] (a blank line, a
    comment, an operation code in capitals): [tokens[0]] never raises,
    and neither the tracker nor the results change. *)
Theorem run_skips_other_lines int repr debug problem results line rest :
  hd ""%string (split tab (strip line)) <> "n"%string ->
  hd ""%string (split tab (strip line)) <> "cs"%string ->
  hd ""%string (split tab (strip line)) <> "cb"%string ->
  run_lines int repr debug problem results (line :: rest) =
  run_lines int repr debug problem results rest.
Proof.
  intros Hn Hcs Hcb. cbn [run_lines]. unfold run_line.
  destruct (split_cons tab (strip line)) as (op & args & E).
  rewrite E in *. rewrite tokens_0. cbn [bind hd] in *.
  destruct (String.eqb_spec op "n"); [done|].
  destruct (String.eqb_spec op "cs"); [done|].
  destruct (String.eqb_spec op "cb"); [done|]. done.
Qed.

Lemma run_skips_other_lines_witness :
  run_lines example_int example_repr true Problem_init []
    [field " " "";
     field "CS" "A"; field "cs" "A"] =
  run_lines example_int example_repr true Problem_init []
    [field "CS" "A"; field "cs" "A"] /\
  run_lines example_int example_repr true Problem_init []
    [field "CS" "A"; field "cs" "A"] =
  run_lines example_int example_repr true Problem_init [] [field "cs" "A"].
Proof.
  split.
  - apply (run_skips_other_lines example_int example_repr true Problem_init
             [] (field " " "")
             [field "CS" "A"; field "cs" "A"]);
      vm_compute; discriminate.
  - apply (run_skips_other_lines example_int example_repr true Problem_init
             [] (field "CS" "A") [field "cs" "A"]);
      vm_compute; discriminate.
Defined.

(** X24. A [cb] line that names a statistic other than [ab], [hits],
    [rbi] and [avg] stops the driver with a [TypeError], whatever the
    lines after it: [current_best] returns [None], and the comprehension
    of [run_from_list] iterates over it. *)
Theorem cb_unknown_statistic_raises_TypeError int repr debug problem results
    line rest heap_name t2 more k :
  split tab (strip line) = "cb"%string :: heap_name :: t2 :: more ->
  int t2 = Ok k ->
  select_stat heap_name = None ->
  run_lines int repr debug problem results (line :: rest) = Raise TypeError.
Proof.
  intros E Hk Hsel. cbn [run_lines]. unfold run_line.
  rewrite E, tokens_0. cbn [bind].
  replace (String.eqb "cb" "n") with false by done.
  replace (String.eqb "cb" "cs") with false by done.
  rewrite String.eqb_refl, tokens_1. cbn [bind].
  rewrite tokens_2. cbn [bind]. rewrite Hk. cbn [bind].
  unfold current_best. rewrite Hsel. done.
Qed.

Lemma cb_unknown_statistic_raises_TypeError_witness :
  run_lines example_int example_repr false Problem_init []
    [field "cb" (field "AVG" "3"); field "cs" "A"] = Raise TypeError.
Proof.
  apply (cb_unknown_statistic_raises_TypeError example_int example_repr
           false Problem_init [] (field "cb" (field "AVG" "3"))
           [field "cs" "A"] "AVG" "3" [] 3); reflexivity.
Defined.

(** X25. A line that holds an operation code and nothing else (also
    [cs] followed by a tab, which [strip()] removes) stops the driver
    with an [IndexError] at [tokens[1]]. *)
Theorem bare_operation_raises_IndexError int repr debug problem results
    line rest operation_type :
  split tab (strip line) = [operation_type] ->
  operation_type = "n"%string \/ operation_type = "cs"%string \/
  operation_type = "cb"%string ->
  run_lines int repr debug problem results (line :: rest) = Raise IndexError.
Proof.
  intros E Hop. cbn [run_lines]. unfold run_line.
  rewrite E, tokens_0. cbn [bind]. rewrite tokens_missing.
  by destruct Hop as [->|[->| ->]].
Qed.

Lemma bare_operation_raises_IndexError_witness :
  run_lines example_int example_repr false Problem_init []
    [field "cs" ""] = Raise IndexError.
Proof.
  apply (bare_operation_raises_IndexError example_int example_repr false
           Problem_init [] (field "cs" "") []
           "cs"); [reflexivity|right; left; reflexivity].
Defined.



(** X27. [process_results] never raises on what [run_from_list] returns:
    every [cb] result carries one of the four keys of [MAPPING] that
    [current_best] accepts, a [cs] result is passed on as it is, and a
    [cb] result becomes the list of the values of the statistic asked
    for. *)
Theorem process_results_of_run int repr line_list debug results :
  run_from_list int repr line_list debug = Ok results ->
  exists processed_results,
    process_results results = Ok processed_results /\
    Forall2 processed_of results processed_results.
Proof.
  unfold run_from_list. intros H.
  destruct (run_lines int repr debug Problem_init [] line_list)
    as [[p' results']| |] eqn:E; [|done..].
  cbn [bind snd] in H. injection H as <-.
  apply process_results_known.
  eapply run_lines_known; [exact E|]. constructor.
Qed.

Lemma process_results_of_run_witness :
  exists processed_results,
    process_results
      [RCb "avg" [(Some "A"%string, 1, 1, 1%Q, 0)];
       RCs (Some "B"%string, 2, 1, 1 # 2, 0);
       RCb "avg" [(Some "B"%string, 2, 1, 1 # 2, 0);
                  (Some "A"%string, 1, 1, 1%Q, 0)]]
    = Ok processed_results /\
    Forall2 processed_of
      [RCb "avg" [(Some "A"%string, 1, 1, 1%Q, 0)];
       RCs (Some "B"%string, 2, 1, 1 # 2, 0);
       RCb "avg" [(Some "B"%string, 2, 1, 1 # 2, 0);
                  (Some "A"%string, 1, 1, 1%Q, 0)]]
      processed_results.
Proof.
  apply (process_results_of_run example_int example_repr example_lines false).
  vm_compute. reflexivity.
Defined.

(** X28. What a completed run has printed: one line for each result when
    [debug] is set, and nothing otherwise (the only other [print], the
    ['not valid'] of [current_best], is followed by a [TypeError] in
    the driver). *)
Theorem run_prints_only_in_debug int repr debug line_list problem results :
  run_lines int repr debug Problem_init [] line_list = Ok (problem, results) ->
  length (stdout problem) = if debug then length results else 0%nat.
Proof.
  intros H.
  destruct (run_lines_stdout _ _ _ _ _ _ _ _ Inv_init H) as (H1 & H2 & H3).
  simpl in *. destruct debug; lia.
Qed.

Lemma run_prints_only_in_debug_witness :
  exists problem results,
    run_lines example_int example_repr true Problem_init [] example_lines
    = Ok (problem, results) /\
    length (stdout problem) = length results.
Proof.
  destruct (run_lines example_int example_repr true Problem_init []
              example_lines) as [[problem results]| |] eqn:E;
    [|vm_compute in E; discriminate E..].
  exists problem, results. split; [reflexivity|].
  apply (run_prints_only_in_debug example_int example_repr true
           example_lines problem results E).
Defined.
